(** * pdfParser: the largest scaled number of a document

    A shallow embedding of [pdfParser.py], the scale-resolution and
    value-extraction engine that scans the pages of a PDF (words and tables,
    as pdfplumber extracts them) for the largest number, rescaled by
    page, table, column and inline scale words.

    The file has two parts.  Part I embeds the program: the text model,
    the two library services the program relies on ([re] and [decimal]),
    and then the module's constants and functions under their own names.
    Part II states and proves the properties. *)

From Stdlib Require Import ZArith QArith Floats Ascii String Lia Bool.
From stdpp Require Import base option list gmap.

Open Scope Z_scope.
Open Scope list_scope.

(* ===================================================================== *)
(** * Part I.  The embedding                                              *)
(* ===================================================================== *)

(** ** Text

    A Python [str] is a sequence of code points.  The model keeps the
    code points U+0000..U+00FF (Latin-1) and, beyond them, the five that
    the letter-case rules of [re] and [str] connect with the ASCII
    letters: under IGNORECASE U+0130 and U+0131 match [i], U+017F matches
    [s] and U+212A matches [k]; [str.lower] turns U+212A into [k] and
    U+0130 into [i] followed by U+0307.  A string is a [list char].  The
    character classes below are the ones [re] and [str] use on these
    code points: [\d] is [0-9]; [\s] and [str.isspace] agree and hold for
    TAB..CR, FS..US, SPACE, NEL and NBSP; [\w] is [str.isalnum] or
    underscore. *)

Inductive char : Type :=
| Latin (a : ascii)   (* U+0000..U+00FF *)
| U0130               (* LATIN CAPITAL LETTER I WITH DOT ABOVE *)
| U0131               (* LATIN SMALL LETTER DOTLESS I *)
| U017F               (* LATIN SMALL LETTER LONG S *)
| U212A               (* KELVIN SIGN *)
| U0307.              (* COMBINING DOT ABOVE *)

Coercion Latin : ascii >-> char.
Bind Scope char_scope with char.

#[global] Instance char_eq_dec : EqDecision char.
Proof. solve_decision. Defined.

Definition str := list char.

(** A string literal of the source. *)
Definition py (x : string) : str := map Latin (list_ascii_of_string x).

Definition code (c : char) : N :=
  match c with
  | Latin a => N_of_ascii a
  | U0130 => 304
  | U0131 => 305
  | U017F => 383
  | U212A => 8490
  | U0307 => 775
  end.

Definition between (lo hi n : N) : bool := ((lo <=? n) && (n <=? hi))%N.

Definition is_digit (c : char) : bool := between 48 57 (code c).

Definition is_space (c : char) : bool :=
  let n := code c in
  between 9 13 n || between 28 32 n || (n =? 133)%N || (n =? 160)%N.

Definition is_word (c : char) : bool :=
  let n := code c in
  between 48 57 n || between 65 90 n || (n =? 95)%N || between 97 122 n
  || (n =? 170)%N || between 178 179 n || (n =? 181)%N || between 185 186 n
  || between 188 190 n || between 192 214 n || between 216 246 n
  || between 248 255 n
  || between 304 305 n || (n =? 383)%N || (n =? 8490)%N.

(** The lower case of a Latin-1 character: the upper-case letters of the
    range are [A-Z], and U+00C0..U+00DE without the multiplication
    sign. *)
Definition lower_latin (a : ascii) : ascii :=
  let n := N_of_ascii a in
  if between 65 90 n || between 192 214 n || between 216 222 n
  then ascii_of_N (n + 32) else a.

(** [str.lower] on one character.  The result is one character, except
    for U+0130, whose lower case is [i] with a combining dot. *)
Definition lower_char (c : char) : str :=
  match c with
  | Latin a => [Latin (lower_latin a)]
  | U0130 => [Latin "i"; U0307]
  | U212A => [Latin "k"]
  | U0131 | U017F | U0307 => [c]
  end.

(** [s.lower()] *)
Definition lower (t : str) : str := concat (map lower_char t).

(** The letter [re] compares under IGNORECASE: it lowers each character
    on its own (U+0130 to [i], U+212A to [k]) and, beyond that, lets the
    dotless i match [i] and the long s match [s]. *)
Definition fold_char (c : char) : char :=
  match c with
  | Latin a => Latin (lower_latin a)
  | U0130 | U0131 => Latin "i"
  | U017F => Latin "s"
  | U212A => Latin "k"
  | U0307 => U0307
  end.

Definition fold (t : str) : str := map fold_char t.

Definition char_eqb (a b : char) : bool := (code a =? code b)%N.

Fixpoint str_eqb (a b : str) : bool :=
  match a, b with
  | [], [] => true
  | x :: a', y :: b' => char_eqb x y && str_eqb a' b'
  | _, _ => false
  end.

(** [s.strip()] with no argument: white space off both ends. *)
Fixpoint lstrip (t : str) : str :=
  match t with
  | c :: t' => if is_space c then lstrip t' else t
  | [] => []
  end.

Definition rstrip (t : str) : str := rev (lstrip (rev t)).

Definition strip (t : str) : str := rstrip (lstrip t).

(** [s.replace(c, "")] for a one-character [c]. *)
Fixpoint remove_char (c : char) (t : str) : str :=
  match t with
  | [] => []
  | x :: t' => if char_eqb x c then remove_char c t' else x :: remove_char c t'
  end.

(** The longest prefix whose characters all satisfy [f], and what follows
    it. *)
Fixpoint take_while (f : char -> bool) (t : str) : str :=
  match t with
  | c :: t' => if f c then c :: take_while f t' else []
  | [] => []
  end.

Fixpoint drop_while (f : char -> bool) (t : str) : str :=
  match t with
  | c :: t' => if f c then drop_while f t' else t
  | [] => []
  end.

(** [sep.join(parts)] *)
Fixpoint join (sep : str) (parts : list str) : str :=
  match parts with
  | [] => []
  | [p] => p
  | p :: ps => p ++ sep ++ join sep ps
  end.

(** [t.startswith(p)] *)
Fixpoint starts_with (p t : str) : bool :=
  match p, t with
  | [], _ => true
  | x :: p', y :: t' => char_eqb x y && starts_with p' t'
  | _ :: _, [] => false
  end.

(** [kw in t] for strings: [kw] occurs somewhere in [t]. *)
Fixpoint contains (kw t : str) : bool :=
  starts_with kw t ||
  match t with
  | [] => false
  | _ :: t' => contains kw t'
  end.

(** ** Exceptions

    The exceptions the program can meet, and results that either carry a
    value or raise. *)

Inductive exn : Type :=
| InvalidOperation
| TypeError
| AttributeError
| Overflow
| IndexError.

Inductive result (A : Type) : Type :=
| Ok (a : A)
| Raise (e : exn).

Arguments Ok {A} a.
Arguments Raise {A} e.

#[global] Instance result_ret : MRet result := fun A a => Ok a.

#[global] Instance result_bind : MBind result := fun A B f r =>
  match r with
  | Ok a => f a
  | Raise e => Raise e
  end.

(** A [for] loop whose body updates a state and may raise. *)
Fixpoint for_each {A S : Type} (xs : list A) (body : S -> A -> result S) (st : S)
  : result S :=
  match xs with
  | [] => Ok st
  | x :: xs' => st' ← body st x; for_each xs' body st'
  end.

(** [enumerate(xs)] *)
Definition enumerate {A : Type} (xs : list A) : list (nat * A) :=
  imap (fun i x => (i, x)) xs.

(** ** The [re] module

    The patterns of the source are kept as syntax trees and run by a
    backtracking matcher in continuation-passing style, the strategy of
    CPython's engine: alternatives are tried left to right, repetitions are
    greedy and give characters back one iteration at a time, and a capture
    that is backtracked over is forgotten. *)

Inductive cclass : Type :=
| Digit   (* \d *)
| Space   (* \s *)
| Wordc.  (* \w *)

Inductive regex : Type :=
| Eps                                           (* the empty pattern *)
| Chr (c : char)                                (* one literal character *)
| Cls (k : cclass)                              (* \d, \s, \w *)
| Cat (r1 r2 : regex)                           (* r1 r2 *)
| Alt (r1 r2 : regex)                           (* r1|r2 *)
| Rep (lo : nat) (hi : option nat) (r : regex)  (* greedy r{lo,hi} *)
| Grp (i : nat) (r : regex)                     (* capturing group number i *)
| Bnd                                           (* \b *)
| Ahead (r : regex).                            (* (?=r) *)

Definition Opt (r : regex) : regex := Rep 0 (Some 1%nat) r.   (* r? *)
Definition Star (r : regex) : regex := Rep 0 None r.          (* r* *)
Definition Plus (r : regex) : regex := Rep 1 None r.          (* r+ *)

(** A run of literal characters. *)
Fixpoint Lit (t : str) : regex :=
  match t with
  | [] => Eps
  | [c] => Chr c
  | c :: t' => Cat (Chr c) (Lit t')
  end.

(** A compiled pattern: the tree, the IGNORECASE flag and the number of
    capturing groups. *)
Record pattern : Type := Pattern {
  re_tree : regex;
  re_ignorecase : bool;
  re_ngroups : nat
}.

(** The matcher's position in the subject: the characters behind it
    (nearest first), the characters ahead, and the captures so far
    (group [i] at index [i - 1]; [None] is an unset group). *)
Record mstate : Type := MState {
  seen : str;
  rest : str;
  caps : list (option str)
}.

Definition in_class (k : cclass) (c : char) : bool :=
  match k with
  | Digit => is_digit c
  | Space => is_space c
  | Wordc => is_word c
  end.

(** A literal character of the pattern against one of the subject. *)
Definition chr_match (ic : bool) (p c : char) : bool :=
  if ic then char_eqb (fold_char p) (fold_char c) else char_eqb p c.

(** [\b]: exactly one of the characters around the position is a word
    character; the ends of the subject count as non-word. *)
Definition at_boundary (st : mstate) : bool :=
  xorb (match seen st with c :: _ => is_word c | [] => false end)
       (match rest st with c :: _ => is_word c | [] => false end).

Definition advance (st : mstate) : option (char * mstate) :=
  match rest st with
  | c :: t => Some (c, MState (c :: seen st) t (caps st))
  | [] => None
  end.

(** The text matched between two positions of one run. *)
Definition consumed (st st' : mstate) : str :=
  rev (take (length (seen st') - length (seen st)) (seen st')).

Definition set_cap (i : nat) (t : str) (st : mstate) : mstate :=
  MState (seen st) (rest st) (<[pred i := Some t]> (caps st)).

Definition hi_exhausted (hi : option nat) : bool :=
  match hi with Some O => true | _ => false end.

Definition hi_pred (hi : option nat) : option nat :=
  match hi with Some n => Some (pred n) | None => None end.

Definition shorter (st' st : mstate) : bool :=
  (length (rest st') <? length (rest st))%nat.

(** Greedy repetition of [body] between [lo] and [hi] times.  One more
    iteration is tried first; when that way fails the loop stops here,
    which is allowed once [lo] iterations are done.  An iteration has to
    consume something (every repeated pattern of the source does), so the
    fuel, one more than the characters ahead, is never used up. *)
Fixpoint rep_loop (body : mstate -> (mstate -> option mstate) -> option mstate)
    (fuel lo : nat) (hi : option nat)
    (st : mstate) (k : mstate -> option mstate) : option mstate :=
  match fuel with
  | O => None
  | S fuel' =>
      let stop := match lo with O => k st | S _ => None end in
      if hi_exhausted hi then stop
      else
        match body st (fun st' =>
                 if shorter st' st
                 then rep_loop body fuel' (pred lo) (hi_pred hi) st' k
                 else None) with
        | Some m => Some m
        | None => stop
        end
  end.

(** [run ic r st k]: match [r] at [st], then go on with [k]; [None] when
    every way of matching [r] makes [k] fail. *)
Fixpoint run (ic : bool) (r : regex) (st : mstate)
    (k : mstate -> option mstate) : option mstate :=
  match r with
  | Eps => k st
  | Chr p =>
      match advance st with
      | Some (c, st') => if chr_match ic p c then k st' else None
      | None => None
      end
  | Cls cl =>
      match advance st with
      | Some (c, st') => if in_class cl c then k st' else None
      | None => None
      end
  | Cat r1 r2 => run ic r1 st (fun st1 => run ic r2 st1 k)
  | Alt r1 r2 =>
      match run ic r1 st k with
      | Some m => Some m
      | None => run ic r2 st k
      end
  | Rep lo hi r1 => rep_loop (run ic r1) (S (length (rest st))) lo hi st k
  | Grp i r1 => run ic r1 st (fun st1 => k (set_cap i (consumed st st1) st1))
  | Bnd => if at_boundary st then k st else None
  | Ahead r1 =>
      match run ic r1 st Some with
      | Some st1 => k (MState (seen st) (rest st) (caps st1))
      | None => None
      end
  end.

(** A match object: where the match began, and the matcher's state at
    its end. *)
Record rmatch : Type := RMatch {
  m_start : nat;
  m_final : mstate
}.

(** [m.groups()] *)
Definition groups (m : rmatch) : list (option str) := caps (m_final m).

(** [m.end()] *)
Definition m_end (m : rmatch) : nat := length (seen (m_final m)).

(** [m.group(0)] *)
Definition group0 (m : rmatch) : str :=
  rev (take (m_end m - m_start m) (seen (m_final m))).

(** [pattern.match(text, pos)]: a match that begins exactly at the
    position whose left context is [behind] and right context [ahead]. *)
Definition match_at (p : pattern) (behind ahead : str) : option rmatch :=
  match run (re_ignorecase p) (re_tree p)
            (MState behind ahead (replicate (re_ngroups p) None)) Some with
  | Some st => Some (RMatch (length behind) st)
  | None => None
  end.

(** The leftmost match at or after a position. *)
Fixpoint search_from (p : pattern) (behind ahead : str) : option rmatch :=
  match match_at p behind ahead with
  | Some m => Some m
  | None =>
      match ahead with
      | [] => None
      | c :: ahead' => search_from p (c :: behind) ahead'
      end
  end.

(** [pattern.search(text)] *)
Definition search (p : pattern) (text : str) : option rmatch :=
  search_from p [] text.

(** The successive non-overlapping matches from a position on; each
    search resumes where the previous match ended.  The patterns of the
    source never match the empty string, so every match uses up at least
    one character of the fuel. *)
Fixpoint finditer_from (p : pattern) (fuel : nat) (behind ahead : str)
  : list rmatch :=
  match fuel with
  | O => []
  | S fuel' =>
      match search_from p behind ahead with
      | None => []
      | Some m =>
          m :: finditer_from p fuel' (seen (m_final m)) (rest (m_final m))
      end
  end.

(** [pattern.finditer(text)] *)
Definition finditer (p : pattern) (text : str) : list rmatch :=
  finditer_from p (S (length text)) [] text.

(** ** The [decimal] module

    A [Decimal] is a finite number [(-1)^sign * coeff * 10^exp], an
    infinity or a NaN.  The constructor from a string is exact; the
    arithmetic is that of the default context: 28 significant digits,
    rounding half to even, exponents between -999999 and 999999, with the
    signals InvalidOperation and Overflow trapped (they raise). *)

Inductive Decimal : Type :=
| Finite (sign : bool) (coeff : N) (exp : Z)
| Infinity (sign : bool)
| NaN (sign : bool) (signaling : bool) (payload : N).

Definition prec : Z := 28.
Definition Emax : Z := 999999.
Definition Emin : Z := -999999.
Definition Etiny : Z := Emin - prec + 1.
Definition Etop : Z := Emax - prec + 1.

(** The value of a digit character, and of a run of digits read after an
    accumulator. *)
Definition digit_value (c : char) : N := (code c - 48)%N.

Definition digits_value (acc : N) (t : str) : N :=
  fold_left (fun a c => (10 * a + digit_value c)%N) t acc.

(** An optional sign in front of a numeral: [true] for a minus. *)
Definition split_sign (t : str) : bool * str :=
  match t with
  | Latin "-" :: t' => (true, t')
  | Latin "+" :: t' => (false, t')
  | _ => (false, t)
  end.

(** The exponent part [E[sign]digits] up to the end of the string; no
    exponent part at all counts as exponent 0. *)
Definition parse_exponent (t : str) : option Z :=
  match t with
  | [] => Some 0
  | c :: t' =>
      if char_eqb (fold_char c) "e" then
        let '(neg, ds) := split_sign t' in
        match ds with
        | [] => None
        | _ :: _ =>
            if forallb is_digit ds
            then let n := Z.of_N (digits_value 0 ds) in
                 Some (if neg then - n else n)
            else None
        end
      else None
  end.

(** The number of decimal digits of a coefficient (1 for zero). *)
Definition ndigits (c : N) : Z := Z.of_nat (Decimal.nb_digits (N.to_uint c)).

(** The exponents a [Decimal] can hold at all, whatever the context (the
    limits of the C implementation on a 64-bit machine): the adjusted
    exponent is at most [MAX_EMAX] and the exponent at least
    [MIN_ETINY]. *)
Definition MAX_EMAX : Z := 999999999999999999.
Definition MIN_ETINY : Z := -1999999999999999997.

Definition holdable (c : N) (e : Z) : bool :=
  (e + ndigits c - 1 <=? MAX_EMAX) && (MIN_ETINY <=? e).

Definition exponent_written (after_frac : str) : bool :=
  match after_frac with
  | [] => false
  | _ :: _ => true
  end.

(** The numeric strings with digits: [digits[.[digits]]] or [.digits],
    then an optional exponent part.  The constructor is exact: a numeral
    whose exponent part takes the number out of what a [Decimal] can
    hold is refused.  (Without an exponent part only a numeral of more
    than 10^18 characters could leave that range; the model reads it.) *)
Definition parse_number (neg : bool) (t : str) : option Decimal :=
  let int_part := take_while is_digit t in
  let after_int := drop_while is_digit t in
  let '(frac_part, after_frac) :=
    match after_int with
    | Latin "." :: t' => (take_while is_digit t', drop_while is_digit t')
    | _ => ([], after_int)
    end in
  match int_part ++ frac_part with
  | [] => None
  | all_digits =>
      match parse_exponent after_frac with
      | Some e =>
          let c := digits_value 0 all_digits in
          let exp := e - Z.of_nat (length frac_part) in
          if exponent_written after_frac && negb (holdable c exp)
          then None
          else Some (Finite neg c exp)
      | None => None
      end
  end.

(** The special values: [Inf], [Infinity], [NaN] and [sNaN] with optional
    diagnostic digits, in any letter case. *)
Definition parse_special (neg : bool) (t : str) : option Decimal :=
  let l := lower t in
  if str_eqb l (py "inf") || str_eqb l (py "infinity") then Some (Infinity neg)
  else
    let '(sig, l') :=
      match l with
      | Latin "s" :: l' => (true, l')
      | _ => (false, l)
      end in
    match l' with
    | Latin "n" :: Latin "a" :: Latin "n" :: diag =>
        if forallb is_digit diag
        then Some (NaN neg sig (digits_value 0 diag))
        else None
    | _ => None
    end.

(** [Decimal(t)] for a string: white space around the numeral and
    underscores anywhere are dropped; a string that is no numeral signals
    a conversion syntax error, an InvalidOperation, and so does a
    numeral that the constructor cannot hold exactly. *)
Definition Decimal_of_str (t : str) : result Decimal :=
  let '(neg, body) := split_sign (remove_char "_"%char (strip t)) in
  match parse_number neg body with
  | Some d => Ok d
  | None =>
      match parse_special neg body with
      | Some d => Ok d
      | None => Raise InvalidOperation
      end
  end.

(** Rounding half to even when the last [shift] digits are dropped. *)
Definition round_half_even (c : N) (shift : Z) : N :=
  let unit := (10 ^ Z.to_N shift)%N in
  let q := (c / unit)%N in
  let r := (c mod unit)%N in
  match (2 * r ?= unit)%N with
  | Gt => (q + 1)%N
  | Eq => if N.odd q then (q + 1)%N else q
  | Lt => q
  end.

(** The context's finishing step on a finite result: round to [prec]
    digits (fewer for a subnormal), raise Overflow above [Emax], and keep
    the exponent of a zero within range. *)
Definition fix_finite (sign : bool) (c : N) (e : Z) : result Decimal :=
  if (c =? 0)%N then Ok (Finite sign 0 (Z.min (Z.max e Etiny) Emax))
  else
    let exp_min := ndigits c + e - prec in
    if exp_min >? Etop then Raise Overflow
    else
      let exp_min := Z.max exp_min Etiny in
      if e <? exp_min then
        let c1 := round_half_even c (exp_min - e) in
        let '(c2, e2) :=
          if ndigits c1 >? prec then ((c1 / 10)%N, exp_min + 1)
          else (c1, exp_min) in
        if e2 >? Etop then Raise Overflow else Ok (Finite sign c2 e2)
      else Ok (Finite sign c e).

(** A quiet NaN that passes through an operation keeps at most [prec]
    digits of its payload. *)
Definition fix_nan (sign : bool) (payload : N) : Decimal :=
  NaN sign false (payload mod 10 ^ Z.to_N prec)%N.

Definition dec_sign (d : Decimal) : bool :=
  match d with
  | Finite sg _ _ | Infinity sg | NaN sg _ _ => sg
  end.

Definition dec_is_zero (d : Decimal) : bool :=
  match d with
  | Finite _ c _ => (c =? 0)%N
  | _ => false
  end.

(** [a * b] *)
Definition dec_mul (a b : Decimal) : result Decimal :=
  match a, b with
  | NaN _ true _, _ => Raise InvalidOperation
  | _, NaN _ true _ => Raise InvalidOperation
  | NaN sg false p, _ => Ok (fix_nan sg p)
  | _, NaN sg false p => Ok (fix_nan sg p)
  | Infinity sa, _ =>
      if dec_is_zero b then Raise InvalidOperation
      else Ok (Infinity (xorb sa (dec_sign b)))
  | _, Infinity sb =>
      if dec_is_zero a then Raise InvalidOperation
      else Ok (Infinity (xorb (dec_sign a) sb))
  | Finite sa ca ea, Finite sb cb eb =>
      fix_finite (xorb sa sb) (ca * cb)%N (ea + eb)
  end.

(** The exact value of a finite number. *)
Definition finite_value (sign : bool) (c : N) (e : Z) : Q :=
  inject_Z (if sign then - Z.of_N c else Z.of_N c) * Qpower (10 # 1) e.

(** Numerical comparison; [None] when a NaN is involved. *)
Definition dec_compare (a b : Decimal) : option comparison :=
  match a, b with
  | NaN _ _ _, _ | _, NaN _ _ _ => None
  | Infinity sa, Infinity sb =>
      Some (match sa, sb with
            | true, false => Lt
            | false, true => Gt
            | _, _ => Eq
            end)
  | Infinity sa, Finite _ _ _ => Some (if sa then Lt else Gt)
  | Finite _ _ _, Infinity sb => Some (if sb then Gt else Lt)
  | Finite sa ca ea, Finite sb cb eb =>
      Some (finite_value sa ca ea ?= finite_value sb cb eb)%Q
  end.

(** [a > b]: an ordering comparison with a NaN signals InvalidOperation. *)
Definition dec_gt (a b : Decimal) : result bool :=
  match dec_compare a b with
  | Some Gt => Ok true
  | Some _ => Ok false
  | None => Raise InvalidOperation
  end.

(** [a == b]: false for a quiet NaN, InvalidOperation for a signaling
    one. *)
Definition dec_eq (a b : Decimal) : result bool :=
  match a, b with
  | NaN _ true _, _ | _, NaN _ true _ => Raise InvalidOperation
  | _, _ =>
      match dec_compare a b with
      | Some Eq => Ok true
      | _ => Ok false
      end
  end.

(** ** The document, as the provider hands it over

    pdfplumber gives every page its height, its words with their boxes
    ([extract_words]), its tables as grids of optional cell strings
    ([extract_tables]) and the boxes of the detected tables
    ([find_tables], each with its [bbox]).  Coordinates are Python floats,
    here binary64 floats with the same operations.  Extraction is
    repeatable: each call on a page returns the same list. *)

Record Word : Type := MkWord {
  text : str;
  x0 : float;
  top : float;
  x1 : float;
  bottom : float
}.

(** [(x0, top, x1, bottom)] *)
Definition BBox : Type := (float * float * float * float)%type.

Definition Row : Type := list (option str).
Definition Table : Type := list Row.

Record Page : Type := MkPage {
  height : float;
  extract_words : list Word;
  extract_tables : list Table;
  find_tables : list BBox
}.

(** Truth of an optional string: [None] and the empty string are false. *)
Definition truthy (c : option str) : bool :=
  match c with
  | Some (_ :: _) => true
  | _ => false
  end.

(** ** Configuration *)

Definition MULTIPLIERS : list (str * Decimal) :=
  [ (py "thousand", Finite false 1000 0);
    (py "thousands", Finite false 1000 0);
    (py "million", Finite false 1000000 0);
    (py "millions", Finite false 1000000 0);
    (py "billion", Finite false 1000000000 0);
    (py "billions", Finite false 1000000000 0);
    (py "trillion", Finite false 1000000000000 0);
    (py "trillions", Finite false 1000000000000 0) ].

(** [d[key]] with [key in d], on a dictionary kept in declaration order. *)
Fixpoint dict_get {V : Type} (d : list (str * V)) (key : str) : option V :=
  match d with
  | [] => None
  | (k, v) :: d' => if str_eqb k key then Some v else dict_get d' key
  end.

Definition ROW_EXCLUSION_KEYWORDS : list str :=
  [ py "percentage"; py "percent"; py "%"; py "number"; py "rate"; py "ratio" ].

(** [\(in (\w+)\)|\(\$(\w+)\)|dollars in (\w+)], IGNORECASE *)
Definition CONTEXT_MULTIPLIER_RE : pattern :=
  Pattern
    (Alt (Cat (Lit (py "(in ")) (Cat (Grp 1 (Plus (Cls Wordc))) (Chr ")")))
    (Alt (Cat (Lit (py "($")) (Cat (Grp 2 (Plus (Cls Wordc))) (Chr ")")))
         (Cat (Lit (py "dollars in ")) (Grp 3 (Plus (Cls Wordc))))))
    true 3.

(** [\$?\s*(?:\d{1,3}(?:,\d{3})*|\d+)(?:\.\d+)?], the numeric group *)
Definition NUMBER_LITERAL : regex :=
  Cat (Opt (Chr "$"))
 (Cat (Star (Cls Space))
 (Cat (Alt (Cat (Rep 1 (Some 3%nat) (Cls Digit))
                (Star (Cat (Chr ",") (Rep 3 (Some 3%nat) (Cls Digit)))))
           (Plus (Cls Digit)))
      (Opt (Cat (Chr ".") (Plus (Cls Digit)))))).

(** [thousand|million|billion|trillion] *)
Definition INLINE_WORD : regex :=
  Alt (Lit (py "thousand"))
 (Alt (Lit (py "million"))
 (Alt (Lit (py "billion"))
      (Lit (py "trillion")))).

(** [(NUMBER_LITERAL)\s*(INLINE_WORD)?(?=\b)], IGNORECASE *)
Definition NUMBER_RE : pattern :=
  Pattern
    (Cat (Grp 1 NUMBER_LITERAL)
    (Cat (Star (Cls Space))
    (Cat (Opt (Grp 2 INLINE_WORD))
         (Ahead Bnd))))
    true 2.

(** ** Functions *)

Definition clean_number_string (t : str) : str :=
  strip (remove_char ","%char (remove_char "$"%char t)).

Definition ONE : Decimal := Finite false 1 0.        (* Decimal("1") *)
Definition ZERO : Decimal := Finite false 0 0.       (* Decimal(0) *)
Definition NEG_INFINITY : Decimal := Infinity true.  (* Decimal("-Infinity") *)

(** The body of the [try] in [parse_value]. *)
Definition parse_value_try (num_str : str) (multiplier_word : option str)
    (context_multiplier : Decimal) : result Decimal :=
  base_number ← Decimal_of_str (clean_number_string num_str);
  let inline :=
    if truthy multiplier_word
    then dict_get MULTIPLIERS (lower (default [] multiplier_word))
    else None in
  match inline with
  | Some factor => dec_mul base_number factor
  | None => dec_mul base_number context_multiplier
  end.

Definition parse_value (num_str : str) (multiplier_word : option str)
    (context_multiplier : Decimal) : result Decimal :=
  match parse_value_try num_str multiplier_word context_multiplier with
  | Raise InvalidOperation | Raise TypeError => Ok ZERO
  | r => r
  end.

Definition is_within_bboxes (word : Word) (bboxes : list BBox) : bool :=
  existsb (fun '(b_x0, b_top, b_x1, b_bottom) =>
             PrimFloat.ltb (x0 word) b_x1 && PrimFloat.ltb b_x0 (x1 word)
             && PrimFloat.ltb (top word) b_bottom
             && PrimFloat.ltb b_top (bottom word))
          bboxes.

(** [next((g for g in m.groups() if g), None)] *)
Fixpoint first_truthy (gs : list (option str)) : option str :=
  match gs with
  | [] => None
  | g :: gs' => if truthy g then g else first_truthy gs'
  end.

(** [next((g for g in m.groups() if g is not None), None)] *)
Fixpoint first_not_none (gs : list (option str)) : option str :=
  match gs with
  | [] => None
  | Some g :: _ => Some g
  | None :: gs' => first_not_none gs'
  end.

(** The multiplier a matched context phrase asserts: the factor of the
    captured word when the lexicon has it, and nothing otherwise
    ([if multiplier_word and multiplier_word.lower() in MULTIPLIERS]). *)
Definition asserted_multiplier (multiplier_word : option str) : option Decimal :=
  if truthy multiplier_word
  then dict_get MULTIPLIERS (lower (default [] multiplier_word))
  else None.

(** The context phrase of a text: the first match of the context pattern,
    read through the lexicon; no match, or a word the lexicon lacks,
    leaves the multiplier at 1. *)
Definition context_multiplier (header_text : str) : Decimal :=
  match search CONTEXT_MULTIPLIER_RE header_text with
  | Some context_match =>
      match asserted_multiplier (first_truthy (groups context_match)) with
      | Some factor => factor
      | None => ONE
      end
  | None => ONE
  end.

(** The words whose top lies in the upper 15% of the page, joined by
    spaces in the order given. *)
#[warnings="-inexact-float"]
Definition header_text_of (page : Page) : str :=
  let page_height := height page in
  let top_words :=
    map text
      (filter (fun w => PrimFloat.ltb (top w)
                          (PrimFloat.mul page_height 0.15%float) = true)
              (extract_words page)) in
  join (py " ") top_words.

Definition get_page_level_multiplier (page : Page) : Decimal :=
  match extract_words page with
  | [] => ONE
  | _ :: _ => context_multiplier (header_text_of page)
  end.

(** The running maximum [(max_value, max_page)]. *)
Record scan_state : Type := ScanState {
  max_value : Decimal;
  max_page : Z
}.

Definition initial_state : scan_state := ScanState NEG_INFINITY (-1).

(** [if value > max_value: max_value = value; max_page = page_num] *)
Definition update_max (page_num : Z) (st : scan_state) (value : Decimal)
  : result scan_state :=
  greater ← dec_gt value (max_value st);
  Ok (if greater : bool then ScanState value page_num else st).

(** The words a table's context is read from: left edge between the
    box's left and right edges, and top within 80 of the box's top or
    bottom within 80 of the box's bottom. *)
Definition near_table (bbox : BBox) (word : Word) : bool :=
  let '(b_x0, b_top, b_x1, b_bottom) := bbox in
  (PrimFloat.leb b_x0 (x0 word) && PrimFloat.leb (x0 word) b_x1)
  && (PrimFloat.ltb (PrimFloat.abs (PrimFloat.sub (top word) b_top)) 80%float
      || PrimFloat.ltb (PrimFloat.abs (PrimFloat.sub (bottom word) b_bottom))
                       80%float).

(** [nearby_text], grown by [" " + word["text"]] for each nearby word. *)
Definition nearby_text (bbox : BBox) (words : list Word) : str :=
  fold_left (fun acc word =>
               if near_table bbox word then acc ++ py " " ++ text word else acc)
            words [].

Definition table_context_multiplier_of (page_context_multiplier : Decimal)
    (bbox : BBox) (words : list Word) : Decimal :=
  match search CONTEXT_MULTIPLIER_RE (nearby_text bbox words) with
  | Some nearby_match =>
      match asserted_multiplier (first_not_none (groups nearby_match)) with
      | Some factor => factor
      | None => page_context_multiplier
      end
  | None => page_context_multiplier
  end.

(** [re.search(r"\b" + re.escape(word) + r"\b", header_text_lower)]; the
    lexicon words are letters only, which [re.escape] leaves alone. *)
Definition whole_word (word : str) : pattern :=
  Pattern (Cat Bnd (Cat (Lit word) Bnd)) false 0.

(** The first lexicon word, in declaration order, that occurs as a whole
    word in a header cell. *)
Fixpoint header_multiplier (d : list (str * Decimal)) (header_text_lower : str)
  : option Decimal :=
  match d with
  | [] => None
  | (word, multiplier) :: d' =>
      match search (whole_word word) header_text_lower with
      | Some _ => Some multiplier
      | None => header_multiplier d' header_text_lower
      end
  end.

Definition column_multipliers_of (header_row : Row) : gmap nat Decimal :=
  fold_left (fun (acc : gmap nat Decimal) '(col_idx, header_cell) =>
               if truthy header_cell then
                 match header_multiplier MULTIPLIERS
                         (lower (default [] header_cell)) with
                 | Some multiplier => <[col_idx := multiplier]> acc
                 | None => acc
                 end
               else acc)
            (enumerate header_row) ∅.

(** [any(kw in row[0].lower() for kw in ROW_EXCLUSION_KEYWORDS)] *)
Definition is_excluded (first_cell : str) : bool :=
  existsb (fun kw => contains kw (lower first_cell)) ROW_EXCLUSION_KEYWORDS.

(** [column_multipliers.get(col_idx, table_context_multiplier
    if not is_excluded_row else Decimal("1"))] *)
Definition context_mult_of (column_multipliers : gmap nat Decimal)
    (col_idx : nat) (table_context_multiplier : Decimal)
    (is_excluded_row : bool) : Decimal :=
  default (if negb is_excluded_row then table_context_multiplier else ONE)
          (column_multipliers !! col_idx).

(** [num_str, multiplier_word = match.groups()], then the resolution and
    the comparison; [resolve] is the call of [parse_value] made on the
    two groups.  A numeric group that is [None] would fail in
    [clean_number_string]. *)
Definition process_match (page_num : Z)
    (resolve : str -> option str -> result Decimal)
    (st : scan_state) (m : rmatch) : result scan_state :=
  match groups m with
  | [Some num_str; multiplier_word] =>
      value ← resolve num_str multiplier_word;
      update_max page_num st value
  | _ => Raise AttributeError
  end.

Definition process_cell (page_num : Z) (column_multipliers : gmap nat Decimal)
    (table_context_multiplier : Decimal) (is_excluded_row : bool)
    (st : scan_state) (ic : nat * option str) : result scan_state :=
  let '(col_idx, cell) := ic in
  if truthy cell then
    let matches := finditer NUMBER_RE (default [] cell) in
    for_each matches
      (process_match page_num (fun num_str multiplier_word =>
         let context_mult :=
           context_mult_of column_multipliers col_idx
                           table_context_multiplier is_excluded_row in
         parse_value num_str multiplier_word context_mult))
      st
  else Ok st.

Definition process_row (page_num : Z) (column_multipliers : gmap nat Decimal)
    (table_context_multiplier : Decimal)
    (st : scan_state) (row : Row) : result scan_state :=
  match row with
  | Some (c :: first_cell) :: _ =>
      let is_excluded_row := is_excluded (c :: first_cell) in
      for_each (enumerate row)
        (process_cell page_num column_multipliers table_context_multiplier
                      is_excluded_row)
        st
  | _ => Ok st   (* if not row or not row[0]: continue *)
  end.

Definition process_table (page : Page) (page_num : Z)
    (page_context_multiplier : Decimal)
    (st : scan_state) (it : nat * Table) : result scan_state :=
  let '(t_idx, table) := it in
  match table with
  | (_ :: _) as header_row :: data_rows =>
      match find_tables page !! t_idx with
      | None => Raise IndexError   (* detected_tables[t_idx] *)
      | Some bbox =>
          let table_context_multiplier :=
            table_context_multiplier_of page_context_multiplier bbox
                                        (extract_words page) in
          let column_multipliers := column_multipliers_of header_row in
          for_each data_rows
            (process_row page_num column_multipliers table_context_multiplier)
            st
      end
  | _ => Ok st   (* if not table or not table[0]: continue *)
  end.

(** The text of the words outside every table box.  Every detected table
    has a box, a 4-tuple, so the test [if t.bbox] keeps them all. *)
Definition non_table_text (page : Page) : str :=
  let table_bboxes := find_tables page in
  let non_table_words :=
    filter (fun word => is_within_bboxes word table_bboxes = false)
           (extract_words page) in
  join (py " ") (map text non_table_words).

Definition process_non_table (page : Page) (page_num : Z) (st : scan_state)
  : result scan_state :=
  let t := non_table_text page in
  match t with
  | [] => Ok st
  | _ :: _ =>
      for_each (finditer NUMBER_RE t)
        (process_match page_num (fun num_str multiplier_word =>
           parse_value num_str multiplier_word ONE))
        st
  end.

(** One turn of the loop over the pages; pages are numbered from 1. *)
Definition process_page (st : scan_state) (ip : nat * Page) : result scan_state :=
  let '(i, page) := ip in
  let page_num := Z.of_nat i + 1 in
  let page_context_multiplier := get_page_level_multiplier page in
  let tables := extract_tables page in
  st' ← for_each (enumerate tables)
         (process_table page page_num page_context_multiplier) st;
  process_non_table page page_num st'.

(** The loop over the pages, inside the [try]. *)
Definition scan_pages (pages : list Page) : result scan_state :=
  for_each (enumerate pages) process_page initial_state.

(** [find_highest_value_in_pdf], on the pages of the opened document:
    [None] stands for the pair [(None, None)].  Any exception met while
    scanning is caught and reported as not found.  (The progress lines
    the source prints are left out.) *)
Definition find_highest_value_in_pdf (pages : list Page)
  : result (option (Decimal * Z)) :=
  match scan_pages pages with
  | Raise _ => Ok None
  | Ok st =>
      nothing ← dec_eq (max_value st) NEG_INFINITY;
      Ok (if nothing : bool then None else Some (max_value st, max_page st))
  end.

(** ** Vocabulary of the properties *)

(** *** What a pattern matches

    [matches ic r st st']: the pattern [r] can take the matcher from
    position [st] to position [st'].  The relation lists every way of
    matching; [run] walks through them in priority order. *)

Inductive matches (ic : bool) : regex -> mstate -> mstate -> Prop :=
| M_Eps st :
    matches ic Eps st st
| M_Chr p c st st' :
    advance st = Some (c, st') -> chr_match ic p c = true ->
    matches ic (Chr p) st st'
| M_Cls cl c st st' :
    advance st = Some (c, st') -> in_class cl c = true ->
    matches ic (Cls cl) st st'
| M_Cat r1 r2 st st1 st2 :
    matches ic r1 st st1 -> matches ic r2 st1 st2 ->
    matches ic (Cat r1 r2) st st2
| M_AltL r1 r2 st st' :
    matches ic r1 st st' -> matches ic (Alt r1 r2) st st'
| M_AltR r1 r2 st st' :
    matches ic r2 st st' -> matches ic (Alt r1 r2) st st'
| M_RepStop hi r st :
    matches ic (Rep 0 hi r) st st
| M_RepStep lo hi r st st1 st2 :
    hi_exhausted hi = false ->
    matches ic r st st1 -> shorter st1 st = true ->
    matches ic (Rep (pred lo) (hi_pred hi) r) st1 st2 ->
    matches ic (Rep lo hi r) st st2
| M_Grp i r st st1 :
    matches ic r st st1 ->
    matches ic (Grp i r) st (set_cap i (consumed st st1) st1)
| M_Bnd st :
    at_boundary st = true -> matches ic Bnd st st
| M_Ahead r st st1 :
    run ic r st Some = Some st1 ->
    matches ic (Ahead r) st (MState (seen st) (rest st) (caps st1)).

(** The strings a pattern can consume, whatever surrounds them: the
    assertions [\b] and [(?=...)] consume nothing. *)
Fixpoint lang (ic : bool) (r : regex) (u : str) : Prop :=
  match r with
  | Eps => u = []
  | Chr p => exists c, u = [c] /\ chr_match ic p c = true
  | Cls cl => exists c, u = [c] /\ in_class cl c = true
  | Cat r1 r2 => exists u1 u2, u = u1 ++ u2 /\ lang ic r1 u1 /\ lang ic r2 u2
  | Alt r1 r2 => lang ic r1 u \/ lang ic r2 u
  | Rep lo hi r1 =>
      exists us, u = concat us /\ Forall (lang ic r1) us /\
                 (lo <= length us)%nat /\
                 match hi with Some h => (length us <= h)%nat | None => True end
  | Grp _ r1 => lang ic r1 u
  | Bnd => u = []
  | Ahead _ => u = []
  end.

(** [st'] lies [u] further in the same subject as [st]. *)
Definition span (st st' : mstate) (u : str) : Prop :=
  seen st' = rev u ++ seen st /\ rest st = u ++ rest st'.

(** Patterns without capturing groups. *)
Fixpoint groupless (r : regex) : bool :=
  match r with
  | Eps | Chr _ | Cls _ | Bnd => true
  | Cat r1 r2 | Alt r1 r2 => groupless r1 && groupless r2
  | Rep _ _ r1 | Ahead r1 => groupless r1
  | Grp _ _ => false
  end.

(** The state a match attempt starts from. *)
Definition start_state (p : pattern) (behind ahead : str) : mstate :=
  MState behind ahead (replicate (re_ngroups p) None).

(** *** Number literals and scale words *)

(** The characters of the digits of a number literal. *)
Definition digit_or_comma (c : char) : bool := is_digit c || char_eqb c ","%char.

(** A plain numeral: digits, then perhaps a point and more digits. *)
Definition fraction_text (fs : str) : str :=
  match fs with [] => [] | _ :: _ => Latin "." :: fs end.

Definition plain_numeral (ds fs : str) : str := ds ++ fraction_text fs.

(** The singular and the plural scale words of the lexicon. *)
Definition SINGULAR_WORDS : list str :=
  [ py "thousand"; py "million"; py "billion"; py "trillion" ].

Definition PLURAL_WORDS : list str :=
  [ py "thousands"; py "millions"; py "billions"; py "trillions" ].

(** No word character comes next: the text ends or goes on with a
    non-word character. *)
Definition word_ends_here (tail : str) : Prop :=
  match tail with
  | [] => True
  | c :: _ => is_word c = false
  end.

(** The rule of the inline scale word for a token [m] of [text], with
    [normal] the reading of a word in which the scale words are looked
    for: a captured word reads as a singular scale word, stands right
    after the literal and optional white space and ends there; and when
    the literal is followed by white space and a word that reads as a
    plural scale word, nothing is captured. *)
Definition inline_word_rule (normal : str -> str) (text : str) (m : rmatch) : Prop :=
  exists lit mw,
    groups m = [Some lit; mw]
    /\ (forall w, mw = Some w ->
          In (normal w) SINGULAR_WORDS
          /\ word_ends_here (rest (m_final m))
          /\ exists sp, forallb is_space sp = true
                        /\ drop (m_start m) text = lit ++ sp ++ w ++ rest (m_final m))
    /\ (forall sp pl tail,
          forallb is_space sp = true -> In (normal pl) PLURAL_WORDS ->
          drop (m_start m + length lit) text = sp ++ pl ++ tail ->
          mw = None).

(** *** The order of the running maximum *)

(** [a <= b] as numbers. *)
Definition dec_le (a b : Decimal) : Prop :=
  dec_compare a b = Some Lt \/ dec_compare a b = Some Eq.

(** The running maximum either stays as it is, page included, or moves
    to a strictly greater value. *)
Definition advances (st st' : scan_state) : Prop :=
  st' = st \/ dec_compare (max_value st') (max_value st) = Some Gt.

(** A finite decimal, and a running maximum that is either still empty
    or holds a finite value. *)
Definition is_finite (d : Decimal) : bool :=
  match d with
  | Finite _ _ _ => true
  | _ => false
  end.

Definition settled (st : scan_state) : Prop :=
  st = initial_state \/ is_finite (max_value st) = true.

(** *** The Context Matcher in the words of the specification

    Three surface forms, in any letter case: [(in WORD)], [($WORD)] and
    [dollars in WORD], where WORD is a run of word characters.  The
    matcher reports the first form met when the text is read from left
    to right. *)

(** [t] with the prefix [p] taken off, letter case aside: letters are
    compared as [re] compares them under IGNORECASE ([fold_char]). *)
Fixpoint prefix_ci (p t : str) : option str :=
  match p, t with
  | [], _ => Some t
  | x :: p', y :: t' =>
      if char_eqb (fold_char x) (fold_char y) then prefix_ci p' t' else None
  | _ :: _, [] => None
  end.

(** [opening WORD)] at the head of [t]. *)
Definition form_closed (opening t : str) : option str :=
  match prefix_ci opening t with
  | Some t' =>
      match take_while is_word t', drop_while is_word t' with
      | (_ :: _) as w, Latin ")" :: _ => Some w
      | _, _ => None
      end
  | None => None
  end.

(** [opening WORD] at the head of [t]. *)
Definition form_open (opening t : str) : option str :=
  match prefix_ci opening t with
  | Some t' =>
      match take_while is_word t' with
      | (_ :: _) as w => Some w
      | [] => None
      end
  | None => None
  end.

Definition surface_form (t : str) : option str :=
  match form_closed (py "(in ") t with
  | Some w => Some w
  | None =>
      match form_closed (py "($") t with
      | Some w => Some w
      | None => form_open (py "dollars in ") t
      end
  end.

Fixpoint first_surface_form (t : str) : option str :=
  match surface_form t with
  | Some w => Some w
  | None =>
      match t with
      | [] => None
      | _ :: t' => first_surface_form t'
      end
  end.

(** The word of the first surface form, read through the lexicon; a
    word the lexicon lacks asserts nothing. *)
Definition lexicon_factor (w : option str) : option Decimal :=
  match w with
  | Some w => dict_get MULTIPLIERS (lower w)
  | None => None
  end.


(** *** The cells of a table, in the words of the specification *)

(** The fallback multiplier of a cell (section 4.9): the column's
    multiplier when the header gave one, else 1 on an excluded row, else
    the table scale. *)
Definition effective_fallback (column_multipliers : gmap nat Decimal)
    (col : nat) (table_scale : Decimal) (excluded : bool) : Decimal :=
  match column_multipliers !! col with
  | Some factor => factor
  | None => if excluded then ONE else table_scale
  end.

(** A row that begins with a non-empty cell. *)
Definition has_first_cell (row : Row) : Prop :=
  match row with
  | Some (_ :: _) :: _ => True
  | _ => False
  end.

(** The exclusion flag of a row, read from its first cell. *)
Definition row_excluded (row : Row) : bool :=
  match row with
  | Some first_cell :: _ => is_excluded first_cell
  | _ => false
  end.

(** Every token of every non-empty cell of the data rows under
    consideration has been resolved with the multiplier of its cell and
    compared: the running maximum after the table is at least its value. *)
Definition table_scan_covers (considered : Row -> Prop)
    (page : Page) (page_num : Z) (page_scale : Decimal) (st : scan_state)
    (t_idx : nat) (header : Row) (data_rows : list Row) : Prop :=
  forall st',
    process_table page page_num page_scale st (t_idx, header :: data_rows) = Ok st' ->
    forall (row : Row) (col : nat) (cell : str) (m : rmatch),
      In row data_rows -> considered row ->
      row !! col = Some (Some cell) -> cell <> [] ->
      In m (finditer NUMBER_RE cell) ->
      exists lit mw bbox v,
        groups m = [Some lit; mw]
        /\ find_tables page !! t_idx = Some bbox
        /\ parse_value lit mw
             (effective_fallback (column_multipliers_of header) col
                (table_context_multiplier_of page_scale bbox (extract_words page))
                (row_excluded row)) = Ok v
        /\ dec_le v (max_value st').

(** *** The table scale, in the words of the specification *)

(** The word's horizontal span lies between the box's left and right
    edges. *)
Definition span_within_table (bbox : BBox) (word : Word) : bool :=
  let '(b_x0, _, b_x1, _) := bbox in
  PrimFloat.leb b_x0 (x0 word) && PrimFloat.leb (x1 word) b_x1.

(** The word's left edge lies between the box's left and right edges. *)
Definition left_edge_within_table (bbox : BBox) (word : Word) : bool :=
  let '(b_x0, _, b_x1, _) := bbox in
  PrimFloat.leb b_x0 (x0 word) && PrimFloat.leb (x0 word) b_x1.

(** The word's top is less than 80 from the box's top, or its bottom
    less than 80 from the box's bottom. *)
Definition vertically_near (bbox : BBox) (word : Word) : bool :=
  let '(_, b_top, _, b_bottom) := bbox in
  PrimFloat.ltb (PrimFloat.abs (PrimFloat.sub (top word) b_top)) 80%float
  || PrimFloat.ltb (PrimFloat.abs (PrimFloat.sub (bottom word) b_bottom)) 80%float.

(** The table scale read from the selected words: the Context Matcher on
    their texts, each after a space, and the page scale when it asserts
    nothing. *)
Definition spec_table_scale (selected : BBox -> Word -> bool)
    (page_scale : Decimal) (bbox : BBox) (words : list Word) : Decimal :=
  let chosen := filter (fun w => selected bbox w = true) words in
  let t := concat (map (fun w => py " " ++ text w) chosen) in
  default page_scale (lexicon_factor (first_surface_form t)).

(** *** Documents without numbers *)

(** A cell the scanner reads: in a data row that begins with a non-empty
    cell, of a table whose header row is not empty. *)
Definition scanned_cell (page : Page) (cell : str) : Prop :=
  exists header data_rows row,
    In (header :: data_rows) (extract_tables page)
    /\ header <> []
    /\ In row data_rows
    /\ has_first_cell row
    /\ In (Some cell) row.

(** No number token is ever found: not in a scanned cell, not in the
    free text of a page. *)
Definition no_number_token (pages : list Page) : Prop :=
  forall page, In page pages ->
    (forall cell, scanned_cell page cell -> finditer NUMBER_RE cell = [])
    /\ finditer NUMBER_RE (non_table_text page) = [].

(** *** Further vocabulary: strings, multipliers and the values of a page *)

(** No white space at the head of a string. *)
Definition no_space_at_head (t : str) : Prop :=
  match t with
  | [] => True
  | c :: _ => is_space c = false
  end.

(** The multipliers a context can assert: 1 and the four factors of the
    lexicon. *)
Definition SCALES : list Decimal :=
  [ ONE; Finite false 1000 0; Finite false 1000000 0;
    Finite false 1000000000 0; Finite false 1000000000000 0 ].

(** The multiplier a header cell asserts for its column: the first
    lexicon word that stands in the lower-cased cell as a whole word. *)
Definition column_factor (header_cell : option str) : option Decimal :=
  if truthy header_cell
  then header_multiplier MULTIPLIERS (lower (default [] header_cell))
  else None.

(** [w] stands in [t] as a whole word: somewhere in [t], with no word
    character right before it and none right after it. *)
Definition occurs_whole (w t : str) : Prop :=
  exists a b, t = a ++ w ++ b /\ word_ends_here (rev a) /\ word_ends_here b.

(** [kw] occurs somewhere in [t]. *)
Definition substring (kw t : str) : Prop := exists a b, t = a ++ kw ++ b.

(** *** The values a page offers

    [token_value fallback t v]: [v] is the value of a number token of the
    text [t], resolved with the fallback multiplier [fallback]. *)
Definition token_value (fallback : Decimal) (t : str) (v : Decimal) : Prop :=
  exists (m : rmatch) (lit : str) (mw : option str),
    In m (finditer NUMBER_RE t)
    /\ groups m = [Some lit; mw]
    /\ parse_value lit mw fallback = Ok v.

(** The value of a token in a cell of a data row that begins with a
    non-empty cell, in a table with a non-empty header row and a detected
    box, resolved with the multiplier of that cell. *)
Definition cell_value (page : Page) (v : Decimal) : Prop :=
  exists (t_idx : nat) (header : Row) (data_rows : list Row) (bbox : BBox)
         (row : Row) (col : nat) (cell : str),
    extract_tables page !! t_idx = Some (header :: data_rows)
    /\ header <> []
    /\ find_tables page !! t_idx = Some bbox
    /\ In row data_rows
    /\ has_first_cell row
    /\ row !! col = Some (Some cell)
    /\ token_value
         (effective_fallback (column_multipliers_of header) col
            (table_context_multiplier_of (get_page_level_multiplier page) bbox
                                         (extract_words page))
            (row_excluded row))
         cell v.

(** The value of a token of the text outside the table boxes, resolved
    with the multiplier 1. *)
Definition free_text_value (page : Page) (v : Decimal) : Prop :=
  token_value ONE (non_table_text page) v.

Definition page_value (page : Page) (v : Decimal) : Prop :=
  cell_value page v \/ free_text_value page v.

(** The lower edge of the header band, 15% of the page height down the
    page, and the test of the band: the word's top lies above that
    line. *)
#[warnings="-inexact-float"]
Definition header_band_line (page_height : float) : float :=
  PrimFloat.mul page_height 0.15%float.

Definition in_header_band (page_height : float) (word : Word) : bool :=
  PrimFloat.ltb (top word) (header_band_line page_height).

(** ** Sample documents *)

Definition a_word (t : string) (x0 top x1 bottom : float) : Word :=
  MkWord (py t) x0 top x1 bottom.

Definition a_row (cells : list string) : Row := map (fun c => Some (py c)) cells.

Open Scope string_scope.

(** A page headed "(in millions)" with a table whose "Growth Rate" row
    holds the cell "12.3%" (example 3 of the specification). *)
Definition page_growth_rate : Page :=
  MkPage 1000
    [ a_word "(in" 10 10 30 20; a_word "millions)" 35 10 80 20 ]
    [ [ a_row ["Item"; "Amount"]; a_row ["Growth Rate"; "12.3%"] ] ]
    [ (0, 500, 200, 600)%float ].

(** A table whose second column is headed in millions, with a row that
    the exclusion keywords flag. *)
Definition page_column_on_excluded_row : Page :=
  MkPage 1000 []
    [ [ a_row ["Item"; "Amount (millions)"]; a_row ["Growth rate"; "5000"] ] ]
    [ (0, 500, 200, 600)%float ].

(** A page headed "(in billions)" with the free text "$500 million" and a
    table elsewhere (example 4 of the specification). *)
Definition page_free_text : Page :=
  MkPage 1000
    [ a_word "(in" 10 10 30 20; a_word "billions)" 35 10 80 20;
      a_word "$500" 10 700 40 720; a_word "million" 45 700 90 720 ]
    [ [ a_row ["Item"; "Amount"] ] ]
    [ (0, 500, 200, 600)%float ].

(** A table with a data row whose first cell is missing. *)
Definition blank_first_cell_row : Row := [ None; Some (py "5000") ].

Definition page_blank_first_cell : Page :=
  MkPage 1000 []
    [ [ a_row ["Item"; "Amount"]; blank_first_cell_row ] ]
    [ (0, 500, 200, 600)%float ].

(** A table box, and a word that starts inside its horizontal extent,
    ends to the right of it, and lies just above it. *)
Definition narrow_box : BBox := (0, 100, 50, 200)%float.

Definition overhanging_word : Word := a_word "($millions)" 40 50 90 60.

(** A page headed "(in millions)" with the table cell "1,234.5"
    (example 1), a table whose column is headed "Amount (in thousands)"
    with the cell "45.2" (example 2), and a page with the values 100 and
    250000 in a table and 99 in free text (example 5). *)
Definition page_in_millions : Page :=
  MkPage 1000
    [ a_word "(in" 10 10 30 20; a_word "millions)" 35 10 80 20 ]
    [ [ a_row ["Item"; "Amount"]; a_row ["Revenue"; "1,234.5"] ] ]
    [ (0, 500, 200, 600)%float ].

Definition page_in_thousands : Page :=
  MkPage 1000 []
    [ [ a_row ["Item"; "Amount (in thousands)"]; a_row ["Revenue"; "45.2"] ] ]
    [ (0, 500, 200, 600)%float ].

Definition page_three_values : Page :=
  MkPage 1000
    [ a_word "99" 10 700 30 720 ]
    [ [ a_row ["Item"; "Amount"]; a_row ["Fees"; "100"]; a_row ["Sales"; "250000"] ] ]
    [ (0, 500, 200, 600)%float ].

(** A text with a number before a singular scale word and one before a
    plural, and its first token. *)
Definition two_numbers_text : str := py "7 Million and 5 millions".

Definition first_number_token : rmatch :=
  RMatch 0 (MState (rev (py "7 Million")) (py " and 5 millions")
                   [Some (py "7"); Some (py "Million")]).

(** A page without content, and a page whose only word is "0". *)
Definition page_blank : Page := MkPage 1000 [] [] [].

Definition page_zero : Page := MkPage 1000 [ a_word "0" 10 300 20 310 ] [] [].

(** A page whose table comes without a detected box. *)
Definition page_unboxed_table : Page :=
  MkPage 1000 []
    [ [ a_row ["Item"; "Amount"]; a_row ["Fees"; "700000"] ] ]
    [].

(** The only token of the text "0". *)
Definition first_zero_token : rmatch :=
  RMatch 0 (MState (py "0") [] [Some (py "0"); None]).

(** The second token of [two_numbers_text]: it begins with the space
    before the digit, and the plural that follows is left out of it. *)
Definition second_number_token : rmatch :=
  RMatch 13 (MState (rev (py "7 Million and 5 ")) (py "millions")
                    [Some (py " 5"); None]).

(** The word "million" written with the dotless i (U+0131), a text in
    which it follows a number, and the token of that text. *)
Definition dotless_million : str :=
  [ Latin "m"; U0131; Latin "l"; Latin "l"; U0131; Latin "o"; Latin "n" ].

Definition five_dotless_million : str := (py "5 " ++ dotless_million)%list.

Definition dotless_million_token : rmatch :=
  RMatch 0 (MState (rev five_dotless_million) []
                   [Some (py "5"); Some dotless_million]).

Close Scope string_scope.

(* ===================================================================== *)
(** * Part II.  Properties                                                *)
(* ===================================================================== *)

(** ** Characters and strings *)

Ltac by_char c := destruct c as [[[] [] [] [] [] [] [] []]| | | | |]; vm_compute; congruence.

Lemma char_eqb_eq (a b : char) : char_eqb a b = true <-> a = b.
Proof.
  unfold char_eqb. rewrite N.eqb_eq. split; [|congruence].
  destruct a as [a| | | | |], b as [b| | | | |]; cbn [code]; intros H;
    try reflexivity; try discriminate H;
    try (pose proof (N_ascii_bounded a); lia);
    try (pose proof (N_ascii_bounded b); lia).
  f_equal. rewrite <- (ascii_N_embedding a), <- (ascii_N_embedding b). congruence.
Qed.

Lemma digit_not_space (c : char) : is_digit c = true -> is_space c = false.
Proof. by_char c. Qed.

Lemma digit_not_symbol (c : char) :
  is_digit c = true ->
  c <> "$"%char /\ c <> ","%char /\ c <> "_"%char /\ c <> "."%char
  /\ c <> "-"%char /\ c <> "+"%char.
Proof.
  destruct c as [[[] [] [] [] [] [] [] []]| | | | |]; vm_compute; intros H;
    try discriminate H; repeat split; discriminate.
Qed.

Lemma space_not_symbol (c : char) :
  is_space c = true -> c <> "$"%char /\ c <> ","%char.
Proof.
  destruct c as [[[] [] [] [] [] [] [] []]| | | | |]; vm_compute; intros H;
    try discriminate H; repeat split; discriminate.
Qed.

Lemma word_not_space (c : char) : is_word c = true -> is_space c = false.
Proof. by_char c. Qed.

Lemma word_not_paren (c : char) :
  is_word c = true -> chr_match true ")"%char c = false.
Proof. by_char c. Qed.


Lemma fold_char_word (c : char) : is_word (fold_char c) = is_word c.
Proof. by_char c. Qed.

Lemma take_drop_while (f : char -> bool) (t : str) :
  take_while f t ++ drop_while f t = t.
Proof. induction t as [|c t IH]; simpl; [easy|]. destruct (f c); simpl; congruence. Qed.

Lemma take_while_all (f : char -> bool) (t : str) :
  forallb f (take_while f t) = true.
Proof. induction t as [|c t IH]; simpl; [easy|]. destruct (f c) eqn:E; simpl; [now rewrite E|easy]. Qed.

Lemma take_while_app (f : char -> bool) (u t : str) :
  forallb f u = true ->
  match t with [] => True | c :: _ => f c = false end ->
  take_while f (u ++ t) = u /\ drop_while f (u ++ t) = t.
Proof.
  intros Hu Ht. induction u as [|c u IH]; simpl in *.
  - destruct t as [|c t]; simpl; [easy|]. now rewrite Ht.
  - apply andb_true_iff in Hu as [-> Hu]. destruct (IH Hu) as [-> ->]. easy.
Qed.

(** ** The matcher *)

(** *** Continuations and fuel *)

Lemma rep_loop_ext body fuel lo hi st k1 k2 :
  (forall st k k', (forall x, k x = k' x) -> body st k = body st k') ->
  (forall x, k1 x = k2 x) ->
  rep_loop body fuel lo hi st k1 = rep_loop body fuel lo hi st k2.
Proof.
  intros Hb. revert lo hi st. induction fuel as [|fuel IH]; intros lo hi st Hk; simpl.
  - reflexivity.
  - rewrite (Hk st).
    erewrite (Hb st); [reflexivity|].
    intros x. simpl. destruct (shorter x st); [|reflexivity]. now apply IH.
Qed.

Lemma run_ext ic r st k1 k2 :
  (forall x, k1 x = k2 x) -> run ic r st k1 = run ic r st k2.
Proof.
  revert st k1 k2.
  induction r as [ |p|cl|r1 IH1 r2 IH2|r1 IH1 r2 IH2|lo hi r1 IH1|i r1 IH1| |r1 IH1];
    intros st k1 k2 Hk; cbn [run].
  - apply Hk.
  - destruct (advance st) as [[c st']|]; [|reflexivity].
    destruct (chr_match ic p c); [apply Hk|reflexivity].
  - destruct (advance st) as [[c st']|]; [|reflexivity].
    destruct (in_class cl c); [apply Hk|reflexivity].
  - apply IH1. intros x. now apply IH2.
  - rewrite (IH1 st k1 k2 Hk), (IH2 st k1 k2 Hk). reflexivity.
  - apply rep_loop_ext; [|exact Hk]. intros st0 k k' H. now apply IH1.
  - apply IH1. intros x. apply Hk.
  - destruct (at_boundary st); [apply Hk|reflexivity].
  - destruct (run ic r1 st Some); [apply Hk|reflexivity].
Qed.

(** The fuel of a repetition is never the reason it stops: any amount
    above the number of characters ahead gives the same result. *)
Lemma rep_loop_fuel ic r f1 f2 lo hi st k :
  (length (rest st) < f1)%nat -> (length (rest st) < f2)%nat ->
  rep_loop (run ic r) f1 lo hi st k = rep_loop (run ic r) f2 lo hi st k.
Proof.
  revert f2 lo hi st. induction f1 as [|f1 IH]; intros f2 lo hi st H1 H2; [lia|].
  destruct f2 as [|f2]; [lia|]. simpl.
  destruct (hi_exhausted hi); [reflexivity|].
  erewrite run_ext; [reflexivity|].
  intros x. simpl. unfold shorter. destruct (Nat.ltb_spec (length (rest x)) (length (rest st))); [|reflexivity].
  apply IH; lia.
Qed.

(** *** The matcher finds exactly what the pattern matches *)

Lemma rep_loop_sound ic r fuel :
  (forall st k m, run ic r st k = Some m ->
                  exists st1, matches ic r st st1 /\ k st1 = Some m) ->
  forall lo hi st k m,
    rep_loop (run ic r) fuel lo hi st k = Some m ->
    exists st1, matches ic (Rep lo hi r) st st1 /\ k st1 = Some m.
Proof.
  intros Hb. induction fuel as [|fuel IH]; intros lo hi st k m H; simpl in H; [discriminate|].
  assert (Hstop : match lo with O => k st | S _ => None end = Some m ->
                  exists st1, matches ic (Rep lo hi r) st st1 /\ k st1 = Some m).
  { destruct lo; [|discriminate]. intros Hk. exists st. split; [constructor|exact Hk]. }
  destruct (hi_exhausted hi) eqn:Hhi; [now apply Hstop|].
  destruct (run ic r st _) as [m'|] eqn:Hrun; [|now apply Hstop].
  injection H as ->.
  apply Hb in Hrun as (st1 & Hm1 & Hk1).
  destruct (shorter st1 st) eqn:Hsh; [|discriminate].
  apply IH in Hk1 as (st2 & Hm2 & Hk2).
  exists st2. split; [|exact Hk2]. eapply M_RepStep; eauto.
Qed.

Theorem run_sound ic r st k m :
  run ic r st k = Some m ->
  exists st1, matches ic r st st1 /\ k st1 = Some m.
Proof.
  revert st k m.
  induction r as [ |p|cl|r1 IH1 r2 IH2|r1 IH1 r2 IH2|lo hi r1 IH1|i r1 IH1| |r1 IH1];
    intros st k m H; cbn [run] in H.
  - exists st. split; [constructor|exact H].
  - destruct (advance st) as [[c st']|] eqn:Ha; [|discriminate].
    destruct (chr_match ic p c) eqn:Hc; [|discriminate].
    exists st'. split; [econstructor; eauto|exact H].
  - destruct (advance st) as [[c st']|] eqn:Ha; [|discriminate].
    destruct (in_class cl c) eqn:Hc; [|discriminate].
    exists st'. split; [econstructor; eauto|exact H].
  - apply IH1 in H as (st1 & Hm1 & H). apply IH2 in H as (st2 & Hm2 & H).
    exists st2. split; [econstructor; eauto|exact H].
  - destruct (run ic r1 st k) as [m'|] eqn:H1.
    + injection H as ->. apply IH1 in H1 as (st1 & Hm1 & H1).
      exists st1. split; [now apply M_AltL|exact H1].
    + apply IH2 in H as (st1 & Hm1 & H).
      exists st1. split; [now apply M_AltR|exact H].
  - eapply rep_loop_sound; eauto.
  - apply IH1 in H as (st1 & Hm1 & H).
    eexists. split; [apply M_Grp; exact Hm1|exact H].
  - destruct (at_boundary st) eqn:Hb; [|discriminate].
    exists st. split; [now constructor|exact H].
  - destruct (run ic r1 st Some) as [st1|] eqn:H1; [|discriminate].
    eexists. split; [apply M_Ahead; exact H1|exact H].
Qed.

Lemma rep_loop_complete ic r fuel :
  (forall st k, run ic r st k = None ->
                forall st1, matches ic r st st1 -> k st1 = None) ->
  forall lo hi st k,
    (length (rest st) < fuel)%nat ->
    rep_loop (run ic r) fuel lo hi st k = None ->
    forall st1, matches ic (Rep lo hi r) st st1 -> k st1 = None.
Proof.
  intros Hb. induction fuel as [|fuel IH]; intros lo hi st k Hf H st2 Hm; [lia|].
  simpl in H. inversion Hm; subst.
  - destruct (hi_exhausted hi); [exact H|].
    destruct (run ic r st2 _); [discriminate|exact H].
  - match goal with Hx : hi_exhausted hi = false |- _ => rewrite Hx in H end.
    destruct (run ic r st _) eqn:Hrun; [discriminate|].
    match goal with Hx : matches ic r st ?s |- _ =>
      pose proof (Hb _ _ Hrun _ Hx) as Hk; simpl in Hk end.
    match goal with Hx : shorter _ st = true |- _ =>
      rewrite Hx in Hk; unfold shorter in Hx; apply Nat.ltb_lt in Hx end.
    eapply IH; [|exact Hk|eassumption]. lia.
Qed.

Theorem run_complete ic r st k :
  run ic r st k = None ->
  forall st1, matches ic r st st1 -> k st1 = None.
Proof.
  revert st k.
  induction r as [ |p|cl|r1 IH1 r2 IH2|r1 IH1 r2 IH2|lo hi r1 IH1|i r1 IH1| |r1 IH1];
    intros st k H st1 Hm; cbn [run] in H; inversion Hm; subst.
  - exact H.
  - match goal with Ha : advance st = _, Hc : chr_match _ _ _ = _ |- _ =>
      rewrite Ha, Hc in H end. exact H.
  - match goal with Ha : advance st = _, Hc : in_class _ _ = _ |- _ =>
      rewrite Ha, Hc in H end. exact H.
  - eapply IH2; [|eassumption]. eapply (IH1 _ _ H). eassumption.
  - destruct (run ic r1 st k) eqn:H1; [discriminate|]. eapply IH1; eauto.
  - destruct (run ic r1 st k) eqn:H1; [discriminate|]. eapply IH2; eauto.
  - eapply rep_loop_complete; [exact IH1| |exact H|constructor]. lia.
  - eapply rep_loop_complete; [exact IH1| |exact H|eapply M_RepStep; eassumption]. lia.
  - eapply (IH1 _ _ H). eassumption.
  - match goal with Hb : at_boundary _ = true |- _ => rewrite Hb in H end. exact H.
  - match goal with Hr : run ic r1 st Some = _ |- _ => rewrite Hr in H end. exact H.
Qed.

(** *** Positions, consumed text and captures *)

Lemma span_refl st : span st st [].
Proof. split; reflexivity. Qed.

Lemma span_trans st st1 st2 u1 u2 :
  span st st1 u1 -> span st1 st2 u2 -> span st st2 (u1 ++ u2).
Proof.
  intros [Hs1 Hr1] [Hs2 Hr2]. split.
  - rewrite Hs2, Hs1, rev_app_distr, app_assoc. reflexivity.
  - rewrite Hr1, Hr2, app_assoc. reflexivity.
Qed.

Lemma span_advance st c st' : advance st = Some (c, st') -> span st st' [c] /\ caps st' = caps st.
Proof.
  unfold advance. destruct (rest st) as [|x t] eqn:E; [discriminate|].
  intros [= <- <-]. repeat split; simpl; assumption.
Qed.

Lemma span_consumed st st' u : span st st' u -> consumed st st' = u.
Proof.
  intros [Hs _]. unfold consumed. rewrite Hs, length_app, length_rev.
  replace (length u + length (seen st) - length (seen st))%nat with (length (rev u)) by (rewrite length_rev; lia).
  rewrite take_app_length. apply rev_involutive.
Qed.

Lemma span_text st st' u : span st st' u -> rev (seen st') ++ rest st' = rev (seen st) ++ rest st.
Proof.
  intros [Hs Hr]. rewrite Hs, Hr, rev_app_distr, rev_involutive, <- app_assoc. reflexivity.
Qed.


Lemma matches_span_lang ic r st st' :
  matches ic r st st' -> exists u, span st st' u /\ lang ic r u.
Proof.
  induction 1 as [st|p c st st' Ha Hc|cl c st st' Ha Hc
                 |r1 r2 st st1 st2 _ IH1 _ IH2|r1 r2 st st' _ IH|r1 r2 st st' _ IH
                 |hi r st|lo hi r st st1 st2 Hhi _ IH1 Hsh _ IH2
                 |i r st st1 _ IH|st Hb|r st st1 Hr].
  - exists []. split; [apply span_refl|reflexivity].
  - exists [c]. split; [now apply span_advance|]. simpl. eauto.
  - exists [c]. split; [now apply span_advance|]. simpl. eauto.
  - destruct IH1 as (u1 & Hs1 & Hl1), IH2 as (u2 & Hs2 & Hl2).
    exists (u1 ++ u2). split; [eapply span_trans; eauto|]. simpl. eauto.
  - destruct IH as (u & Hs & Hl). exists u. simpl. auto.
  - destruct IH as (u & Hs & Hl). exists u. simpl. auto.
  - exists []. split; [apply span_refl|]. simpl. exists [].
    repeat split; [constructor|lia|destruct hi; simpl; [lia|exact I]].
  - destruct IH1 as (u1 & Hs1 & Hl1), IH2 as (u2 & Hs2 & us & -> & Hall & Hlo & Hhi').
    exists (u1 ++ concat us). split; [eapply span_trans; eauto|].
    simpl. exists (u1 :: us). repeat split; [now constructor|simpl; lia|].
    destruct hi as [[|h]|]; simpl in *; [discriminate|lia|exact I].
  - destruct IH as (u & Hs & Hl). exists u. split; [exact Hs|exact Hl].
  - exists []. split; [apply span_refl|reflexivity].
  - exists []. split; [split; reflexivity|reflexivity].
Qed.

Lemma matches_groupless ic r :
  groupless r = true ->
  forall st st', matches ic r st st' -> caps st' = caps st.
Proof.
  induction r as [ |p|cl|r1 IH1 r2 IH2|r1 IH1 r2 IH2|lo hi r1 IH1|i r1 IH1| |r1 IH1];
    simpl; intros Hg st st' Hm.
  - inversion Hm; subst. reflexivity.
  - inversion Hm; subst. eapply span_advance; eassumption.
  - inversion Hm; subst. eapply span_advance; eassumption.
  - apply andb_true_iff in Hg as [Hg1 Hg2]. inversion Hm; subst.
    etransitivity; [eapply IH2|eapply IH1]; eassumption.
  - apply andb_true_iff in Hg as [Hg1 Hg2]. inversion Hm; subst; eauto.
  - remember (Rep lo hi r1) as r eqn:Er. revert lo hi Er.
    induction Hm; intros lo' hi' Er; try discriminate; injection Er as E1 E2 E3; subst.
    + reflexivity.
    + etransitivity; [eapply IHHm2; reflexivity|]. eapply IH1; eassumption.
  - discriminate.
  - inversion Hm; subst. reflexivity.
  - inversion Hm; subst. simpl.
    match goal with Hr : run ic r1 st Some = Some _ |- _ =>
      apply run_sound in Hr as (st2 & Hm2 & [= ->]) end.
    eapply IH1; eassumption.
Qed.

(** *** Searching *)

Lemma match_at_sound p behind ahead m :
  match_at p behind ahead = Some m ->
  m_start m = length behind /\
  matches (re_ignorecase p) (re_tree p) (start_state p behind ahead) (m_final m).
Proof.
  unfold match_at. destruct (run _ _ _ Some) as [st|] eqn:Hr; [|discriminate].
  intros [= <-]. apply run_sound in Hr as (st1 & Hm & [= ->]). split; [reflexivity|exact Hm].
Qed.

Lemma match_at_complete p behind ahead st' :
  match_at p behind ahead = None ->
  ~ matches (re_ignorecase p) (re_tree p) (start_state p behind ahead) st'.
Proof.
  unfold match_at. destruct (run _ _ _ Some) as [st|] eqn:Hr; [discriminate|].
  intros _ Hm. pose proof (run_complete _ _ _ _ Hr _ Hm). discriminate.
Qed.

(** [search_from] returns the match at the first position that has one. *)
Lemma search_from_first p behind ahead m :
  search_from p behind ahead = Some m ->
  exists skipped ahead',
    ahead = skipped ++ ahead' /\
    match_at p (rev skipped ++ behind) ahead' = Some m /\
    forall s1 s2, skipped = s1 ++ s2 -> s2 <> [] ->
                  match_at p (rev s1 ++ behind) (s2 ++ ahead') = None.
Proof.
  revert behind. induction ahead as [|c ahead IH]; intros behind; simpl.
  - destruct (match_at p behind []) eqn:E; [|discriminate].
    intros [= ->]. exists [], []. repeat split; [exact E|].
    intros s1 s2 Hs. symmetry in Hs. apply app_eq_nil in Hs as [_ ->]. congruence.
  - destruct (match_at p behind (c :: ahead)) eqn:E.
    + intros [= ->]. exists [], (c :: ahead). repeat split; [exact E|].
      intros s1 s2 Hs. symmetry in Hs. apply app_eq_nil in Hs as [_ ->]. congruence.
    + intros H. apply IH in H as (sk & a' & -> & Hm & Hfirst).
      exists (c :: sk), a'. split; [reflexivity|]. split.
      * simpl. rewrite <- app_assoc. exact Hm.
      * intros [|x s1] s2 Hs Hne; simpl in Hs.
        -- subst s2. simpl. exact E.
        -- injection Hs as <- ->. simpl. rewrite <- app_assoc. simpl.
           now apply Hfirst.
Qed.

Lemma search_from_none p behind ahead :
  search_from p behind ahead = None ->
  forall s1 s2, ahead = s1 ++ s2 -> match_at p (rev s1 ++ behind) s2 = None.
Proof.
  revert behind. induction ahead as [|c ahead IH]; intros behind; simpl.
  - destruct (match_at p behind []) eqn:E; [discriminate|].
    intros _ s1 s2 Hs. symmetry in Hs. apply app_eq_nil in Hs as [-> ->]. exact E.
  - destruct (match_at p behind (c :: ahead)) eqn:E; [discriminate|].
    intros H [|x s1] s2 Hs; simpl in Hs.
    + subst s2. exact E.
    + injection Hs as <- ->. simpl. rewrite <- app_assoc. simpl. now apply (IH _ H).
Qed.

(** Every match keeps the subject: what lies behind and ahead of its end
    is the text it was found in. *)
Lemma match_at_text p behind ahead m :
  match_at p behind ahead = Some m ->
  rev (seen (m_final m)) ++ rest (m_final m) = rev behind ++ ahead.
Proof.
  intros H. apply match_at_sound in H as [_ Hm].
  apply matches_span_lang in Hm as (u & Hs & _).
  apply span_text in Hs. exact Hs.
Qed.

Lemma search_from_text p behind ahead m :
  search_from p behind ahead = Some m ->
  rev (seen (m_final m)) ++ rest (m_final m) = rev behind ++ ahead.
Proof.
  intros H. apply search_from_first in H as (sk & a' & -> & Hm & _).
  apply match_at_text in Hm. rewrite Hm, rev_app_distr, rev_involutive, <- app_assoc.
  reflexivity.
Qed.

(** Every match [finditer] yields is a match of the pattern at some
    position of the text. *)
Lemma finditer_from_match p fuel behind ahead m :
  In m (finditer_from p fuel behind ahead) ->
  exists behind' ahead',
    rev behind' ++ ahead' = rev behind ++ ahead /\
    match_at p behind' ahead' = Some m.
Proof.
  revert behind ahead. induction fuel as [|fuel IH]; intros behind ahead; simpl; [easy|].
  destruct (search_from p behind ahead) as [m0|] eqn:Hs; [|easy].
  intros [<-|Hin].
  - apply search_from_first in Hs as (sk & a' & -> & Hm & _).
    exists (rev sk ++ behind), a'. split; [|exact Hm].
    rewrite rev_app_distr, rev_involutive, <- app_assoc. reflexivity.
  - apply IH in Hin as (b' & a' & Ht & Hm). exists b', a'. split; [|exact Hm].
    rewrite Ht. exact (search_from_text p _ _ _ Hs).
Qed.

(** [search] is leftmost: the pattern matches where the result begins and
    nowhere before. *)
Theorem search_is_leftmost p text m :
  search p text = Some m ->
  exists before after,
    text = before ++ after
    /\ m_start m = length before
    /\ matches (re_ignorecase p) (re_tree p)
               (start_state p (rev before) after) (m_final m)
    /\ forall s1 s2 st', before = s1 ++ s2 -> s2 <> [] ->
          ~ matches (re_ignorecase p) (re_tree p)
                    (start_state p (rev s1) (s2 ++ after)) st'.
Proof.
  intros (sk & a' & -> & Hm & Hfirst)%search_from_first.
  rewrite app_nil_r in Hm. exists sk, a'. split; [reflexivity|].
  destruct (match_at_sound _ _ _ _ Hm) as [Hs Hmt]. rewrite length_rev in Hs.
  split_and!; [exact Hs|exact Hmt|].
  intros s1 s2 st' E Hne. specialize (Hfirst s1 s2 E Hne). rewrite app_nil_r in Hfirst.
  now apply match_at_complete.
Qed.

Lemma finditer_match p text m :
  In m (finditer p text) ->
  exists behind ahead, rev behind ++ ahead = text /\ match_at p behind ahead = Some m.
Proof. intros H. apply finditer_from_match in H. exact H. Qed.

(** ** What the patterns of the program consume *)

Lemma chr_match_symbol (p c : char) :
  In p (map Latin ["$"; ","; "."; ")"; "("; " "]%char) -> chr_match true p c = true -> c = p.
Proof.
  simpl. intros [<-|[<-|[<-|[<-|[<-|[<-|[]]]]]]];
    destruct c as [[[] [] [] [] [] [] [] []]| | | | |]; vm_compute; congruence.
Qed.

Lemma lang_rep_cls ic lo hi cl u :
  lang ic (Rep lo hi (Cls cl)) u ->
  forallb (in_class cl) u = true /\ (lo <= length u)%nat
  /\ match hi with Some h => (length u <= h)%nat | None => True end.
Proof.
  simpl. intros (us & -> & Hall & Hlo & Hhi).
  assert (H : forallb (in_class cl) (concat us) = true /\ length (concat us) = length us).
  { clear Hlo Hhi. induction Hall as [|x us (c & -> & Hc) _ [IH1 IH2]]; simpl; [easy|].
    rewrite Hc, IH1, IH2. easy. }
  destruct H as [H1 H2]. rewrite H2. auto.
Qed.

Lemma lang_Lit (t u : str) : lang true (Lit t) u -> fold u = fold t.
Proof.
  revert u. induction t as [|p t IH]; intros u; simpl.
  - intros ->. reflexivity.
  - destruct t as [|q t].
    + simpl. intros (c & -> & Hc). simpl. unfold chr_match in Hc.
      apply char_eqb_eq in Hc. congruence.
    + intros (u1 & u2 & -> & (c & -> & Hc) & H2). apply IH in H2.
      unfold chr_match in Hc. apply char_eqb_eq in Hc.
      change (fold ([c] ++ u2)) with (fold_char c :: fold u2).
      rewrite H2, <- Hc. reflexivity.
Qed.

Lemma lang_opt ic r u : lang ic (Opt r) u -> u = [] \/ lang ic r u.
Proof.
  simpl. intros (us & -> & Hall & _ & Hhi).
  destruct us as [|x [|y us]]; simpl in *; [now left| |lia].
  right. rewrite app_nil_r. now inversion Hall.
Qed.

Lemma lang_digits_part u :
  lang true (Alt (Cat (Rep 1 (Some 3%nat) (Cls Digit))
                      (Star (Cat (Chr ",") (Rep 3 (Some 3%nat) (Cls Digit)))))
                 (Plus (Cls Digit))) u ->
  forallb digit_or_comma u = true /\ exists c t, u = c :: t /\ is_digit c = true.
Proof.
  assert (Hd : forall v, forallb is_digit v = true -> forallb digit_or_comma v = true).
  { induction v as [|c v IH]; simpl; [easy|]. intros [Hc Hv]%andb_true_iff.
    unfold digit_or_comma at 1. rewrite Hc, IH; easy. }
  cbn [lang]. intros [(u1 & u2 & -> & H1 & H2)|H].
  - apply (lang_rep_cls true 1 (Some 3%nat) Digit) in H1 as (Hu1 & Hlen & _). simpl in Hu1.
    split.
    + rewrite forallb_app, (Hd _ Hu1). simpl.
      destruct H2 as (us & -> & Hall & _). clear -Hall Hd.
      induction Hall as [|x us Hx _ IH]; simpl; [easy|].
      rewrite forallb_app, IH, andb_true_r.
      destruct Hx as (v1 & v2 & -> & (c & -> & Hc) & Hv2).
      apply (chr_match_symbol ","%char) in Hc; [subst c|simpl; tauto].
      apply lang_rep_cls in Hv2 as (Hv2 & _). simpl in Hv2.
      simpl. now apply Hd.
    + destruct u1 as [|c u1]; [simpl in Hlen; lia|]. simpl in Hu1.
      apply andb_true_iff in Hu1 as [Hc _]. exists c, (u1 ++ u2). easy.
  - apply (lang_rep_cls true 1 None Digit) in H as (Hu & Hlen & _). simpl in Hu. split; [now apply Hd|].
    destruct u as [|c u]; [simpl in Hlen; lia|]. simpl in Hu.
    apply andb_true_iff in Hu as [Hc _]. exists c, u. easy.
Qed.

Lemma lang_fraction u :
  lang true (Opt (Cat (Chr ".") (Plus (Cls Digit)))) u ->
  u = [] \/ exists fs, u = Latin "." :: fs /\ fs <> [] /\ forallb is_digit fs = true.
Proof.
  intros [->|(u1 & u2 & -> & (c & -> & Hc) & H2)]%lang_opt; [now left|right].
  apply (chr_match_symbol "."%char) in Hc; [subst c|simpl; tauto].
  apply (lang_rep_cls true 1 None Digit) in H2 as (Hu & Hlen & _). simpl in Hu.
  exists u2. repeat split; [|exact Hu]. intros ->. simpl in Hlen. lia.
Qed.

Lemma lang_number_literal lit :
  lang true NUMBER_LITERAL lit ->
  exists d sp body frac,
    lit = d ++ sp ++ body ++ frac
    /\ forallb (fun c => char_eqb c "$"%char) d = true
    /\ forallb is_space sp = true
    /\ forallb digit_or_comma body = true
    /\ (exists c t, body = c :: t /\ is_digit c = true)
    /\ (frac = [] \/ exists fs, frac = Latin "." :: fs /\ fs <> []
                                /\ forallb is_digit fs = true).
Proof.
  unfold NUMBER_LITERAL. intros (d & x1 & -> & Hd & sp & x2 & -> & Hsp & body & frac & -> & Hb & Hf).
  exists d, sp, body, frac. split; [reflexivity|].
  apply lang_digits_part in Hb as [Hb1 Hb2]. apply lang_fraction in Hf.
  apply (lang_rep_cls true 0 None Space) in Hsp as [Hsp _].
  repeat split; try assumption.
  destruct Hd as (us & -> & Hall & _). clear -Hall.
  induction Hall as [|x us (c & -> & Hc) _ IH]; simpl; [easy|].
  apply (chr_match_symbol "$"%char) in Hc; [subst c|simpl; tauto]. exact IH.
Qed.

(** ** Cleaning and parsing a literal *)

Lemma remove_char_app c a b : remove_char c (a ++ b) = remove_char c a ++ remove_char c b.
Proof.
  induction a as [|x a IH]; simpl; [easy|]. destruct (char_eqb x c); simpl; congruence.
Qed.

Lemma remove_char_cons c x t :
  remove_char c (x :: t) = if char_eqb x c then remove_char c t else x :: remove_char c t.
Proof. reflexivity. Qed.

Lemma remove_char_absent c t :
  forallb (fun x => negb (char_eqb x c)) t = true -> remove_char c t = t.
Proof.
  induction t as [|x t IH]; simpl; [easy|]. intros [Hx Ht]%andb_true_iff.
  apply negb_true_iff in Hx. rewrite Hx, IH; easy.
Qed.

Lemma remove_char_all c t :
  forallb (fun x => char_eqb x c) t = true -> remove_char c t = [].
Proof.
  induction t as [|x t IH]; simpl; [easy|]. intros [Hx Ht]%andb_true_iff.
  rewrite Hx. auto.
Qed.

Lemma forallb_impl {A} (f g : A -> bool) (l : list A) :
  (forall x, f x = true -> g x = true) -> forallb f l = true -> forallb g l = true.
Proof.
  intros H. induction l as [|x l IH]; simpl; [easy|].
  intros [Hx Hl]%andb_true_iff. rewrite (H _ Hx), IH; easy.
Qed.

Lemma lstrip_spaces sp t : forallb is_space sp = true -> lstrip (sp ++ t) = lstrip t.
Proof.
  induction sp as [|c sp IH]; simpl; [easy|]. intros [-> Hsp]%andb_true_iff. auto.
Qed.

Lemma lstrip_keep c t : is_space c = false -> lstrip (c :: t) = c :: t.
Proof. simpl. now intros ->. Qed.

Lemma rstrip_keep t c : is_space c = false -> rstrip (t ++ [c]) = t ++ [c].
Proof.
  intros H. unfold rstrip. rewrite rev_app_distr. simpl. rewrite H.
  change (c :: rev t) with (rev [c] ++ rev t). rewrite <- rev_app_distr. apply rev_involutive.
Qed.

Lemma plain_numeral_ends ds fs :
  ds <> [] -> forallb is_digit ds = true -> forallb is_digit fs = true ->
  (exists c t, plain_numeral ds fs = c :: t /\ is_digit c = true) /\
  (exists t c, plain_numeral ds fs = t ++ [c] /\ is_digit c = true).
Proof.
  intros Hne Hds Hfs. split.
  - destruct ds as [|c ds]; [easy|]. simpl in Hds. apply andb_true_iff in Hds as [Hc _].
    exists c, (ds ++ fraction_text fs). easy.
  - unfold plain_numeral, fraction_text. destruct fs as [|f fs].
    + rewrite app_nil_r. destruct (exists_last Hne) as (t & c & ->).
      exists t, c. split; [reflexivity|].
      rewrite forallb_app in Hds. simpl in Hds.
      apply andb_true_iff in Hds as [_ Hc]. now apply andb_true_iff in Hc as [Hc _].
    + assert (Hf : f :: fs <> []) by easy.
      destruct (exists_last Hf) as (t & c & E). rewrite E in *.
      exists (ds ++ Latin "." :: t), c. split; [now rewrite <- app_assoc|].
      rewrite forallb_app in Hfs. simpl in Hfs.
      apply andb_true_iff in Hfs as [_ Hc]. now apply andb_true_iff in Hc as [Hc _].
Qed.

Lemma strip_plain_numeral sp ds fs :
  forallb is_space sp = true ->
  ds <> [] -> forallb is_digit ds = true -> forallb is_digit fs = true ->
  strip (sp ++ plain_numeral ds fs) = plain_numeral ds fs.
Proof.
  intros Hsp Hne Hds Hfs.
  destruct (plain_numeral_ends ds fs Hne Hds Hfs) as [(c & t & E1 & Hc) (t' & c' & E2 & Hc')].
  unfold strip. rewrite (lstrip_spaces _ _ Hsp), E1, lstrip_keep by now apply digit_not_space.
  rewrite <- E1, E2. apply rstrip_keep. now apply digit_not_space.
Qed.

(** What cleaning leaves of a literal the number pattern has matched. *)
Lemma clean_literal lit :
  lang true NUMBER_LITERAL lit ->
  exists ds fs,
    ds <> [] /\ forallb is_digit ds = true /\ forallb is_digit fs = true
    /\ clean_number_string lit = plain_numeral ds fs.
Proof.
  intros (d & sp & body & frac & -> & Hd & Hsp & Hb & (c & t & -> & Hc) & Hf)%lang_number_literal.
  set (ds := remove_char ","%char (c :: t)).
  assert (Hds : forallb is_digit ds = true /\ ds <> []).
  { split.
    - subst ds. clear Hc. induction (c :: t) as [|x l IH]; [easy|].
      simpl in Hb. apply andb_true_iff in Hb as [Hx Hl]. rewrite remove_char_cons.
      unfold digit_or_comma in Hx. destruct (char_eqb x ","%char) eqn:E; [auto|].
      rewrite orb_false_r in Hx. simpl. rewrite Hx. auto.
    - subst ds. rewrite remove_char_cons.
      destruct (char_eqb c ","%char) eqn:E; [|easy].
      apply char_eqb_eq in E. now apply digit_not_symbol in Hc. }
  destruct Hds as [Hds Hne].
  assert (Hfrac : exists fs, forallb is_digit fs = true /\ frac = fraction_text fs).
  { destruct Hf as [->|(fs & -> & Hfs & Hall)]; [now exists []|].
    exists fs. split; [exact Hall|]. now destruct fs. }
  destruct Hfrac as (fs & Hfs & ->).
  exists ds, fs. repeat split; try assumption.
  unfold clean_number_string.
  assert (Hno_dollar : forall l, forallb digit_or_comma l = true ->
                                 remove_char "$"%char l = l).
  { intros l Hl. apply remove_char_absent. revert Hl. apply forallb_impl.
    intros x. unfold digit_or_comma. destruct x as [[[] [] [] [] [] [] [] []]| | | | |]; vm_compute; congruence. }
  assert (Hfr : forall k, remove_char k (fraction_text fs) = fraction_text fs
                          \/ ~ In k (map Latin ["$"; ","]%char)).
  { intros k. destruct (decide (In k (map Latin ["$"; ","]%char))) as [Hk|Hk]; [left|now right].
    apply remove_char_absent. destruct fs as [|f fs]; [easy|].
    apply (proj2 (andb_true_iff _ (forallb (fun x => negb (char_eqb x k)) (f :: fs)))).
    split.
    - simpl in Hk. destruct Hk as [<-|[<-|[]]]; reflexivity.
    - revert Hfs. apply forallb_impl. intros x Hx. apply negb_true_iff.
      destruct (char_eqb x k) eqn:E; [|easy]. apply char_eqb_eq in E. subst x.
      apply digit_not_symbol in Hx. simpl in Hk. intuition congruence. }
  assert (Hspk : forall k, In k (map Latin ["$"; ","]%char) -> remove_char k sp = sp).
  { intros k Hk. apply remove_char_absent. revert Hsp. apply forallb_impl.
    intros x Hx. apply negb_true_iff. destruct (char_eqb x k) eqn:E; [|easy].
    apply char_eqb_eq in E. subst x. apply space_not_symbol in Hx.
    simpl in Hk. intuition congruence. }
  rewrite !remove_char_app, (remove_char_all _ _ Hd), (Hno_dollar _ Hb).
  rewrite (Hspk "$"%char), (Hspk ","%char) by (simpl; tauto).
  destruct (Hfr "$"%char) as [->|Hx]; [|simpl in Hx; tauto].
  destruct (Hfr ","%char) as [->|Hx]; [|simpl in Hx; tauto].
  simpl. fold ds. now apply strip_plain_numeral.
Qed.

Lemma split_sign_digit c t : is_digit c = true -> split_sign (c :: t) = (false, c :: t).
Proof.
  destruct c as [[[] [] [] [] [] [] [] []]| | | | |]; intros H; vm_compute in H;
    try discriminate H; reflexivity.
Qed.

(** [Decimal] reads a plain numeral as the number it writes, exactly. *)
Lemma Decimal_of_plain_numeral ds fs :
  ds <> [] -> forallb is_digit ds = true -> forallb is_digit fs = true ->
  Decimal_of_str (plain_numeral ds fs)
  = Ok (Finite false (digits_value 0 (ds ++ fs)) (- Z.of_nat (length fs))).
Proof.
  intros Hne Hds Hfs. unfold Decimal_of_str.
  pose proof (strip_plain_numeral [] ds fs eq_refl Hne Hds Hfs) as Hstrip.
  simpl in Hstrip. rewrite Hstrip.
  assert (Hus : remove_char "_"%char (plain_numeral ds fs) = plain_numeral ds fs).
  { assert (Hd : forall l, forallb is_digit l = true -> remove_char "_"%char l = l).
    { intros l Hl. apply remove_char_absent. revert Hl. apply forallb_impl.
      intros x Hx. apply negb_true_iff. destruct (char_eqb x "_"%char) eqn:E; [|easy].
      apply char_eqb_eq in E. subst x. now apply digit_not_symbol in Hx. }
    unfold plain_numeral. rewrite remove_char_app, (Hd _ Hds). f_equal.
    destruct fs as [|f fs]; [reflexivity|]. unfold fraction_text.
    change (remove_char "_"%char (Latin "." :: f :: fs))
      with (Latin "." :: remove_char "_"%char (f :: fs)).
    now rewrite (Hd _ Hfs). }
  rewrite Hus.
  destruct (plain_numeral_ends ds fs Hne Hds Hfs) as [(c & t & E & Hc) _].
  rewrite E, (split_sign_digit _ _ Hc), <- E. unfold parse_number, plain_numeral.
  assert (Hdot : match fraction_text fs with [] => True | x :: _ => is_digit x = false end).
  { destruct fs; simpl; [exact I|reflexivity]. }
  destruct (take_while_app is_digit ds (fraction_text fs) Hds Hdot) as [-> ->].
  destruct fs as [|f fs].
  - simpl. rewrite app_nil_r. destruct ds; [easy|]. reflexivity.
  - cbn [fraction_text].
    pose proof (take_while_app is_digit (f :: fs) [] Hfs I) as [H1 H2].
    rewrite app_nil_r in H1, H2. rewrite H1, H2.
    destruct ds as [|d ds]; [easy|]. cbn [app parse_exponent]. reflexivity.
Qed.

(** Every literal the number pattern can consume cleans to a numeral
    that [Decimal] reads as a finite, non-negative number. *)
Lemma literal_parses lit :
  lang true NUMBER_LITERAL lit ->
  exists c e, Decimal_of_str (clean_number_string lit) = Ok (Finite false c e).
Proof.
  intros (ds & fs & Hne & Hds & Hfs & ->)%clean_literal.
  rewrite (Decimal_of_plain_numeral _ _ Hne Hds Hfs). eauto.
Qed.

Lemma literal_nonempty lit : lang true NUMBER_LITERAL lit -> lit <> [].
Proof.
  intros (d & sp & body & frac & -> & _ & _ & _ & (c & t & -> & _) & _)%lang_number_literal.
  destruct d, sp; discriminate.
Qed.

(** ** The shape of a number token *)

Lemma matches_Cat_inv ic r1 r2 st st2 :
  matches ic (Cat r1 r2) st st2 ->
  exists st1, matches ic r1 st st1 /\ matches ic r2 st1 st2.
Proof. inversion 1; subst; eauto. Qed.

Lemma matches_Grp_inv ic i r st st' :
  matches ic (Grp i r) st st' ->
  exists st1, matches ic r st st1 /\ st' = set_cap i (consumed st st1) st1.
Proof. inversion 1; subst; eauto. Qed.

Lemma matches_Opt_inv ic r st st' :
  matches ic (Opt r) st st' -> st' = st \/ matches ic r st st'.
Proof.
  unfold Opt. inversion 1 as [| | | | | | |lo hi r' s s1 s2 Hhi Hm Hsh Hrest| | |]; subst; [now left|right].
  simpl in Hrest. inversion Hrest; subst; [exact Hm|discriminate].
Qed.

Lemma matches_Ahead_Bnd_inv ic st st' :
  matches ic (Ahead Bnd) st st' ->
  at_boundary st = true /\ st' = MState (seen st) (rest st) (caps st).
Proof.
  inversion 1 as [| | | | | | | | | |r s s1 Hr]; subst. simpl in Hr.
  destruct (at_boundary st); [|discriminate]. injection Hr as <-. easy.
Qed.

Lemma matches_parts ic r st st' :
  groupless r = true -> matches ic r st st' ->
  exists u, span st st' u /\ lang ic r u /\ caps st' = caps st.
Proof.
  intros Hg Hm. destruct (matches_span_lang _ _ _ _ Hm) as (u & Hs & Hl).
  exists u. split_and!; try assumption. eapply matches_groupless; eassumption.
Qed.

Lemma at_boundary_ext a b :
  seen a = seen b -> rest a = rest b -> at_boundary a = at_boundary b.
Proof. unfold at_boundary. now intros -> ->. Qed.

Lemma number_match_shape behind ahead m :
  match_at NUMBER_RE behind ahead = Some m ->
  exists lit sp word tail mw,
    ahead = lit ++ sp ++ word ++ tail
    /\ lang true NUMBER_LITERAL lit
    /\ forallb is_space sp = true
    /\ groups m = [Some lit; mw]
    /\ ((mw = None /\ word = []) \/ (mw = Some word /\ lang true INLINE_WORD word))
    /\ m_start m = length behind
    /\ seen (m_final m) = rev (lit ++ sp ++ word) ++ behind
    /\ rest (m_final m) = tail
    /\ at_boundary (m_final m) = true.
Proof.
  intros [Hstart Hm]%match_at_sound. unfold groups. destruct m as [ms sf].
  cbn [m_start m_final] in *. unfold start_state in Hm.
  change (re_tree NUMBER_RE) with
    (Cat (Grp 1 NUMBER_LITERAL)
         (Cat (Star (Cls Space)) (Cat (Opt (Grp 2 INLINE_WORD)) (Ahead Bnd)))) in Hm.
  change (re_ignorecase NUMBER_RE) with true in Hm.
  change (replicate (re_ngroups NUMBER_RE) None) with [@None str; None] in Hm.
  apply matches_Cat_inv in Hm as (s1 & Hg1 & Hm).
  apply matches_Grp_inv in Hg1 as (s1' & Hlit & ->).
  apply matches_parts in Hlit as (lit & Hs1 & Hl1 & Hc1); [|reflexivity].
  rewrite (span_consumed _ _ _ Hs1) in Hm.
  apply matches_Cat_inv in Hm as (s2 & Hsp & Hm).
  apply matches_parts in Hsp as (sp & Hs2 & Hl2 & Hc2); [|reflexivity].
  apply (lang_rep_cls true 0 None Space) in Hl2 as [Hl2 _].
  change (in_class Space) with is_space in Hl2.
  apply matches_Cat_inv in Hm as (s3 & Hw & Hb).
  apply matches_Ahead_Bnd_inv in Hb as [Hb ->].
  change (at_boundary (MState (seen s3) (rest s3) (caps s3))) with (at_boundary s3).
  destruct Hs1 as [Hs1 Hr1], Hs2 as [Hs2 Hr2].
  unfold set_cap in *. cbn [seen rest caps] in *.
  apply matches_Opt_inv in Hw as [->|Hw].
  - exists lit, sp, [], (rest s2), None. cbn [seen rest caps].
    rewrite Hc2, Hc1, Hs2, Hs1, app_nil_r, rev_app_distr, <- app_assoc, Hr1, Hr2.
    split_and!; try assumption; try reflexivity; try (now left).
  - apply matches_Grp_inv in Hw as (s3' & Hw & ->).
    apply matches_parts in Hw as (word & Hs3 & Hl3 & Hc3); [|reflexivity].
    rewrite (span_consumed _ _ _ Hs3).
    change (at_boundary (set_cap 2 word s3')) with (at_boundary s3') in Hb.
    destruct Hs3 as [Hs3 Hr3].
    unfold set_cap in *. cbn [seen rest caps] in *.
    exists lit, sp, word, (rest s3'), (Some word).
    rewrite Hc3, Hc2, Hc1, Hs3, Hs2, Hs1, Hr1, Hr2, Hr3, !rev_app_distr, <- !app_assoc.
    split_and!; try assumption; try reflexivity; try (now right).
    rewrite <- Hb. apply at_boundary_ext; cbn [seen rest]; [now rewrite Hs3, Hs2, Hs1|reflexivity].
Qed.

(** ** The lexicon *)

Lemma MULTIPLIERS_finite key factor :
  dict_get MULTIPLIERS key = Some factor ->
  exists c, factor = Finite false c 0 /\ (1000 <= c)%N.
Proof.
  unfold MULTIPLIERS. cbn [dict_get].
  repeat (destruct (str_eqb _ key);
          [intros [= <-]; eexists; split; [reflexivity|lia]|]).
  discriminate.
Qed.

Lemma dict_get_nonempty key factor :
  dict_get MULTIPLIERS (lower key) = Some factor -> truthy (Some key) = true.
Proof. destruct key; [discriminate|reflexivity]. Qed.

Lemma inline_word_singular w :
  lang true INLINE_WORD w -> In (fold w) SINGULAR_WORDS.
Proof.
  unfold INLINE_WORD. cbn [lang]. unfold SINGULAR_WORDS.
  intros [H|[H|[H|H]]]; apply lang_Lit in H; rewrite H; simpl; tauto.
Qed.

(** ** Decimal arithmetic on finite numbers *)

Lemma fix_finite_cases sg c e :
  (exists c' e', fix_finite sg c e = Ok (Finite sg c' e'))
  \/ fix_finite sg c e = Raise Overflow.
Proof.
  unfold fix_finite. destruct (c =? 0)%N; [left; eauto|].
  destruct (_ >? Etop); [now right|].
  destruct (e <? _); [|left; eauto].
  destruct (ndigits _ >? prec); destruct (_ >? Etop); eauto.
Qed.

Lemma dec_mul_finite sa ca ea sb cb eb :
  (exists c e, dec_mul (Finite sa ca ea) (Finite sb cb eb) = Ok (Finite (xorb sa sb) c e))
  \/ dec_mul (Finite sa ca ea) (Finite sb cb eb) = Raise Overflow.
Proof. apply fix_finite_cases. Qed.

(* ===================================================================== *)
(** ** Value resolution                                                   *)
(* ===================================================================== *)

(** C1.  An inline scale word of the lexicon decides the result of
    [parse_value] alone: whatever the fallback multiplier, the result is
    the same, and for a literal that reads as a finite number it is that
    number times the factor of the word. *)
Theorem C1_inline_word_overrides_fallback
    (L W : str) (f1 f2 factor : Decimal) :
  dict_get MULTIPLIERS (lower W) = Some factor ->
  parse_value L (Some W) f1 = parse_value L (Some W) f2
  /\ forall sg c e,
       Decimal_of_str (clean_number_string L) = Ok (Finite sg c e) ->
       parse_value L (Some W) f1 = dec_mul (Finite sg c e) factor.
Proof.
  intros HW. pose proof (dict_get_nonempty _ _ HW) as Ht.
  assert (Htry : forall f, parse_value_try L (Some W) f
                           = (d ← Decimal_of_str (clean_number_string L); dec_mul d factor)).
  { intros f. unfold parse_value_try. rewrite Ht.
    change (default [] (Some W)) with W. rewrite HW. reflexivity. }
  split.
  - unfold parse_value. rewrite (Htry f1), (Htry f2). reflexivity.
  - intros sg c e Hd. unfold parse_value. rewrite (Htry f1), Hd. cbn [mbind result_bind].
    apply MULTIPLIERS_finite in HW as (k & -> & _).
    destruct (dec_mul_finite sg c e false k 0) as [(c' & e' & ->)| ->]; reflexivity.
Qed.

Lemma C1_witness :
  parse_value (py "$1,234.5") (Some (py "Million")) ONE
  = parse_value (py "$1,234.5") (Some (py "Million")) (Finite false 1000000000 0)
  /\ forall sg c e,
       Decimal_of_str (clean_number_string (py "$1,234.5")) = Ok (Finite sg c e) ->
       parse_value (py "$1,234.5") (Some (py "Million")) ONE
       = dec_mul (Finite sg c e) (Finite false 1000000 0).
Proof.
  apply (C1_inline_word_overrides_fallback
           (py "$1,234.5") (py "Million") ONE (Finite false 1000000000 0)
           (Finite false 1000000 0)).
  reflexivity.
Defined.

(* ===================================================================== *)
(** ** Number tokens                                                      *)
(* ===================================================================== *)

Lemma spaces_then_unique s1 s2 a b :
  forallb is_space s1 = true -> forallb is_space s2 = true ->
  match a with [] => True | c :: _ => is_space c = false end ->
  match b with [] => True | c :: _ => is_space c = false end ->
  s1 ++ a = s2 ++ b -> s1 = s2 /\ a = b.
Proof.
  intros H1 H2 Ha Hb E.
  destruct (take_while_app is_space s1 a H1 Ha) as [T1 D1].
  destruct (take_while_app is_space s2 b H2 Hb) as [T2 D2].
  rewrite E in T1, D1. split; congruence.
Qed.

Lemma fold_all_word w : forallb is_word (fold w) = true -> forallb is_word w = true.
Proof.
  induction w as [|c w IH]; simpl; [easy|]. rewrite fold_char_word.
  intros [-> Hw]%andb_true_iff. auto.
Qed.

Lemma scale_word_letters w :
  In (fold w) (SINGULAR_WORDS ++ PLURAL_WORDS) ->
  forallb is_word w = true /\ w <> [].
Proof.
  intros H. split.
  - apply fold_all_word. simpl in H.
    repeat (destruct H as [<-|H]; [reflexivity|]). destruct H.
  - intros ->. simpl in H. repeat (destruct H as [H|H]; [discriminate H|]). destruct H.
Qed.

Lemma word_head_not_space w :
  forallb is_word w = true ->
  match w with [] => True | c :: _ => is_space c = false end.
Proof.
  destruct w as [|c w]; [easy|]. simpl. intros [Hc _]%andb_true_iff.
  now apply word_not_space.
Qed.

(** After a word, a boundary means that no word character follows. *)
Lemma boundary_after_word st pre w behind :
  forallb is_word w = true -> w <> [] ->
  seen st = rev (pre ++ w) ++ behind ->
  at_boundary st = true -> word_ends_here (rest st).
Proof.
  intros Hw Hne Hs Hb.
  destruct (exists_last Hne) as (t & c & ->).
  rewrite forallb_app in Hw. apply andb_true_iff in Hw as [_ Hc]. simpl in Hc.
  apply andb_true_iff in Hc as [Hc _].
  unfold at_boundary in Hb. rewrite Hs, app_assoc, rev_app_distr in Hb. simpl in Hb.
  rewrite Hc in Hb. unfold word_ends_here. destruct (rest st) as [|x r]; [exact I|].
  now destruct (is_word x).
Qed.

(** A singular scale word followed by the end of a word cannot be the
    beginning of a plural scale word. *)
Lemma singular_is_not_plural w tl pl tail :
  In (fold w) SINGULAR_WORDS -> In (fold pl) PLURAL_WORDS ->
  word_ends_here tl ->
  w ++ tl = pl ++ tail -> False.
Proof.
  intros Hw Hpl Hend E.
  apply (f_equal fold) in E. unfold fold in E. rewrite !map_app in E.
  fold (fold w) (fold pl) (fold tl) (fold tail) in E.
  assert (Hs : exists c r, tl = c :: r /\ fold_char c = Latin "s").
  { simpl in Hw, Hpl.
    destruct Hw as [Hw|[Hw|[Hw|[Hw|[]]]]]; destruct Hpl as [Hp|[Hp|[Hp|[Hp|[]]]]];
      rewrite <- Hw, <- Hp in E; cbn in E; try discriminate E;
      injection E as E; destruct tl as [|c r]; try discriminate E;
      injection E as E _; eauto. }
  destruct Hs as (c & r & -> & Hc). simpl in Hend.
  rewrite <- fold_char_word, Hc in Hend. discriminate Hend.
Qed.

(** C9.  A number token carries an inline scale word only when the word
    that follows the literal (after optional white space) is exactly one
    of thousand, million, billion, trillion in the letters [re] compares
    under IGNORECASE (letter case aside, with U+0130 and U+0131 read as
    i and U+017F as s) and ends there; when a plural form follows the
    literal, the token carries no inline scale word. *)
Theorem C9_inline_word_is_singular_under_IGNORECASE (text : str) (m : rmatch) :
  In m (finditer NUMBER_RE text) -> inline_word_rule fold text m.
Proof.
  intros (behind & ahead & <- & Hm)%finditer_match.
  apply number_match_shape in Hm
    as (lit & sp & word & tl & mw & -> & Hlit & Hsp & Hg & Hmw & Hstart & Hseen & Hrest & Hb).
  exists lit, mw. split; [exact Hg|].
  assert (Hdrop : forall n x, drop (length behind + n) (rev behind ++ x) = drop n x).
  { intros n x. rewrite <- (length_rev behind). rewrite drop_app_add. reflexivity. }
  assert (Hsing : forall w, mw = Some w ->
            w = word /\ In (fold w) SINGULAR_WORDS /\ word_ends_here tl).
  { intros w ->. destruct Hmw as [[? _]|[[= ->] Hw]]; [discriminate|].
    apply inline_word_singular in Hw. split_and!; [reflexivity|exact Hw|].
    destruct (scale_word_letters word) as [Hall Hne]; [apply in_or_app; now left|].
    rewrite <- Hrest. rewrite (app_assoc lit sp word) in Hseen.
    exact (boundary_after_word _ _ _ _ Hall Hne Hseen Hb). }
  split.
  - intros w Hw. destruct (Hsing w Hw) as (-> & Hin & Hend).
    rewrite Hrest. split_and!; [exact Hin|exact Hend|].
    exists sp. split; [exact Hsp|]. rewrite Hstart.
    rewrite <- (Nat.add_0_r (length behind)), Hdrop. reflexivity.
  - intros sp' pl tail Hsp' Hpl Hd. destruct mw as [w|]; [exfalso|reflexivity].
    destruct (Hsing w eq_refl) as (-> & Hin & Hend).
    rewrite Hstart, Hdrop, drop_app_length in Hd.
    destruct (scale_word_letters word) as [Hw1 _]; [apply in_or_app; now left|].
    destruct (scale_word_letters pl) as [Hp1 Hp2]; [apply in_or_app; now right|].
    apply spaces_then_unique in Hd as [_ Hd]; try assumption.
    + eapply singular_is_not_plural; eauto.
    + destruct word as [|c w']; [|apply (word_head_not_space (c :: w') Hw1)].
      simpl. unfold word_ends_here in Hend. destruct tl as [|c r]; [exact I|].
      simpl in Hin. repeat (destruct Hin as [Hin|Hin]; [discriminate Hin|]). destruct Hin.
    + destruct pl as [|c p']; [easy|]. apply (word_head_not_space (c :: p') Hp1).
Qed.

(** Read with [str.lower], as the lexicon is, the rule fails: the number
    pattern captures "million" written with the dotless i, which
    IGNORECASE lets match, though its lower case is none of the four
    words; [parse_value] then finds no lexicon entry for the captured
    word and leaves the fallback in force. *)
Lemma C9_counterexample :
  In dotless_million_token (finditer NUMBER_RE five_dotless_million)
  /\ groups dotless_million_token = [Some (py "5"); Some dotless_million]
  /\ ~ In (lower dotless_million) SINGULAR_WORDS
  /\ ~ inline_word_rule lower five_dotless_million dotless_million_token
  /\ parse_value (py "5") (Some dotless_million) (Finite false 1000 0)
     = Ok (Finite false 5000 0).
Proof.
  assert (Hno : ~ In (lower dotless_million) SINGULAR_WORDS).
  { vm_compute. intros H. decompose [or] H; try discriminate; assumption. }
  split_and!.
  - vm_compute. left. reflexivity.
  - reflexivity.
  - exact Hno.
  - intros (lit & mw & Hg & Hw & _). injection Hg as _ <-.
    destruct (Hw dotless_million eq_refl) as [Hin _]. exact (Hno Hin).
  - vm_compute. reflexivity.
Qed.

(** A number token is never empty, so [finditer] moves on after each
    match and its fuel is never the reason it stops. *)
Lemma number_match_consumes behind ahead m :
  match_at NUMBER_RE behind ahead = Some m ->
  (length (rest (m_final m)) < length ahead)%nat.
Proof.
  intros (lit & sp & word & tl & mw & -> & Hlit & _ & _ & _ & _ & _ & -> & _)%number_match_shape.
  apply literal_nonempty in Hlit. destruct lit; [easy|].
  rewrite !length_app. simpl. lia.
Qed.

Lemma finditer_from_fuel p :
  (forall behind ahead m, match_at p behind ahead = Some m ->
                          (length (rest (m_final m)) < length ahead)%nat) ->
  forall f1 f2 behind ahead,
    (length ahead < f1)%nat -> (length ahead < f2)%nat ->
    finditer_from p f1 behind ahead = finditer_from p f2 behind ahead.
Proof.
  intros Hp. induction f1 as [|f1 IH]; intros f2 behind ahead H1 H2; [lia|].
  destruct f2 as [|f2]; [lia|]. simpl.
  destruct (search_from p behind ahead) as [m|] eqn:Hs; [|reflexivity].
  f_equal. apply search_from_first in Hs as (sk & a' & -> & Hm & _).
  apply Hp in Hm. rewrite length_app in H1, H2. apply IH; lia.
Qed.

Theorem finditer_NUMBER_RE_fuel (text : str) (fuel : nat) :
  (length text < fuel)%nat ->
  finditer_from NUMBER_RE fuel [] text = finditer NUMBER_RE text.
Proof.
  intros H. apply finditer_from_fuel; [apply number_match_consumes|exact H|lia].
Qed.

(** The numeric group of a token is always set and always reads as a
    finite, non-negative number. *)
Lemma token_literal_parses text m :
  In m (finditer NUMBER_RE text) ->
  exists lit mw c e,
    groups m = [Some lit; mw]
    /\ Decimal_of_str (clean_number_string lit) = Ok (Finite false c e).
Proof.
  intros (behind & ahead & <- & Hm)%finditer_match.
  apply number_match_shape in Hm
    as (lit & sp & word & tl & mw & -> & Hlit & _ & Hg & _).
  destruct (literal_parses _ Hlit) as (c & e & Hd). eauto 10.
Qed.

(** With a finite fallback multiplier the [try] of [parse_value] on a
    literal that reads as a finite number ends in a finite number or in
    Overflow. *)
Lemma parse_value_try_finite lit mw c e sg k x :
  Decimal_of_str (clean_number_string lit) = Ok (Finite false c e) ->
  (exists sg' c' e', parse_value_try lit mw (Finite sg k x) = Ok (Finite sg' c' e'))
  \/ parse_value_try lit mw (Finite sg k x) = Raise Overflow.
Proof.
  intros Hd. unfold parse_value_try. rewrite Hd. cbn [mbind result_bind].
  destruct (if truthy mw then _ else None) as [factor|] eqn:Hf.
  - assert (Hfin : exists kf, factor = Finite false kf 0).
    { destruct (truthy mw); [|discriminate].
      apply MULTIPLIERS_finite in Hf as (kf & -> & _). eauto. }
    destruct Hfin as (kf & ->).
    destruct (dec_mul_finite false c e false kf 0) as [(c' & e' & ->)| ->]; eauto.
  - destruct (dec_mul_finite false c e sg k x) as [(c' & e' & ->)| ->]; eauto.
Qed.

(** C10.  The numeric group of every match of the number pattern cleans
    to a string that [Decimal] reads as a finite number, so with the
    finite multipliers the scanner passes, the [try] of [parse_value]
    never ends in InvalidOperation or TypeError: the branch that returns
    zero is not taken. *)
Theorem C10_scanner_literals_parse (text : str) (m : rmatch) :
  In m (finditer NUMBER_RE text) ->
  exists lit mw c e,
    groups m = [Some lit; mw]
    /\ Decimal_of_str (clean_number_string lit) = Ok (Finite false c e)
    /\ forall sg k x,
         parse_value_try lit mw (Finite sg k x) <> Raise InvalidOperation
         /\ parse_value_try lit mw (Finite sg k x) <> Raise TypeError
         /\ parse_value lit mw (Finite sg k x) = parse_value_try lit mw (Finite sg k x).
Proof.
  intros (lit & mw & c & e & Hg & Hd)%token_literal_parses.
  exists lit, mw, c, e. split_and!; [exact Hg|exact Hd|].
  intros sg k x. unfold parse_value.
  destruct (parse_value_try_finite lit mw c e sg k x Hd) as [(sg' & c' & e' & ->)| ->];
    split_and!; congruence.
Qed.

(* ===================================================================== *)
(** ** The Context Matcher                                                *)
(* ===================================================================== *)

(** *** How the matcher runs literals and greedy character classes *)

Lemma run_Lit (t : str) (st : mstate) (k : mstate -> option mstate) :
  run true (Lit t) st k =
  match prefix_ci t (rest st) with
  | Some r => k (MState (rev (take (length t) (rest st)) ++ seen st) r (caps st))
  | None => None
  end.
Proof.
  revert st. induction t as [|p t IH]; intros [sn rs cp].
  - reflexivity.
  - destruct t as [|q t].
    + cbn [Lit run prefix_ci]. unfold advance. cbn [rest seen caps].
      destruct rs as [|c rs]; [reflexivity|].
      change (chr_match true p c) with (char_eqb (fold_char p) (fold_char c)).
      destruct (char_eqb _ _); reflexivity.
    + change (Lit (p :: q :: t)) with (Cat (Chr p) (Lit (q :: t))).
      cbn [run]. unfold advance. cbn [rest seen caps].
      destruct rs as [|c rs]; [reflexivity|].
      change (chr_match true p c) with (char_eqb (fold_char p) (fold_char c)).
      change (prefix_ci (p :: q :: t) (c :: rs))
        with (if char_eqb (fold_char p) (fold_char c)
              then prefix_ci (q :: t) rs else None).
      destruct (char_eqb (fold_char p) (fold_char c)); [|reflexivity].
      rewrite IH. cbn [rest seen caps].
      destruct (prefix_ci (q :: t) rs); [|reflexivity].
      f_equal. f_equal. change (length (p :: q :: t)) with (S (length (q :: t))).
      cbn [take rev]. rewrite <- app_assoc. reflexivity.
Qed.

Lemma rep_loop_step body fuel lo hi st k :
  rep_loop body (S fuel) lo hi st k =
  let stop := match lo with O => k st | S _ => None end in
  if hi_exhausted hi then stop
  else match body st (fun st' =>
                if shorter st' st
                then rep_loop body fuel (pred lo) (hi_pred hi) st' k
                else None) with
       | Some m => Some m
       | None => stop
       end.
Proof. reflexivity. Qed.

Lemma run_Plus ic r st k :
  run ic (Plus r) st k = rep_loop (run ic r) (S (length (rest st))) 1 None st k.
Proof. reflexivity. Qed.

Lemma run_Cls ic cl sn rs cp k :
  run ic (Cls cl) (MState sn rs cp) k =
  match rs with
  | c :: r => if in_class cl c then k (MState (c :: sn) r cp) else None
  | [] => None
  end.
Proof. destruct rs; reflexivity. Qed.

Lemma run_Chr ic p sn rs cp k :
  run ic (Chr p) (MState sn rs cp) k =
  match rs with
  | c :: r => if chr_match ic p c then k (MState (c :: sn) r cp) else None
  | [] => None
  end.
Proof. destruct rs; reflexivity. Qed.

(** A greedy class repetition hands the longest run to its continuation
    first: when the continuation accepts it, that is the result. *)
Lemma cls_loop_longest ic cl fuel lo sn rs cp k m :
  (length rs < fuel)%nat ->
  (lo <= length (take_while (in_class cl) rs))%nat ->
  k (MState (rev (take_while (in_class cl) rs) ++ sn) (drop_while (in_class cl) rs) cp)
    = Some m ->
  rep_loop (run ic (Cls cl)) fuel lo None (MState sn rs cp) k = Some m.
Proof.
  revert lo sn rs. induction fuel as [|fuel IH]; intros lo sn rs Hf Hlo Hk; [lia|].
  rewrite rep_loop_step, run_Cls. cbn [hi_exhausted hi_pred].
  destruct rs as [|c rs].
  - simpl in Hlo, Hk. destruct lo; [exact Hk|lia].
  - cbn [take_while drop_while] in Hlo, Hk.
    destruct (in_class cl c) eqn:Hc.
    + unfold shorter. cbn [rest length].
      rewrite (proj2 (Nat.ltb_lt _ _) (Nat.lt_succ_diag_r _)).
      rewrite (IH (pred lo) (c :: sn) rs); [reflexivity|simpl in Hf; lia|simpl in Hlo; lia|].
      cbn [rev] in Hk. rewrite <- app_assoc in Hk. exact Hk.
    + simpl in Hlo, Hk. destruct lo; [exact Hk|lia].
Qed.

(** It fails when the continuation refuses every run of at least [lo]
    characters. *)
Lemma cls_loop_none ic cl fuel lo sn rs cp k :
  (length rs < fuel)%nat ->
  (forall w1 w2, take_while (in_class cl) rs = w1 ++ w2 -> (lo <= length w1)%nat ->
                 k (MState (rev w1 ++ sn) (w2 ++ drop_while (in_class cl) rs) cp) = None) ->
  rep_loop (run ic (Cls cl)) fuel lo None (MState sn rs cp) k = None.
Proof.
  revert lo sn rs. induction fuel as [|fuel IH]; intros lo sn rs Hf Hk; [lia|].
  rewrite rep_loop_step, run_Cls. cbn [hi_exhausted hi_pred].
  assert (Hstop : match lo with O => k (MState sn rs cp) | S _ => None end = None).
  { destruct lo; [|reflexivity].
    specialize (Hk [] (take_while (in_class cl) rs) eq_refl (Nat.le_0_l _)).
    simpl in Hk. now rewrite take_drop_while in Hk. }
  destruct rs as [|c rs]; [exact Hstop|].
  destruct (in_class cl c) eqn:Hc; [|exact Hstop].
  unfold shorter. cbn [rest length].
  rewrite (proj2 (Nat.ltb_lt _ _) (Nat.lt_succ_diag_r _)).
  rewrite (IH (pred lo) (c :: sn) rs); [exact Hstop|simpl in Hf; lia|].
  intros w1 w2 Hw Hlo.
  specialize (Hk (c :: w1) w2). cbn [take_while drop_while] in Hk. rewrite Hc in Hk.
  cbn [rev] in Hk. rewrite <- app_assoc in Hk. apply Hk; [now rewrite Hw|simpl; lia].
Qed.

(** *** The three surface forms *)

Lemma consumed_run sn w r cp cp' :
  consumed (MState sn (w ++ r) cp) (MState (rev w ++ sn) r cp') = w.
Proof. apply span_consumed. split; reflexivity. Qed.

Lemma run_Cat ic r1 r2 st k :
  run ic (Cat r1 r2) st k = run ic r1 st (fun st1 => run ic r2 st1 k).
Proof. reflexivity. Qed.

Lemma run_Grp ic i r st k :
  run ic (Grp i r) st k = run ic r st (fun st1 => k (set_cap i (consumed st st1) st1)).
Proof. reflexivity. Qed.

(** [opening(\w+)\)] at a position: the word is the whole run of word
    characters and the closing parenthesis follows it. *)
Lemma run_closed_form opening i sn rs cp :
  match form_closed opening rs with
  | Some w =>
      exists stf,
        run true (Cat (Lit opening) (Cat (Grp i (Plus (Cls Wordc))) (Chr ")")))
            (MState sn rs cp) Some = Some stf
        /\ caps stf = <[pred i := Some w]> cp
  | None =>
      run true (Cat (Lit opening) (Cat (Grp i (Plus (Cls Wordc))) (Chr ")")))
          (MState sn rs cp) Some = None
  end.
Proof.
  unfold form_closed. rewrite run_Cat, run_Lit. cbn [rest seen caps].
  destruct (prefix_ci opening rs) as [r|]; [|reflexivity].
  rewrite run_Cat, run_Grp, run_Plus. cbn [rest].
  set (sn1 := rev (take (length opening) rs) ++ sn).
  pose proof (take_drop_while is_word r) as Hr.
  pose proof (take_while_all is_word r) as Hall.
  change (in_class Wordc) with is_word.
  assert (Hshort : forall w1 x w2 tl',
             take_while is_word r = w1 ++ x :: w2 ->
             run true (Chr ")")
               (set_cap i (consumed (MState sn1 r cp)
                                    (MState (rev w1 ++ sn1) ((x :: w2) ++ tl') cp))
                        (MState (rev w1 ++ sn1) ((x :: w2) ++ tl') cp)) Some = None).
  { intros w1 x w2 tl' E. unfold set_cap. cbn [seen rest caps app]. rewrite run_Chr.
    rewrite E, forallb_app in Hall. apply andb_true_iff in Hall as [_ Hx].
    cbn [forallb] in Hx. apply andb_true_iff in Hx as [Hx _].
    now rewrite (word_not_paren _ Hx). }
  destruct (take_while is_word r) as [|c w] eqn:Hw.
  - apply cls_loop_none; [lia|]. change (in_class Wordc) with is_word. rewrite Hw.
    intros [|x w1] w2 E Hlo; [simpl in Hlo; lia|discriminate E].
  - assert (Hcase : (exists tl, drop_while is_word r = Latin ")" :: tl) \/
                    (forall w1 w2, c :: w = w1 ++ w2 ->
                       run true (Chr ")")
                         (set_cap i (consumed (MState sn1 r cp)
                              (MState (rev w1 ++ sn1) (w2 ++ drop_while is_word r) cp))
                            (MState (rev w1 ++ sn1) (w2 ++ drop_while is_word r) cp)) Some
                       = None)).
    { destruct (drop_while is_word r) as [|d tl] eqn:Hd.
      - right. intros w1 [|x w2] E; [|now apply Hshort].
        unfold set_cap. cbn [seen rest caps app]. now rewrite run_Chr.
      - destruct (chr_match true ")"%char d) eqn:Hcm.
        + left. apply (chr_match_symbol ")"%char) in Hcm; [subst d|simpl; tauto]. eauto.
        + right. intros w1 [|x w2] E; [|now apply Hshort].
          unfold set_cap. cbn [seen rest caps app]. rewrite run_Chr. now rewrite Hcm. }
    destruct Hcase as [(tl & Hd)|Hnone].
    + rewrite Hd. eexists. split.
      * apply cls_loop_longest; [lia| |].
        -- change (in_class Wordc) with is_word. rewrite Hw. simpl. lia.
        -- change (in_class Wordc) with is_word. rewrite Hw, Hd.
           unfold set_cap. cbn [seen rest caps]. rewrite run_Chr. reflexivity.
      * cbn [caps]. rewrite <- Hr, Hd. rewrite consumed_run. reflexivity.
    + assert (Hloop : rep_loop (run true (Cls Wordc)) (S (length r)) 1 None
                        (MState sn1 r cp)
                        (fun st1 => run true (Chr ")")
                                      (set_cap i (consumed (MState sn1 r cp) st1) st1) Some)
                      = None).
      { apply cls_loop_none; [lia|]. change (in_class Wordc) with is_word. rewrite Hw.
        intros w1 w2 E _. now apply Hnone. }
      destruct (drop_while is_word r) as [|d tl] eqn:Hd; [exact Hloop|].
      destruct (char_eqb d ")"%char) eqn:Hdc.
      * apply char_eqb_eq in Hdc. subst d. exfalso.
        specialize (Hnone (c :: w) [] (eq_sym (app_nil_r _))).
        unfold set_cap in Hnone. cbn [seen rest caps app] in Hnone.
        rewrite run_Chr in Hnone. discriminate Hnone.
      * destruct d as [[[] [] [] [] [] [] [] []]| | | | |]; try exact Hloop; discriminate Hdc.
Qed.

(** [opening(\w+)] at a position: the word is the whole run of word
    characters. *)
Lemma run_open_form opening i sn rs cp :
  match form_open opening rs with
  | Some w =>
      exists stf,
        run true (Cat (Lit opening) (Grp i (Plus (Cls Wordc))))
            (MState sn rs cp) Some = Some stf
        /\ caps stf = <[pred i := Some w]> cp
  | None =>
      run true (Cat (Lit opening) (Grp i (Plus (Cls Wordc))))
          (MState sn rs cp) Some = None
  end.
Proof.
  unfold form_open. rewrite run_Cat, run_Lit. cbn [rest seen caps].
  destruct (prefix_ci opening rs) as [r|]; [|reflexivity].
  rewrite run_Grp, run_Plus. cbn [rest].
  pose proof (take_drop_while is_word r) as Hr.
  destruct (take_while is_word r) as [|c w] eqn:Hw.
  - apply cls_loop_none; [lia|]. change (in_class Wordc) with is_word. rewrite Hw.
    intros [|x w1] w2 E Hlo; [simpl in Hlo; lia|discriminate E].
  - eexists. split.
    + apply cls_loop_longest; [lia| |].
      * change (in_class Wordc) with is_word. rewrite Hw. simpl. lia.
      * change (in_class Wordc) with is_word. rewrite Hw. reflexivity.
    + unfold set_cap. cbn [caps]. rewrite <- Hr at 1. rewrite consumed_run. reflexivity.
Qed.

Lemma run_Alt ic r1 r2 st k :
  run ic (Alt r1 r2) st k =
  match run ic r1 st k with
  | Some m => Some m
  | None => run ic r2 st k
  end.
Proof. reflexivity. Qed.

Lemma form_closed_nonempty opening t w : form_closed opening t = Some w -> w <> [].
Proof.
  unfold form_closed. destruct (prefix_ci opening t) as [r|]; [|discriminate].
  destruct (take_while is_word r) as [|c w']; [discriminate|].
  destruct (drop_while is_word r) as [|d tl]; [discriminate|].
  destruct d as [[[] [] [] [] [] [] [] []]| | | | |]; try discriminate. now intros [= <-].
Qed.

Lemma form_open_nonempty opening t w : form_open opening t = Some w -> w <> [].
Proof.
  unfold form_open. destruct (prefix_ci opening t) as [r|]; [|discriminate].
  destruct (take_while is_word r) as [|c w']; [discriminate|]. now intros [= <-].
Qed.

(** At any position the context pattern matches exactly when one of the
    three surface forms begins there, and it captures the form's word
    in one of its three groups. *)
Lemma context_match_at behind ahead :
  match surface_form ahead with
  | Some w =>
      w <> [] /\
      exists m i, match_at CONTEXT_MULTIPLIER_RE behind ahead = Some m
                  /\ (i < 3)%nat
                  /\ groups m = <[i := Some w]> [None; None; None]
  | None => match_at CONTEXT_MULTIPLIER_RE behind ahead = None
  end.
Proof.
  unfold surface_form, match_at, groups.
  change (re_ignorecase CONTEXT_MULTIPLIER_RE) with true.
  change (replicate (re_ngroups CONTEXT_MULTIPLIER_RE) None) with [@None str; None; None].
  change (re_tree CONTEXT_MULTIPLIER_RE) with
    (Alt (Cat (Lit (py "(in ")) (Cat (Grp 1 (Plus (Cls Wordc))) (Chr ")")))
    (Alt (Cat (Lit (py "($")) (Cat (Grp 2 (Plus (Cls Wordc))) (Chr ")")))
         (Cat (Lit (py "dollars in ")) (Grp 3 (Plus (Cls Wordc)))))).
  rewrite !run_Alt.
  pose proof (run_closed_form (py "(in ") 1 behind ahead [None; None; None]) as H1.
  destruct (form_closed (py "(in ") ahead) as [w|] eqn:E1.
  { destruct H1 as (stf & -> & Hc). split; [eapply form_closed_nonempty; eauto|].
    exists (RMatch (length behind) stf), 0%nat. split_and!; [reflexivity|lia|exact Hc]. }
  rewrite H1. clear H1.
  pose proof (run_closed_form (py "($") 2 behind ahead [None; None; None]) as H2.
  destruct (form_closed (py "($") ahead) as [w|] eqn:E2.
  { destruct H2 as (stf & -> & Hc). split; [eapply form_closed_nonempty; eauto|].
    exists (RMatch (length behind) stf), 1%nat. split_and!; [reflexivity|lia|exact Hc]. }
  rewrite H2. clear H2.
  pose proof (run_open_form (py "dollars in ") 3 behind ahead [None; None; None]) as H3.
  destruct (form_open (py "dollars in ") ahead) as [w|] eqn:E3.
  { destruct H3 as (stf & -> & Hc). split; [eapply form_open_nonempty; eauto|].
    exists (RMatch (length behind) stf), 2%nat. split_and!; [reflexivity|lia|exact Hc]. }
  rewrite H3. reflexivity.
Qed.

Lemma captured_word gs i w :
  (i < 3)%nat -> w <> [] -> gs = <[i := Some w]> [None; None; None] ->
  first_truthy gs = Some w /\ first_not_none gs = Some w.
Proof.
  intros Hi Hw ->. destruct w as [|c w]; [easy|].
  destruct i as [|[|[|i]]]; [| | |lia]; split; reflexivity.
Qed.

(** Searching a text with the context pattern finds the word of the first
    surface form met from the left. *)
Lemma search_context behind ahead :
  match first_surface_form ahead with
  | Some w =>
      w <> [] /\
      exists m, search_from CONTEXT_MULTIPLIER_RE behind ahead = Some m
                /\ first_truthy (groups m) = Some w
                /\ first_not_none (groups m) = Some w
  | None => search_from CONTEXT_MULTIPLIER_RE behind ahead = None
  end.
Proof.
  revert behind. induction ahead as [|c ahead IH]; intros behind;
    cbn [first_surface_form search_from];
    pose proof (context_match_at behind) as H.
  - specialize (H []). destruct (surface_form []) as [w|].
    + destruct H as (Hw & m & i & -> & Hi & Hg). split; [exact Hw|].
      exists m. split; [reflexivity|]. eapply captured_word; eauto.
    + now rewrite H.
  - specialize (H (c :: ahead)). destruct (surface_form (c :: ahead)) as [w|].
    + destruct H as (Hw & m & i & -> & Hi & Hg). split; [exact Hw|].
      exists m. split; [reflexivity|]. eapply captured_word; eauto.
    + rewrite H. apply IH.
Qed.

Lemma asserted_multiplier_word (w : str) :
  w <> [] -> asserted_multiplier (Some w) = lexicon_factor (Some w).
Proof. destruct w; [easy|reflexivity]. Qed.



(* ===================================================================== *)
(** ** The running maximum                                                *)
(* ===================================================================== *)

(** *** Comparison of decimals is an order *)


Lemma dec_compare_self a b c : dec_compare a b = Some c -> dec_compare a a = Some Eq.
Proof.
  destruct a as [sa ca ea|[]|], b as [sb cb eb|[]|]; simpl; try congruence;
    intros _; f_equal; apply Qeq_alt; reflexivity.
Qed.

Lemma dec_gt_trans a b c :
  dec_compare a b = Some Gt -> dec_compare b c = Some Gt -> dec_compare a c = Some Gt.
Proof.
  destruct a as [sa ca ea|[]|], b as [sb cb eb|[]|], c as [sc cc ec|[]|];
    simpl; try congruence.
  intros [= H1] [= H2]. f_equal.
  apply Qgt_alt in H1, H2. apply Qgt_alt. eapply Qlt_trans; eassumption.
Qed.

Lemma dec_le_lt_trans v a b :
  dec_le v a -> dec_compare b a = Some Gt -> dec_compare v b = Some Lt.
Proof.
  unfold dec_le.
  destruct v as [sv cv ev|[]|], a as [sa ca ea|[]|], b as [sb cb eb|[]|];
    simpl; try congruence; try (intros [|]; congruence).
  intros H [= H2]. f_equal. apply Qgt_alt in H2. apply Qlt_alt.
  destruct H as [[= H]|[= H]].
  - apply Qlt_alt in H. eapply Qlt_trans; eassumption.
  - apply Qeq_alt in H. now rewrite H.
Qed.

Lemma dec_le_advances st st' v :
  dec_le v (max_value st) -> advances st st' -> dec_le v (max_value st').
Proof.
  intros Hv [->|Hgt]; [exact Hv|]. left. eapply dec_le_lt_trans; eassumption.
Qed.

#[global] Instance advances_refl : Reflexive advances.
Proof. intros st. now left. Qed.

#[global] Instance advances_trans : Transitive advances.
Proof.
  intros a b c [->|H1] [->|H2]; try (now left); try (now right).
  right. eapply dec_gt_trans; eassumption.
Qed.

(** *** One comparison *)

Lemma update_max_cases page_num st value st' :
  update_max page_num st value = Ok st' ->
  (st' = ScanState value page_num /\ dec_compare value (max_value st) = Some Gt)
  \/ (st' = st /\ dec_le value (max_value st)).
Proof.
  unfold update_max, dec_gt, dec_le.
  destruct (dec_compare value (max_value st)) as [[]|]; cbn; intros [= <-]; auto.
Qed.

Lemma update_max_advances page_num st value st' :
  update_max page_num st value = Ok st' -> advances st st'.
Proof.
  intros [[-> H]|[-> _]]%update_max_cases; [right; exact H|now left].
Qed.

Lemma update_max_covers page_num st value st' :
  update_max page_num st value = Ok st' -> dec_le value (max_value st').
Proof.
  intros [[-> H]|[-> H]]%update_max_cases; [|exact H].
  right. cbn. eapply dec_compare_self; eassumption.
Qed.

(** *** Loops *)

Lemma for_each_preserves {A S : Type} (R : S -> S -> Prop)
    `{!Reflexive R, !Transitive R} (body : S -> A -> result S) (xs : list A) :
  (forall st x st', In x xs -> body st x = Ok st' -> R st st') ->
  forall st st', for_each xs body st = Ok st' -> R st st'.
Proof.
  induction xs as [|x xs IH]; intros Hb st st'; simpl.
  - intros [= <-]. reflexivity.
  - destruct (body st x) as [st1|e] eqn:E; cbn; [|discriminate].
    intros H. transitivity st1.
    + eapply Hb; [now left|exact E].
    + apply IH; [|exact H]. intros s y s' Hy. apply Hb. now right.
Qed.

(** What one turn of a loop establishes about its element, and later
    turns keep, holds of every element when the loop is over. *)
Lemma for_each_covers {A S : Type} (R : S -> S -> Prop) (P : A -> S -> Prop)
    (body : S -> A -> result S) (xs : list A) :
  (forall st x st', In x xs -> body st x = Ok st' -> R st st' /\ P x st') ->
  (forall x st st', P x st -> R st st' -> P x st') ->
  forall st st', for_each xs body st = Ok st' -> forall x, In x xs -> P x st'.
Proof.
  intros Hb Hkeep. induction xs as [|y xs IH]; intros st st' H x Hx; [destruct Hx|].
  simpl in H. destruct (body st y) as [st1|e] eqn:E; cbn in H; [|discriminate].
  destruct Hx as [<-|Hx].
  - destruct (Hb _ _ _ (or_introl eq_refl) E) as [_ HP].
    clear IH E. revert st1 HP H. induction xs as [|z xs IH]; intros st1 HP; simpl.
    + now intros [= <-].
    + destruct (body st1 z) as [st2|e] eqn:E; cbn; [|discriminate].
      intros H. eapply IH; [| |exact H].
      * intros s x s' Hin. apply Hb. destruct Hin as [<-|Hin]; [now left|right; now right].
      * eapply Hkeep; [exact HP|]. eapply Hb; [right; now left|exact E].
  - eapply IH; [|exact H|exact Hx]. intros s z s' Hz. apply Hb. now right.
Qed.

Lemma In_enumerate {A : Type} (xs : list A) (i : nat) (x : A) :
  In (i, x) (enumerate xs) <-> xs !! i = Some x.
Proof.
  unfold enumerate. rewrite <- list_elem_of_In, elem_of_lookup_imap. split.
  - intros (j & y & [= -> ->] & H). exact H.
  - intros H. eauto.
Qed.

(** *** The scanner only moves the maximum upwards *)

Lemma process_match_advances page_num resolve st m st' :
  process_match page_num resolve st m = Ok st' -> advances st st'.
Proof.
  unfold process_match. destruct (groups m) as [|[lit|] [|mw [|? ?]]]; try discriminate.
  destruct (resolve lit mw) as [v|e]; cbn; [|discriminate]. apply update_max_advances.
Qed.

Lemma matches_advance page_num resolve ms st st' :
  for_each ms (process_match page_num resolve) st = Ok st' -> advances st st'.
Proof.
  apply (for_each_preserves advances). intros s m s' _. apply process_match_advances.
Qed.

Lemma process_cell_advances page_num cm tcm excl st ic st' :
  process_cell page_num cm tcm excl st ic = Ok st' -> advances st st'.
Proof.
  unfold process_cell. destruct ic as [col cell]. destruct (truthy cell).
  - apply matches_advance.
  - intros [= <-]. reflexivity.
Qed.

Lemma process_row_advances page_num cm tcm st row st' :
  process_row page_num cm tcm st row = Ok st' -> advances st st'.
Proof.
  unfold process_row. destruct row as [|[[|c first]|] cells]; try (intros [= <-]; reflexivity).
  apply (for_each_preserves advances). intros s x s' _. apply process_cell_advances.
Qed.

Lemma process_table_advances page page_num pcm st it st' :
  process_table page page_num pcm st it = Ok st' -> advances st st'.
Proof.
  unfold process_table. destruct it as [t_idx [|[|h header] rows]]; try (intros [= <-]; reflexivity).
  destruct (find_tables page !! t_idx); [|discriminate].
  apply (for_each_preserves advances). intros s x s' _. apply process_row_advances.
Qed.

Lemma process_non_table_advances page page_num st st' :
  process_non_table page page_num st = Ok st' -> advances st st'.
Proof.
  unfold process_non_table. destruct (non_table_text page).
  - intros [= <-]. reflexivity.
  - apply matches_advance.
Qed.

Lemma process_page_advances st ip st' :
  process_page st ip = Ok st' -> advances st st'.
Proof.
  unfold process_page. destruct ip as [i page].
  destruct (for_each (enumerate (extract_tables page)) _ st) as [st1|e] eqn:E; cbn; [|discriminate].
  intros H. transitivity st1.
  - revert E. apply (for_each_preserves advances). intros s x s' _. apply process_table_advances.
  - eapply process_non_table_advances; eassumption.
Qed.

Lemma for_each_app {A S : Type} (xs ys : list A) (body : S -> A -> result S) (st : S) :
  for_each (xs ++ ys) body st = (st' ← for_each xs body st; for_each ys body st').
Proof.
  revert st. induction xs as [|x xs IH]; intros st; simpl; [reflexivity|].
  destruct (body st x); cbn; [apply IH|reflexivity].
Qed.

(** The running maximum after one more page is the result of processing
    that page from the running maximum before it. *)
Lemma scan_pages_snoc pages page :
  scan_pages (pages ++ [page]) =
  (st ← scan_pages pages; process_page st (length pages, page)).
Proof.
  unfold scan_pages, enumerate. rewrite imap_app, for_each_app.
  destruct (for_each _ process_page initial_state) as [st|e]; [|reflexivity].
  cbn [imap for_each mbind result_bind compose]. rewrite Nat.add_0_r.
  now destruct (process_page st (length pages, page)).
Qed.

(** C8.  The running maximum changes only by a comparison that finds the
    new value strictly greater; a value equal to the maximum leaves value
    and page as they were; so across every page the maximum either stays
    or grows. *)
Theorem C8_running_maximum_monotone :
  (forall page_num st value st',
      update_max page_num st value = Ok st' ->
      (st' = ScanState value page_num /\ dec_compare value (max_value st) = Some Gt)
      \/ (st' = st /\ dec_le value (max_value st)))
  /\ (forall page_num st value st',
        update_max page_num st value = Ok st' ->
        dec_compare value (max_value st) = Some Eq -> st' = st)
  /\ (forall st ip st', process_page st ip = Ok st' -> advances st st')
  /\ (forall pages page st st',
        scan_pages pages = Ok st -> scan_pages (pages ++ [page]) = Ok st' ->
        st' = st \/ dec_compare (max_value st') (max_value st) = Some Gt).
Proof.
  split_and!.
  - apply update_max_cases.
  - intros page_num st value st' [[_ H]|[-> _]]%update_max_cases Heq; [congruence|reflexivity].
  - apply process_page_advances.
  - intros pages page st st' H. rewrite scan_pages_snoc, H.
    apply (process_page_advances st (length pages, page)).
Qed.

(* ===================================================================== *)
(** ** Multipliers in tables and in free text                             *)
(* ===================================================================== *)

Lemma for_each_ext {A S : Type} (xs : list A) (f g : S -> A -> result S) (st : S) :
  (forall s x, f s x = g s x) -> for_each xs f st = for_each xs g st.
Proof.
  intros H. revert st. induction xs as [|x xs IH]; intros st; simpl; [reflexivity|].
  rewrite H. destruct (g st x); cbn; [apply IH|reflexivity].
Qed.

Lemma process_match_ext page_num f g st m :
  (forall n w, f n w = g n w) ->
  process_match page_num f st m = process_match page_num g st m.
Proof.
  intros H. unfold process_match.
  destruct (groups m) as [|[lit|] [|mw [|? ?]]]; try reflexivity. now rewrite H.
Qed.

Lemma context_mult_of_spec cm col tcm excl :
  context_mult_of cm col tcm excl = effective_fallback cm col tcm excl.
Proof.
  unfold context_mult_of, effective_fallback.
  destruct (cm !! col); destruct excl; reflexivity.
Qed.

Lemma finditer_NUMBER_RE_nil : finditer NUMBER_RE [] = [].
Proof. vm_compute. reflexivity. Qed.

(** C2.  The fallback multiplier handed to [parse_value] for a table
    cell is the column's multiplier when the header row gave the column
    one, also on an excluded row; without one it is 1 on an excluded row
    and the table scale otherwise. *)
Theorem C2_cell_fallback_precedence :
  (forall page_num cm tcm excl st col cell,
      process_cell page_num cm tcm excl st (col, Some cell) =
      for_each (finditer NUMBER_RE cell)
        (process_match page_num
           (fun num_str multiplier_word =>
              parse_value num_str multiplier_word
                          (effective_fallback cm col tcm excl)))
        st)
  /\ (forall page_num cm tcm st row,
        has_first_cell row ->
        process_row page_num cm tcm st row =
        for_each (enumerate row)
                 (process_cell page_num cm tcm (row_excluded row)) st)
  /\ (forall cm col tcm factor,
        cm !! col = Some factor -> effective_fallback cm col tcm true = factor)
  /\ find_highest_value_in_pdf [page_growth_rate]
     = Ok (Some (Finite false 123 (-1), 1))
  /\ find_highest_value_in_pdf [page_column_on_excluded_row]
     = Ok (Some (Finite false 5000000000 0, 1)).
Proof.
  split_and!.
  - intros page_num cm tcm excl st col cell. unfold process_cell.
    destruct cell as [|c cell].
    + cbn [truthy]. now rewrite finditer_NUMBER_RE_nil.
    + cbn [truthy]. change (default [] (Some (c :: cell))) with (c :: cell).
      apply for_each_ext. intros s m. apply process_match_ext.
      intros n w. cbv zeta. now rewrite context_mult_of_spec.
  - intros page_num cm tcm st row Hrow. unfold process_row, row_excluded.
    destruct row as [|[[|c first]|] cells]; try destruct Hrow. reflexivity.
  - intros cm col tcm factor H. unfold effective_fallback. now rewrite H.
  - vm_compute. reflexivity.
  - vm_compute. reflexivity.
Qed.

(** C3.  The numbers of the free text of a page are resolved with the
    fallback multiplier 1: the page-level multiplier goes to the tables
    only, and a free-text number without an inline scale word of the
    lexicon is multiplied by 1. *)
Theorem C3_free_text_fixed_fallback :
  (forall page page_num st,
      process_non_table page page_num st =
      for_each (finditer NUMBER_RE (non_table_text page))
        (process_match page_num
           (fun num_str multiplier_word => parse_value num_str multiplier_word ONE))
        st)
  /\ (forall st i page,
        process_page st (i, page) =
        (st' ← for_each (enumerate (extract_tables page))
                 (process_table page (Z.of_nat i + 1)
                                (get_page_level_multiplier page)) st;
         for_each (finditer NUMBER_RE (non_table_text page))
           (process_match (Z.of_nat i + 1)
              (fun num_str multiplier_word =>
                 parse_value num_str multiplier_word ONE))
           st'))
  /\ (forall page page' page_num st,
        non_table_text page = non_table_text page' ->
        process_non_table page page_num st = process_non_table page' page_num st)
  /\ (forall lit mw,
        asserted_multiplier mw = None ->
        parse_value_try lit mw ONE =
        (d ← Decimal_of_str (clean_number_string lit); dec_mul d ONE))
  /\ get_page_level_multiplier page_free_text = Finite false 1000000000 0
  /\ find_highest_value_in_pdf [page_free_text]
     = Ok (Some (Finite false 500000000 0, 1)).
Proof.
  assert (H1 : forall page page_num st,
             process_non_table page page_num st =
             for_each (finditer NUMBER_RE (non_table_text page))
               (process_match page_num (fun n w => parse_value n w ONE)) st).
  { intros page page_num st. unfold process_non_table.
    destruct (non_table_text page) as [|c t]; [|reflexivity].
    now rewrite finditer_NUMBER_RE_nil. }
  split_and!.
  - exact H1.
  - intros st i page. unfold process_page.
    destruct (for_each (enumerate (extract_tables page)) _ st); cbn; [apply H1|reflexivity].
  - intros page page' page_num st H. now rewrite !H1, H.
  - intros lit mw H. unfold parse_value_try. unfold asserted_multiplier in H. now rewrite H.
  - vm_compute. reflexivity.
  - vm_compute. reflexivity.
Qed.

(* ===================================================================== *)
(** ** Which cells are scanned                                            *)
(* ===================================================================== *)

Lemma matches_cover page_num resolve ms st st' :
  for_each ms (process_match page_num resolve) st = Ok st' ->
  forall m, In m ms ->
    exists lit mw v,
      groups m = [Some lit; mw] /\ resolve lit mw = Ok v /\ dec_le v (max_value st').
Proof.
  apply (for_each_covers advances
           (fun m s => exists lit mw v,
                groups m = [Some lit; mw] /\ resolve lit mw = Ok v
                /\ dec_le v (max_value s))).
  - intros s m s' _ H. split; [eapply process_match_advances; exact H|].
    unfold process_match in H.
    destruct (groups m) as [|[lit|] [|mw [|? ?]]]; try discriminate.
    destruct (resolve lit mw) as [v|e] eqn:E; cbn in H; [|discriminate].
    exists lit, mw, v. split_and!; [reflexivity|exact E|].
    eapply update_max_covers; exact H.
  - intros m s s' (lit & mw & v & Hg & Hr & Hle) Hadv.
    exists lit, mw, v. split_and!; try assumption. eapply dec_le_advances; eassumption.
Qed.

Lemma cells_cover page_num cm tcm excl (row : Row) st st' :
  for_each (enumerate row) (process_cell page_num cm tcm excl) st = Ok st' ->
  forall (col : nat) (cell : str) m,
    row !! col = Some (Some cell) -> cell <> [] -> In m (finditer NUMBER_RE cell) ->
    exists lit mw v,
      groups m = [Some lit; mw]
      /\ parse_value lit mw (effective_fallback cm col tcm excl) = Ok v
      /\ dec_le v (max_value st').
Proof.
  intros H col cell m Hcol Hne Hm.
  pose proof (for_each_covers advances
    (fun (ic : nat * option str) s =>
       forall cell m, snd ic = Some cell -> cell <> [] -> In m (finditer NUMBER_RE cell) ->
         exists lit mw v,
           groups m = [Some lit; mw]
           /\ parse_value lit mw (effective_fallback cm (fst ic) tcm excl) = Ok v
           /\ dec_le v (max_value s))
    (process_cell page_num cm tcm excl) (enumerate row)) as Hcov.
  eapply (Hcov _ _ st st' H (col, Some cell)); [now apply In_enumerate|reflexivity|exact Hne|exact Hm].
  Unshelve.
  - intros s [c oc] s' _ Hb. split; [eapply process_cell_advances; exact Hb|].
    cbn [fst snd]. intros cl m0 -> Hcl Hm0.
    destruct cl as [|x cl]; [easy|]. unfold process_cell in Hb. cbn [truthy] in Hb.
    change (default [] (Some (x :: cl))) with (x :: cl) in Hb.
    destruct (matches_cover _ _ _ _ _ Hb m0 Hm0) as (lit & mw & v & Hg & Hr & Hle).
    exists lit, mw, v. split_and!; try assumption.
    cbv zeta in Hr. now rewrite context_mult_of_spec in Hr.
  - intros ic s s' HP Hadv cl m0 Hc Hcl Hm0.
    destruct (HP cl m0 Hc Hcl Hm0) as (lit & mw & v & Hg & Hr & Hle).
    exists lit, mw, v. split_and!; try assumption. eapply dec_le_advances; eassumption.
Qed.

(** C4.  In a table with a non-empty header row, every token of every
    non-empty cell of every data row that begins with a non-empty cell is
    resolved with the multiplier of its cell and compared against the
    running maximum. *)
Theorem C4_cells_of_rows_with_first_cell
    (page : Page) (page_num : Z) (page_scale : Decimal) (st : scan_state)
    (t_idx : nat) (header : Row) (data_rows : list Row) :
  header <> [] ->
  table_scan_covers has_first_cell page page_num page_scale st t_idx header data_rows.
Proof.
  intros Hh st' H row col cell m Hrow Hfirst Hcol Hne Hm.
  unfold process_table in H. destruct header as [|h header]; [easy|].
  destruct (find_tables page !! t_idx) as [bbox|] eqn:Hb; [|discriminate].
  set (cm := column_multipliers_of (h :: header)) in *.
  set (tcm := table_context_multiplier_of page_scale bbox (extract_words page)) in *.
  pose proof (for_each_covers advances
    (fun (r : Row) s =>
       has_first_cell r ->
       forall (col : nat) (cell : str) m,
         r !! col = Some (Some cell) -> cell <> [] -> In m (finditer NUMBER_RE cell) ->
         exists lit mw v,
           groups m = [Some lit; mw]
           /\ parse_value lit mw (effective_fallback cm col tcm (row_excluded r)) = Ok v
           /\ dec_le v (max_value s))
    (process_row page_num cm tcm) data_rows) as Hcov.
  destruct (Hcov) with (st := st) (st' := st') (x := row) (col := col) (cell := cell) (m := m)
    as (lit & mw & v & Hg & Hv & Hle); try assumption.
  - intros s r s' _ Hr. split; [eapply process_row_advances; exact Hr|].
    intros Hfc c cl m0 Hc Hcl Hm0. unfold process_row in Hr.
    destruct r as [|[[|x first]|] cells]; try destruct Hfc.
    eapply cells_cover; eassumption.
  - intros r s s' HP Hadv Hfc c cl m0 Hc Hcl Hm0.
    destruct (HP Hfc c cl m0 Hc Hcl Hm0) as (lit & mw & v & Hg & Hr & Hle).
    exists lit, mw, v. split_and!; try assumption. eapply dec_le_advances; eassumption.
  - exists lit, mw, bbox, v. split_and!; try assumption. reflexivity.
Qed.

Lemma C4_witness :
  table_scan_covers has_first_cell page_growth_rate 1 (Finite false 1000000 0)
    initial_state 0 (a_row ["Item"; "Amount"]%string)
    [a_row ["Growth Rate"; "12.3%"]%string].
Proof.
  apply (C4_cells_of_rows_with_first_cell page_growth_rate 1 (Finite false 1000000 0)
           initial_state 0 (a_row ["Item"; "Amount"]%string)
           [a_row ["Growth Rate"; "12.3%"]%string]).
  vm_compute. discriminate.
Defined.

(** A data row whose first cell is missing is passed over whole: the
    number in its second cell is never compared. *)
Lemma C4_counterexample :
  process_table page_blank_first_cell 1 ONE initial_state
    (0%nat, [a_row ["Item"; "Amount"]%string; blank_first_cell_row]) = Ok initial_state
  /\ ~ table_scan_covers (fun _ => True) page_blank_first_cell 1 ONE initial_state
         0 (a_row ["Item"; "Amount"]%string) [blank_first_cell_row].
Proof.
  split; [vm_compute; reflexivity|]. intros H.
  assert (Hin : In (RMatch 0 (MState (py "0005") [] [Some (py "5000"); None]))
                   (finditer NUMBER_RE (py "5000"))).
  { vm_compute. left. reflexivity. }
  destruct (H initial_state eq_refl blank_first_cell_row 1%nat (py "5000") _
              (or_introl eq_refl) I eq_refl ltac:(discriminate) Hin)
    as (lit & mw & bbox & v & Hg & Hb & Hv & Hle).
  injection Hg as <- <-. injection Hb as <-.
  vm_compute in Hv. injection Hv as <-.
  destruct Hle as [Hle|Hle]; vm_compute in Hle; discriminate Hle.
Qed.

(* ===================================================================== *)
(** ** The table scale                                                    *)
(* ===================================================================== *)

Lemma near_table_split bbox word :
  near_table bbox word = left_edge_within_table bbox word && vertically_near bbox word.
Proof. destruct bbox as [[[b0 b1] b2] b3]. reflexivity. Qed.

(** The text around a table is made of the nearby words, in the order
    given, each after a space. *)
Lemma nearby_text_filter bbox words :
  nearby_text bbox words =
  concat (map (fun w => py " " ++ text w)
              (filter (fun w => near_table bbox w = true) words)).
Proof.
  unfold nearby_text.
  assert (H : forall acc,
             fold_left (fun acc word =>
                          if near_table bbox word then acc ++ py " " ++ text word else acc)
                       words acc
             = acc ++ concat (map (fun w => py " " ++ text w)
                                  (filter (fun w => near_table bbox w = true) words))).
  { induction words as [|w words IH]; intros acc; simpl.
    - now rewrite app_nil_r.
    - rewrite IH, filter_cons. destruct (near_table bbox w) eqn:E.
      + rewrite decide_True by reflexivity. simpl. now rewrite <- !app_assoc.
      + rewrite decide_False by discriminate. reflexivity. }
  apply (H []).
Qed.

Lemma table_context_multiplier_spec page_scale bbox words :
  table_context_multiplier_of page_scale bbox words =
  default page_scale (lexicon_factor (first_surface_form (nearby_text bbox words))).
Proof.
  unfold table_context_multiplier_of, search.
  pose proof (search_context [] (nearby_text bbox words)) as H.
  destruct (first_surface_form (nearby_text bbox words)) as [w|].
  - destruct H as (Hw & m & -> & _ & ->). rewrite (asserted_multiplier_word _ Hw).
    cbn [lexicon_factor]. now destruct (dict_get MULTIPLIERS (lower w)).
  - now rewrite H.
Qed.

(** C5.  The table scale is read from exactly those page words whose left
    edge lies between the table box's left and right edges and whose top
    is less than 80 from the box's top or whose bottom is less than 80
    from the box's bottom: their texts are concatenated, the Context
    Matcher is run on the result, and when it asserts no lexicon
    multiplier the table scale is the page scale. *)
Theorem C5_table_scale_from_nearby_words
    (page_scale : Decimal) (bbox : BBox) (words : list Word) :
  table_context_multiplier_of page_scale bbox words
  = spec_table_scale
      (fun b w => left_edge_within_table b w && vertically_near b w)
      page_scale bbox words
  /\ (lexicon_factor (first_surface_form (nearby_text bbox words)) = None ->
      table_context_multiplier_of page_scale bbox words = page_scale)
  /\ (forall factor,
        lexicon_factor (first_surface_form (nearby_text bbox words)) = Some factor ->
        table_context_multiplier_of page_scale bbox words = factor).
Proof.
  rewrite table_context_multiplier_spec. split_and!.
  - unfold spec_table_scale. rewrite nearby_text_filter.
    do 5 f_equal. apply list_filter_iff. intros w. now rewrite near_table_split.
  - now intros ->.
  - now intros factor ->.
Qed.

(** A word that begins inside the horizontal extent of the box and ends
    outside it is read all the same: here it alone sets the table scale
    to a million, where the words whose whole span lies within the box
    would leave the page scale. *)
Lemma C5_counterexample :
  near_table narrow_box overhanging_word = true
  /\ span_within_table narrow_box overhanging_word = false
  /\ vertically_near narrow_box overhanging_word = true
  /\ table_context_multiplier_of ONE narrow_box [overhanging_word]
     = Finite false 1000000 0
  /\ spec_table_scale (fun b w => span_within_table b w && vertically_near b w)
       ONE narrow_box [overhanging_word] = ONE
  /\ table_context_multiplier_of ONE narrow_box [overhanging_word]
     <> spec_table_scale (fun b w => span_within_table b w && vertically_near b w)
          ONE narrow_box [overhanging_word].
Proof. split_and!; vm_compute; congruence. Qed.

(* ===================================================================== *)
(** ** Documents without numbers                                          *)
(* ===================================================================== *)

Lemma for_each_idle {A S : Type} (xs : list A) (body : S -> A -> result S) (st : S) :
  (forall x, In x xs -> body st x = Ok st \/ exists e, body st x = Raise e) ->
  for_each xs body st = Ok st \/ exists e, for_each xs body st = Raise e.
Proof.
  induction xs as [|x xs IH]; intros H; simpl; [now left|].
  destruct (H x (or_introl eq_refl)) as [->|(e & ->)]; cbn; [|right; eauto].
  apply IH. intros y Hy. apply H. now right.
Qed.

Lemma for_each_still {A S : Type} (xs : list A) (body : S -> A -> result S) (st : S) :
  (forall x, In x xs -> body st x = Ok st) -> for_each xs body st = Ok st.
Proof.
  induction xs as [|x xs IH]; intros H; simpl; [reflexivity|].
  rewrite (H x (or_introl eq_refl)). cbn. apply IH. intros y Hy. apply H. now right.
Qed.

Lemma process_row_idle page page_num cm tcm st header data_rows row :
  (forall cell, scanned_cell page cell -> finditer NUMBER_RE cell = []) ->
  In (header :: data_rows) (extract_tables page) -> header <> [] ->
  In row data_rows ->
  process_row page_num cm tcm st row = Ok st.
Proof.
  intros Hno Ht Hh Hrow. unfold process_row.
  destruct row as [|[[|c first]|] cells] eqn:Er; try reflexivity.
  rewrite <- Er. rewrite <- Er in Hrow.
  assert (Hfc : has_first_cell row) by (rewrite Er; exact I).
  apply for_each_still. intros [col [cell|]] Hin; [|reflexivity]. unfold process_cell.
  destruct cell as [|x cell]; [reflexivity|]. cbn [truthy].
  change (default [] (Some (x :: cell))) with (x :: cell).
  rewrite Hno; [reflexivity|].
  exists header, data_rows, row. split_and!; try assumption.
  apply In_enumerate, list_elem_of_lookup_2, list_elem_of_In in Hin. exact Hin.
Qed.

Lemma process_table_idle page page_num pcm st it :
  (forall cell, scanned_cell page cell -> finditer NUMBER_RE cell = []) ->
  In it (enumerate (extract_tables page)) ->
  process_table page page_num pcm st it = Ok st
  \/ exists e, process_table page page_num pcm st it = Raise e.
Proof.
  intros Hno Hin. destruct it as [t_idx table].
  apply In_enumerate, list_elem_of_lookup_2, list_elem_of_In in Hin.
  unfold process_table. destruct table as [|[|h header] rows]; try (now left).
  destruct (find_tables page !! t_idx); [left|right; eauto].
  apply for_each_still. intros row Hrow.
  eapply process_row_idle; try eassumption. discriminate.
Qed.

Lemma process_page_idle st ip :
  (forall cell, scanned_cell (snd ip) cell -> finditer NUMBER_RE cell = []) ->
  finditer NUMBER_RE (non_table_text (snd ip)) = [] ->
  process_page st ip = Ok st \/ exists e, process_page st ip = Raise e.
Proof.
  destruct ip as [i page]. cbn [snd]. intros Hno Hfree. unfold process_page.
  destruct (for_each_idle (enumerate (extract_tables page))
              (process_table page (Z.of_nat i + 1) (get_page_level_multiplier page)) st)
    as [->|(e & ->)]; [|cbn|right; eauto].
  - intros it Hit. now apply process_table_idle.
  - left. unfold process_non_table. rewrite Hfree. now destruct (non_table_text page).
Qed.


(* ===================================================================== *)
(** ** What a completed scan reports                                      *)
(* ===================================================================== *)

Lemma for_each_inv {A S : Type} (P : S -> Prop) (body : S -> A -> result S)
    (xs : list A) :
  (forall st x st', In x xs -> P st -> body st x = Ok st' -> P st') ->
  forall st st', P st -> for_each xs body st = Ok st' -> P st'.
Proof.
  induction xs as [|x xs IH]; intros Hb st st' HP; simpl.
  - now intros [= <-].
  - destruct (body st x) as [st1|e] eqn:E; cbn; [|discriminate].
    apply IH; [|eapply Hb; [now left|exact HP|exact E]].
    intros s y s' Hy. apply Hb. now right.
Qed.

Lemma update_max_settled page_num st v st' :
  is_finite v = true -> update_max page_num st v = Ok st' -> settled st -> settled st'.
Proof.
  intros Hv [[-> _]|[-> _]]%update_max_cases Hst; [now right|exact Hst].
Qed.

Lemma parse_value_finite lit mw ctx c e v :
  is_finite ctx = true ->
  Decimal_of_str (clean_number_string lit) = Ok (Finite false c e) ->
  parse_value lit mw ctx = Ok v -> is_finite v = true.
Proof.
  intros Hctx Hd. destruct ctx as [sg k x| |]; try discriminate Hctx.
  unfold parse_value.
  destruct (parse_value_try_finite lit mw c e sg k x Hd) as [(sg' & c' & e' & ->)| ->];
    [now intros [= <-]|discriminate].
Qed.

Lemma tokens_settled page_num text ctx st st' :
  is_finite ctx = true ->
  for_each (finditer NUMBER_RE text)
    (process_match page_num (fun n w => parse_value n w ctx)) st = Ok st' ->
  settled st -> settled st'.
Proof.
  intros Hctx H Hst. revert st st' Hst H. apply for_each_inv.
  intros s m s' Hm Hs Hb.
  apply token_literal_parses in Hm as (lit & mw & c & e & Hg & Hd).
  unfold process_match in Hb. rewrite Hg in Hb.
  destruct (parse_value lit mw ctx) as [v|err] eqn:Hv; cbn in Hb; [|discriminate].
  eapply update_max_settled; [|exact Hb|exact Hs].
  eapply parse_value_finite; eassumption.
Qed.

Lemma asserted_multiplier_finite w factor :
  asserted_multiplier w = Some factor -> is_finite factor = true.
Proof.
  unfold asserted_multiplier. destruct (truthy w); [|discriminate].
  now intros (k & -> & _)%MULTIPLIERS_finite.
Qed.

Lemma get_page_level_multiplier_finite page :
  is_finite (get_page_level_multiplier page) = true.
Proof.
  unfold get_page_level_multiplier, context_multiplier.
  destruct (extract_words page); [reflexivity|].
  destruct (search _ _); [|reflexivity].
  destruct (asserted_multiplier _) eqn:E; [|reflexivity].
  eapply asserted_multiplier_finite; exact E.
Qed.

Lemma table_context_multiplier_finite page_scale bbox words :
  is_finite page_scale = true ->
  is_finite (table_context_multiplier_of page_scale bbox words) = true.
Proof.
  intros H. unfold table_context_multiplier_of.
  destruct (search _ _); [|exact H].
  destruct (asserted_multiplier _) eqn:E; [|exact H].
  eapply asserted_multiplier_finite; exact E.
Qed.

Lemma header_multiplier_finite t v :
  header_multiplier MULTIPLIERS t = Some v -> is_finite v = true.
Proof.
  unfold MULTIPLIERS. cbn [header_multiplier].
  repeat (destruct (search _ t); [now intros [= <-]|]). discriminate.
Qed.

Lemma column_multipliers_finite (header : Row) (col : nat) (v : Decimal) :
  column_multipliers_of header !! col = Some v -> is_finite v = true.
Proof.
  unfold column_multipliers_of.
  assert (H : forall (l : list (nat * option str)) (acc : gmap nat Decimal),
             (forall c x, acc !! c = Some x -> is_finite x = true) ->
             forall c x,
               fold_left (fun (acc : gmap nat Decimal) '(col_idx, header_cell) =>
                            if truthy header_cell then
                              match header_multiplier MULTIPLIERS
                                      (lower (default [] header_cell)) with
                              | Some multiplier => <[col_idx := multiplier]> acc
                              | None => acc
                              end
                            else acc) l acc !! c = Some x ->
               is_finite x = true).
  { induction l as [|[i cell] l IH]; intros acc Hacc c x; cbn [fold_left]; [apply Hacc|].
    apply IH. destruct (truthy cell); [|exact Hacc].
    destruct (header_multiplier MULTIPLIERS (lower (default [] cell))) as [mul|] eqn:E;
      [|exact Hacc].
    intros c' x' [[_ <-]|[_ Hx]]%lookup_insert_Some; [|eapply Hacc; exact Hx].
    eapply header_multiplier_finite; exact E. }
  apply H. intros c x Hx. rewrite lookup_empty in Hx. discriminate.
Qed.

Lemma context_mult_of_finite header col tcm excl :
  is_finite tcm = true ->
  is_finite (context_mult_of (column_multipliers_of header) col tcm excl) = true.
Proof.
  intros H. unfold context_mult_of.
  destruct (column_multipliers_of header !! col) as [v|] eqn:E; cbn.
  - eapply column_multipliers_finite; exact E.
  - now destruct excl.
Qed.

Lemma process_page_settled st ip st' :
  process_page st ip = Ok st' -> settled st -> settled st'.
Proof.
  unfold process_page. destruct ip as [i page].
  destruct (for_each (enumerate (extract_tables page)) _ st) as [st1|e] eqn:E; cbn; [|discriminate].
  intros Hfree Hst. assert (H1 : settled st1).
  { revert E. apply for_each_inv; [|exact Hst]. clear.
    intros s [t_idx table] s' _ Hs. unfold process_table.
    destruct table as [|[|h header] rows]; try (now intros [= <-]).
    destruct (find_tables page !! t_idx) as [bbox|]; [|discriminate].
    apply for_each_inv; [|exact Hs]. clear.
    intros s row s' _ Hs. unfold process_row.
    destruct row as [|[[|c first]|] cells]; try (now intros [= <-]).
    apply for_each_inv; [|exact Hs]. clear.
    intros s [col cell] s' _ Hs. unfold process_cell.
    destruct (truthy cell); [|now intros [= <-]].
    intros H. eapply (tokens_settled _ _ _ _ _ _ H Hs). Unshelve.
    apply context_mult_of_finite, table_context_multiplier_finite,
      get_page_level_multiplier_finite. }
  unfold process_non_table in Hfree. destruct (non_table_text page) as [|c t].
  - now injection Hfree as <-.
  - eapply tokens_settled; [|exact Hfree|exact H1]. reflexivity.
Qed.

(** The running maximum of a scan is empty or finite: never a NaN, never
    an infinity other than the initial one. *)
Theorem scan_pages_settled pages st : scan_pages pages = Ok st -> settled st.
Proof.
  unfold scan_pages. apply for_each_inv; [|now left].
  intros s ip s' _ Hs H. eapply process_page_settled; eassumption.
Qed.

(** A scan that completes reports not found exactly when no value was
    ever recorded; any recorded value, zero included, is reported with
    its page. *)
Theorem completed_scan_report pages st :
  scan_pages pages = Ok st ->
  (st = initial_state /\ find_highest_value_in_pdf pages = Ok None)
  \/ (exists sg c e,
        max_value st = Finite sg c e
        /\ find_highest_value_in_pdf pages = Ok (Some (max_value st, max_page st))).
Proof.
  intros H. unfold find_highest_value_in_pdf. rewrite H.
  destruct (scan_pages_settled _ _ H) as [->|Hfin]; [now left|right].
  destruct (max_value st) as [sg c e| |]; try discriminate Hfin. eauto.
Qed.

(** C7.  A document in which no number token is ever found is reported
    as not found, [None]; a document whose scan ends with a maximum of
    zero is reported with that zero and its page, which is a different
    result; and a completed scan reports not found only when no value
    was ever recorded. *)
Theorem C7_not_found_is_not_zero :
  (forall pages,
      no_number_token pages -> find_highest_value_in_pdf pages = Ok None)
  /\ (forall pages st,
        scan_pages pages = Ok st -> dec_is_zero (max_value st) = true ->
        find_highest_value_in_pdf pages = Ok (Some (max_value st, max_page st))
        /\ find_highest_value_in_pdf pages <> Ok None)
  /\ (forall pages st,
        scan_pages pages = Ok st ->
        (find_highest_value_in_pdf pages = Ok None <-> st = initial_state))
  /\ find_highest_value_in_pdf [page_blank] = Ok None
  /\ find_highest_value_in_pdf [page_zero] = Ok (Some (ZERO, 1)).
Proof.
  split_and!.
  - intros pages Hno. unfold find_highest_value_in_pdf, scan_pages.
    destruct (for_each_idle (enumerate pages) process_page initial_state)
      as [->|(e & ->)]; [|reflexivity|reflexivity].
    intros [i page] Hin.
    apply In_enumerate, list_elem_of_lookup_2, list_elem_of_In in Hin.
    destruct (Hno page Hin) as [Hcells Hfree]. now apply process_page_idle.
  - intros pages st Hscan Hz. unfold find_highest_value_in_pdf. rewrite Hscan.
    destruct (max_value st) as [sg c e| |]; try discriminate Hz.
    split; [reflexivity|discriminate].
  - intros pages st Hscan.
    destruct (completed_scan_report _ _ Hscan) as [[-> ->]|(sg & c & e & Hm & ->)];
      [easy|].
    split; [discriminate|]. intros ->. discriminate Hm.
  - vm_compute. reflexivity.
  - vm_compute. reflexivity.
Qed.

(** ** The examples of the specification *)

Example example_1_header_in_millions :
  find_highest_value_in_pdf [page_in_millions]
  = Ok (Some (Finite false 12345000000 (-1), 1)).
Proof. vm_compute. reflexivity. Qed.

Example example_2_column_in_thousands :
  find_highest_value_in_pdf [page_in_thousands]
  = Ok (Some (Finite false 452000 (-1), 1)).
Proof. vm_compute. reflexivity. Qed.

Example example_5_largest_of_three :
  find_highest_value_in_pdf [page_blank; page_three_values]
  = Ok (Some (Finite false 250000 0, 2)).
Proof. vm_compute. reflexivity. Qed.

(** ** The properties on the sample documents *)

Lemma C2_witness :
  process_row 1 (column_multipliers_of (a_row ["Item"; "Amount (millions)"]%string))
              ONE initial_state (a_row ["Growth rate"; "5000"]%string)
  = for_each (enumerate (a_row ["Growth rate"; "5000"]%string))
      (process_cell 1 (column_multipliers_of (a_row ["Item"; "Amount (millions)"]%string))
                    ONE (row_excluded (a_row ["Growth rate"; "5000"]%string)))
      initial_state
  /\ effective_fallback (column_multipliers_of (a_row ["Item"; "Amount (millions)"]%string))
                        1 ONE true
     = Finite false 1000000 0.
Proof.
  destruct C2_cell_fallback_precedence as (_ & Hrow & Hcol & _). split.
  - apply Hrow. exact I.
  - apply Hcol. vm_compute. reflexivity.
Defined.

Lemma C3_witness :
  parse_value_try (py "$500") None ONE
  = (d ← Decimal_of_str (clean_number_string (py "$500")); dec_mul d ONE)
  /\ process_non_table page_free_text 1 initial_state
     = process_non_table
         (MkPage 1000 (extract_words page_free_text) [] (find_tables page_free_text))
         1 initial_state.
Proof.
  destruct C3_free_text_fixed_fallback as (_ & _ & Hsame & Hone & _). split.
  - apply Hone. reflexivity.
  - apply Hsame. reflexivity.
Defined.

Lemma C5_witness :
  table_context_multiplier_of (Finite false 1000 0) narrow_box [] = Finite false 1000 0
  /\ table_context_multiplier_of ONE narrow_box [overhanging_word]
     = Finite false 1000000 0.
Proof.
  split.
  - destruct (C5_table_scale_from_nearby_words (Finite false 1000 0) narrow_box [])
      as (_ & Hnone & _).
    apply Hnone. reflexivity.
  - destruct (C5_table_scale_from_nearby_words ONE narrow_box [overhanging_word])
      as (_ & _ & Hsome).
    apply Hsome. vm_compute. reflexivity.
Defined.


Lemma C7_witness :
  find_highest_value_in_pdf [page_blank] = Ok None
  /\ find_highest_value_in_pdf [page_zero] = Ok (Some (ZERO, 1))
  /\ find_highest_value_in_pdf [page_zero] <> Ok None.
Proof.
  destruct C7_not_found_is_not_zero as (Hnone & Hzero & _ & _). split.
  - apply Hnone. intros page [<-|[]]. split.
    + intros cell (header & data_rows & row & [] & _).
    + vm_compute. reflexivity.
  - apply (Hzero [page_zero] (ScanState ZERO 1)).
    + vm_compute. reflexivity.
    + reflexivity.
Defined.

Lemma C8_witness :
  (ScanState ZERO 1 = ScanState ZERO 1)
  /\ (ScanState (Finite false 500000000 0) 2 = ScanState ZERO 1
      \/ dec_compare (max_value (ScanState (Finite false 500000000 0) 2))
                     (max_value (ScanState ZERO 1)) = Some Gt).
Proof.
  destruct C8_running_maximum_monotone as (_ & Htie & _ & Hgrow). split.
  - apply (Htie 2 (ScanState ZERO 1) (Finite false 0 (-2)) (ScanState ZERO 1));
      vm_compute; reflexivity.
  - apply (Hgrow [page_zero] page_free_text); vm_compute; reflexivity.
Defined.

(** ** Sample tokens *)

Lemma C9_witness : inline_word_rule fold two_numbers_text first_number_token.
Proof.
  apply (C9_inline_word_is_singular_under_IGNORECASE two_numbers_text first_number_token).
  vm_compute. left. reflexivity.
Defined.

Lemma C10_witness :
  exists lit mw c e,
    groups first_number_token = [Some lit; mw]
    /\ Decimal_of_str (clean_number_string lit) = Ok (Finite false c e)
    /\ forall sg k x,
         parse_value_try lit mw (Finite sg k x) <> Raise InvalidOperation
         /\ parse_value_try lit mw (Finite sg k x) <> Raise TypeError
         /\ parse_value lit mw (Finite sg k x) = parse_value_try lit mw (Finite sg k x).
Proof.
  apply (C10_scanner_literals_parse two_numbers_text first_number_token).
  vm_compute. left. reflexivity.
Defined.

(* ===================================================================== *)
(** ** Cleaning a literal                                                 *)
(* ===================================================================== *)

Lemma lstrip_split t :
  exists sp, t = sp ++ lstrip t /\ forallb is_space sp = true
             /\ match lstrip t with [] => True | c :: _ => is_space c = false end.
Proof.
  induction t as [|c t (sp & E & Hsp & Hh)]; simpl.
  - exists []. easy.
  - destruct (is_space c) eqn:Hc.
    + exists (c :: sp). split_and!; [simpl; f_equal; exact E|simpl; now rewrite Hc|exact Hh].
    + exists []. split_and!; [reflexivity|reflexivity|exact Hc].
Qed.

Lemma lstrip_fixed t :
  match t with [] => True | c :: _ => is_space c = false end -> lstrip t = t.
Proof. destruct t as [|c t]; [easy|]. simpl. now intros ->. Qed.

Lemma lstrip_idem t : lstrip (lstrip t) = lstrip t.
Proof. destruct (lstrip_split t) as (sp & _ & _ & H). now apply lstrip_fixed. Qed.

Lemma rstrip_idem t : rstrip (rstrip t) = rstrip t.
Proof. unfold rstrip. now rewrite rev_involutive, lstrip_idem. Qed.

Lemma rstrip_split t :
  exists sp, t = rstrip t ++ sp /\ forallb is_space sp = true.
Proof.
  unfold rstrip. destruct (lstrip_split (rev t)) as (sp & E & Hsp & _).
  exists (rev sp). split.
  - rewrite <- rev_app_distr, <- E. now rewrite rev_involutive.
  - rewrite forallb_forall in *. intros x Hx. apply Hsp. now apply in_rev.
Qed.

(** Taking white space off the right end leaves a non-blank left end
    alone. *)
Lemma lstrip_rstrip t :
  match t with [] => True | c :: _ => is_space c = false end ->
  lstrip (rstrip t) = rstrip t.
Proof.
  intros H. apply lstrip_fixed. destruct (rstrip_split t) as (sp & E & Hsp).
  destruct (rstrip t) as [|c r]; [exact I|].
  rewrite E in H. exact H.
Qed.

Lemma strip_idem t : strip (strip t) = strip t.
Proof.
  unfold strip. destruct (lstrip_split t) as (sp & _ & _ & H).
  now rewrite (lstrip_rstrip _ H), rstrip_idem.
Qed.

Lemma lstrip_forallb (f : char -> bool) t :
  forallb f t = true -> forallb f (lstrip t) = true.
Proof.
  induction t as [|c t IH]; simpl; [easy|]. intros H.
  destruct (is_space c); [apply IH; now apply andb_true_iff in H|exact H].
Qed.

Lemma strip_forallb (f : char -> bool) t :
  forallb f t = true -> forallb f (strip t) = true.
Proof.
  intros H. unfold strip, rstrip.
  assert (Hrev : forall l, forallb f l = true -> forallb f (rev l) = true).
  { intros l Hl. rewrite forallb_forall in *. intros x Hx. apply Hl. now apply in_rev. }
  apply Hrev, lstrip_forallb, Hrev, lstrip_forallb, H.
Qed.

Lemma remove_char_gone c t :
  forallb (fun x => negb (char_eqb x c)) (remove_char c t) = true.
Proof.
  induction t as [|x t IH]; simpl; [easy|].
  destruct (char_eqb x c) eqn:E; [exact IH|]. simpl. now rewrite E.
Qed.

Lemma remove_char_keeps (f : char -> bool) c t :
  forallb f t = true -> forallb f (remove_char c t) = true.
Proof.
  induction t as [|x t IH]; simpl; [easy|]. intros [Hx Ht]%andb_true_iff.
  destruct (char_eqb x c); [auto|]. simpl. rewrite Hx. auto.
Qed.


Lemma lstrip_head t : no_space_at_head (lstrip t).
Proof. destruct (lstrip_split t) as (sp & _ & _ & H). exact H. Qed.

Lemma strip_head t : no_space_at_head (strip t).
Proof.
  unfold strip. rewrite <- (lstrip_rstrip _ (lstrip_head t)). apply lstrip_head.
Qed.

Lemma strip_last t : no_space_at_head (rev (strip t)).
Proof. unfold strip, rstrip. rewrite rev_involutive. apply lstrip_head. Qed.

Lemma forallb_not_In c (t : str) :
  forallb (fun x => negb (char_eqb x c)) t = true -> ~ In c t.
Proof.
  rewrite forallb_forall. intros H Hin. specialize (H c Hin).
  apply negb_true_iff in H. assert (E : char_eqb c c = true) by now apply char_eqb_eq.
  congruence.
Qed.

(** X1.  [clean_number_string] leaves no dollar sign and no comma in its
    result and no white space at either end of it, and cleaning a
    cleaned string changes nothing. *)
Theorem X1_clean_number_string_normal (t : str) :
  ~ In (Latin "$") (clean_number_string t)
  /\ ~ In (Latin ",") (clean_number_string t)
  /\ no_space_at_head (clean_number_string t)
  /\ no_space_at_head (rev (clean_number_string t))
  /\ clean_number_string (clean_number_string t) = clean_number_string t.
Proof.
  unfold clean_number_string.
  assert (Hd : forallb (fun x => negb (char_eqb x "$"%char))
                 (strip (remove_char ","%char (remove_char "$"%char t))) = true)
    by apply strip_forallb, remove_char_keeps, remove_char_gone.
  assert (Hc : forallb (fun x => negb (char_eqb x ","%char))
                 (strip (remove_char ","%char (remove_char "$"%char t))) = true)
    by apply strip_forallb, remove_char_gone.
  split_and!.
  - now apply forallb_not_In.
  - now apply forallb_not_In.
  - apply strip_head.
  - apply strip_last.
  - rewrite (remove_char_absent "$"%char _ Hd), (remove_char_absent ","%char _ Hc).
    apply strip_idem.
Qed.

Lemma remove_char_insert c a b :
  remove_char c (a ++ c :: b) = remove_char c (a ++ b).
Proof.
  rewrite !remove_char_app, remove_char_cons.
  assert (E : char_eqb c c = true) by now apply char_eqb_eq.
  now rewrite E.
Qed.

Lemma remove_char_other c x a b :
  char_eqb x c = false ->
  remove_char c (a ++ x :: b) = remove_char c a ++ x :: remove_char c b.
Proof. intros E. now rewrite remove_char_app, remove_char_cons, E. Qed.

(** X2.  A dollar sign or a comma is dropped wherever it stands in the
    literal: the literal with one of them inserted at any place cleans to
    the same string and resolves to the same value. *)
Theorem X2_separators_ignored_anywhere
    (a b : str) (c : char) (w : option str) (k : Decimal) :
  c = "$"%char \/ c = ","%char ->
  clean_number_string (a ++ c :: b) = clean_number_string (a ++ b)
  /\ parse_value (a ++ c :: b) w k = parse_value (a ++ b) w k.
Proof.
  intros Hc.
  assert (E : clean_number_string (a ++ c :: b) = clean_number_string (a ++ b)).
  { unfold clean_number_string. f_equal. destruct Hc as [-> | ->].
    - now rewrite remove_char_insert.
    - rewrite (remove_char_other "$"%char ","%char) by reflexivity.
      rewrite remove_char_insert. now rewrite <- remove_char_app. }
  split; [exact E|]. unfold parse_value, parse_value_try. now rewrite E.
Qed.

Lemma X2_witness :
  clean_number_string (py "1" ++ Latin "," :: py "234") = clean_number_string (py "1" ++ py "234")
  /\ parse_value (py "1" ++ Latin "," :: py "234") None ONE
     = parse_value (py "1" ++ py "234") None ONE.
Proof. apply (X2_separators_ignored_anywhere (py "1") (py "234") ","%char None ONE). now right. Defined.

(* ===================================================================== *)
(** ** What [parse_value] returns                                         *)
(* ===================================================================== *)

Lemma Decimal_of_str_raises t e :
  Decimal_of_str t = Raise e -> e = InvalidOperation.
Proof.
  unfold Decimal_of_str. destruct (split_sign _) as [neg body].
  destruct (parse_number neg body); [discriminate|].
  destruct (parse_special neg body); [discriminate|]. now intros [= <-].
Qed.

Lemma dec_mul_raises a b e :
  dec_mul a b = Raise e -> e = InvalidOperation \/ e = Overflow.
Proof.
  intros H.
  destruct a as [sa ca ea|sa|sa [] pa], b as [sb cb eb|sb|sb [] pb];
    cbn [dec_mul dec_is_zero] in H;
    try discriminate H; try (injection H as <-; now left);
    try (match type of H with
         | (if ?x then _ else _) = _ => destruct x
         end; [injection H as <-; now left|discriminate H]).
  destruct (fix_finite_cases (xorb sa sb) (ca * cb) (ea + eb)) as [(c & x & E)|E];
    rewrite E in H; [discriminate H|injection H as <-; now right].
Qed.

Lemma parse_value_try_raises lit w k e :
  parse_value_try lit w k = Raise e -> e = InvalidOperation \/ e = Overflow.
Proof.
  unfold parse_value_try.
  destruct (Decimal_of_str (clean_number_string lit)) as [d|e'] eqn:Hd; cbn.
  - destruct (if truthy w then _ else _); apply dec_mul_raises.
  - intros [= <-]. left. eapply Decimal_of_str_raises; exact Hd.
Qed.

Lemma clean_blank lit :
  forallb (fun c => is_space c || char_eqb c "$"%char || char_eqb c ","%char) lit = true ->
  clean_number_string lit = [].
Proof.
  intros H. unfold clean_number_string.
  assert (Hs : forallb is_space (remove_char ","%char (remove_char "$"%char lit)) = true).
  { induction lit as [|c lit IH]; [reflexivity|]. cbn [forallb] in H.
    apply andb_true_iff in H as [Hc H]. specialize (IH H). cbn [remove_char].
    destruct (char_eqb c "$"%char) eqn:E1; [exact IH|]. cbn [remove_char].
    destruct (char_eqb c ","%char) eqn:E2; [exact IH|]. cbn [forallb].
    rewrite IH, andb_true_r. now rewrite !orb_false_r in Hc. }
  unfold strip. rewrite <- (app_nil_r (remove_char _ _)), (lstrip_spaces _ _ Hs).
  reflexivity.
Qed.

(** X3.  [parse_value] returns a value or lets Overflow through, and
    nothing else: a literal that [Decimal] cannot read resolves to zero,
    as does a literal made of dollar signs, commas and white space
    only. *)
Theorem X3_parse_value_zero_or_overflow (lit : str) (w : option str) (k : Decimal) :
  ((exists v, parse_value lit w k = Ok v) \/ parse_value lit w k = Raise Overflow)
  /\ (forall e, Decimal_of_str (clean_number_string lit) = Raise e ->
                parse_value lit w k = Ok ZERO)
  /\ (forallb (fun c => is_space c || char_eqb c "$"%char || char_eqb c ","%char) lit
        = true ->
      parse_value lit w k = Ok ZERO).
Proof.
  assert (Hbad : forall e, Decimal_of_str (clean_number_string lit) = Raise e ->
                           parse_value lit w k = Ok ZERO).
  { intros e He. pose proof (Decimal_of_str_raises _ _ He) as ->.
    unfold parse_value, parse_value_try. now rewrite He. }
  split_and!.
  - unfold parse_value.
    destruct (parse_value_try lit w k) as [v|e] eqn:E; [left; eauto|].
    destruct (parse_value_try_raises _ _ _ _ E) as [-> | ->]; [left; eauto|now right].
  - exact Hbad.
  - intros H. apply (Hbad InvalidOperation). now rewrite (clean_blank _ H).
Qed.

Lemma X3_witness :
  parse_value (py "n/a") None ONE = Ok ZERO
  /\ parse_value (py " $ , ") None ONE = Ok ZERO.
Proof.
  destruct (X3_parse_value_zero_or_overflow (py "n/a") None ONE) as (_ & Hbad & _).
  destruct (X3_parse_value_zero_or_overflow (py " $ , ") None ONE) as (_ & _ & Hblank).
  split.
  - apply (Hbad InvalidOperation). vm_compute. reflexivity.
  - apply Hblank. vm_compute. reflexivity.
Defined.

Lemma fix_finite_exact sg c e :
  ndigits c <= prec -> Etiny <= e <= Etop -> fix_finite sg c e = Ok (Finite sg c e).
Proof.
  intros Hn He. unfold fix_finite, Etiny, Etop, Emin, Emax, prec in *.
  destruct (c =? 0)%N eqn:Hc.
  - apply N.eqb_eq in Hc as ->. do 2 f_equal. lia.
  - destruct (Z.gtb_spec (ndigits c + e - 28) (999999 - 28 + 1)); [lia|].
    destruct (Z.ltb_spec e (Z.max (ndigits c + e - 28) (-999999 - 28 + 1))); [lia|].
    reflexivity.
Qed.

(** The multiplier in force is the inline word's factor when the lexicon
    has the word, and the fallback otherwise. *)
Lemma parse_value_try_factor lit w k :
  parse_value_try lit w k =
  (d ← Decimal_of_str (clean_number_string lit);
   dec_mul d (default k (asserted_multiplier w))).
Proof.
  unfold parse_value_try, asserted_multiplier.
  destruct (Decimal_of_str (clean_number_string lit)); [|reflexivity].
  cbn [mbind result_bind]. now destruct (if truthy w then _ else _).
Qed.

(** X4.  When the literal reads as the number [c * 10^e] and the
    multiplier in force is [kc * 10^ke], a product of at most 28 digits
    with its exponent within the context's range is returned exactly,
    without rounding: coefficient [c * kc], exponent [e + ke]. *)
Theorem X4_parse_value_exact_product
    (lit : str) (w : option str) (k : Decimal) (c kc : N) (e ke : Z) :
  Decimal_of_str (clean_number_string lit) = Ok (Finite false c e) ->
  default k (asserted_multiplier w) = Finite false kc ke ->
  ndigits (c * kc) <= prec ->
  Etiny <= e + ke <= Etop ->
  parse_value lit w k = Ok (Finite false (c * kc) (e + ke)).
Proof.
  intros Hd Hk Hn He. unfold parse_value.
  rewrite parse_value_try_factor, Hd, Hk. cbn [mbind result_bind dec_mul xorb].
  now rewrite fix_finite_exact.
Qed.

Lemma X4_witness :
  parse_value (py "$1,234.5") (Some (py "Million")) ONE
  = Ok (Finite false (12345 * 1000000) (-1 + 0)).
Proof.
  apply (X4_parse_value_exact_product (py "$1,234.5") (Some (py "Million")) ONE
           12345 1000000 (-1) 0); vm_compute; reflexivity || (split; discriminate) || discriminate.
Defined.

(* ===================================================================== *)
(** ** The multipliers of a scan                                          *)
(* ===================================================================== *)

Lemma dict_get_scale key factor :
  dict_get MULTIPLIERS key = Some factor -> In factor SCALES.
Proof.
  unfold MULTIPLIERS. cbn [dict_get].
  repeat (destruct (str_eqb _ key); [intros [= <-]; vm_compute; tauto|]).
  discriminate.
Qed.

Lemma asserted_multiplier_scale w factor :
  asserted_multiplier w = Some factor -> In factor SCALES.
Proof.
  unfold asserted_multiplier. destruct (truthy w); [apply dict_get_scale|discriminate].
Qed.

Lemma header_multiplier_scale t v :
  header_multiplier MULTIPLIERS t = Some v -> In v SCALES.
Proof.
  unfold MULTIPLIERS. cbn [header_multiplier].
  repeat (destruct (search _ t); [intros [= <-]; vm_compute; tauto|]). discriminate.
Qed.

(** The dictionary built from the header cells numbered from [n] on, on
    top of the entries [acc]: each column reads its own cell. *)
Lemma column_multipliers_from (l : list (option str)) (n : nat)
    (acc : gmap nat Decimal) (col : nat) :
  fold_left (fun (acc : gmap nat Decimal) '(col_idx, header_cell) =>
               if truthy header_cell then
                 match header_multiplier MULTIPLIERS
                         (lower (default [] header_cell)) with
                 | Some multiplier => <[col_idx := multiplier]> acc
                 | None => acc
                 end
               else acc)
            (imap (fun i x => ((n + i)%nat, x)) l) acc !! col
  = match (if decide (n <= col)%nat then l !! (col - n)%nat else None) with
    | Some cell =>
        match column_factor cell with
        | Some multiplier => Some multiplier
        | None => acc !! col
        end
    | None => acc !! col
    end.
Proof.
  revert n acc. induction l as [|cell l IH]; intros n acc.
  - cbn. now destruct (decide _).
  - rewrite imap_cons. cbn [fold_left].
    rewrite (imap_ext _ (fun i x => ((S n + i)%nat, x))) by (intros; cbn; f_equal; lia).
    rewrite IH. clear IH. replace (n + 0)%nat with n by lia.
    unfold column_factor.
    destruct (decide (S n <= col)%nat) as [H1|H1], (decide (n <= col)%nat) as [H2|H2];
      try lia.
    + replace (col - n)%nat with (S (col - S n)) by lia. cbn [lookup list_lookup].
      destruct (l !! (col - S n)%nat) as [cell'|].
      * destruct (if truthy cell' then _ else _); [reflexivity|].
        destruct (truthy cell); [|reflexivity].
        destruct (header_multiplier _ _); [|reflexivity].
        apply lookup_insert_ne. lia.
      * destruct (truthy cell); [|reflexivity].
        destruct (header_multiplier _ _); [|reflexivity].
        apply lookup_insert_ne. lia.
    + assert (col = n) as -> by lia. replace (n - n)%nat with 0%nat by lia.
      cbn [lookup list_lookup].
      destruct (truthy cell); [|reflexivity].
      destruct (header_multiplier _ _); [|reflexivity].
      apply lookup_insert_eq.
    + destruct (truthy cell); [|reflexivity].
      destruct (header_multiplier _ _); [|reflexivity].
      apply lookup_insert_ne. lia.
Qed.

(** X6.  The multiplier recorded for a column is the one its own header
    cell asserts: a column whose header cell is missing, empty or without
    a lexicon word, and any column beyond the header row, has none. *)
Theorem X6_column_multiplier_of_own_header (header_row : Row) (col : nat) :
  column_multipliers_of header_row !! col =
  match header_row !! col with
  | Some header_cell => column_factor header_cell
  | None => None
  end.
Proof.
  unfold column_multipliers_of, enumerate.
  rewrite (column_multipliers_from header_row 0 ∅ col), lookup_empty, Nat.sub_0_r.
  destruct (decide (0 <= col)%nat); [|lia]. unfold Row in *.
  destruct (header_row !! col) as [cell|]; [|reflexivity].
  now destruct (column_factor cell).
Qed.

Lemma column_multipliers_scale (header_row : Row) (col : nat) (v : Decimal) :
  column_multipliers_of header_row !! col = Some v -> In v SCALES.
Proof.
  unfold column_multipliers_of, enumerate.
  rewrite (column_multipliers_from header_row 0 ∅ col), lookup_empty.
  destruct (if decide _ then _ else _) as [cell|]; [|discriminate].
  unfold column_factor. destruct (truthy cell); [|discriminate].
  destruct (header_multiplier _ _) eqn:E; [|discriminate].
  intros [= <-]. eapply header_multiplier_scale; exact E.
Qed.

Lemma scale_finite (d : Decimal) :
  In d SCALES -> exists kc, d = Finite false kc 0.
Proof. unfold SCALES, ONE. cbn [In]. intros H. decompose [or] H; subst; eauto; easy. Qed.

Lemma get_page_level_multiplier_scale page :
  In (get_page_level_multiplier page) SCALES.
Proof.
  unfold get_page_level_multiplier, context_multiplier.
  destruct (extract_words page); [now left|].
  destruct (search _ _); [|now left].
  destruct (asserted_multiplier _) eqn:E; [|now left].
  eapply asserted_multiplier_scale; exact E.
Qed.

Lemma table_context_multiplier_scale page_scale bbox words :
  In page_scale SCALES ->
  In (table_context_multiplier_of page_scale bbox words) SCALES.
Proof.
  intros H. unfold table_context_multiplier_of.
  destruct (search _ _); [|exact H].
  destruct (asserted_multiplier _) eqn:E; [|exact H].
  eapply asserted_multiplier_scale; exact E.
Qed.

Lemma context_mult_of_scale (header_row : Row) col table_scale excluded :
  In table_scale SCALES ->
  In (context_mult_of (column_multipliers_of header_row) col table_scale excluded) SCALES.
Proof.
  intros H. unfold context_mult_of.
  destruct (column_multipliers_of header_row !! col) as [v|] eqn:E; cbn.
  - eapply column_multipliers_scale; exact E.
  - destruct excluded; [now left|exact H].
Qed.

(** X5.  Every fallback multiplier of a scan is 1 or one of the four
    factors of the lexicon: the page-level multiplier always, and with it
    the table scale and the multiplier handed to [parse_value] for a
    cell. *)
Theorem X5_fallback_multipliers_are_scales :
  (forall page, In (get_page_level_multiplier page) SCALES)
  /\ (forall page_scale bbox words,
        In page_scale SCALES ->
        In (table_context_multiplier_of page_scale bbox words) SCALES)
  /\ (forall header_row col table_scale excluded,
        In table_scale SCALES ->
        In (context_mult_of (column_multipliers_of header_row) col table_scale excluded)
           SCALES)
  /\ (forall page bbox header_row col excluded,
        In (context_mult_of (column_multipliers_of header_row) col
              (table_context_multiplier_of (get_page_level_multiplier page) bbox
                                           (extract_words page))
              excluded)
           SCALES).
Proof.
  split_and!.
  - apply get_page_level_multiplier_scale.
  - apply table_context_multiplier_scale.
  - apply context_mult_of_scale.
  - intros. apply context_mult_of_scale, table_context_multiplier_scale,
      get_page_level_multiplier_scale.
Qed.

Lemma X5_witness :
  In (table_context_multiplier_of ONE narrow_box [overhanging_word]) SCALES
  /\ In (context_mult_of (column_multipliers_of (a_row ["Item"; "Amount (millions)"]%string))
                         1 ONE true) SCALES.
Proof.
  destruct X5_fallback_multipliers_are_scales as (_ & Htable & Hcell & _). split.
  - apply Htable. vm_compute. tauto.
  - apply Hcell. vm_compute. tauto.
Defined.

(* ===================================================================== *)
(** ** Header cells and first cells                                       *)
(* ===================================================================== *)

Lemma lang_Lit_exact (t u : str) : lang false (Lit t) u -> u = t.
Proof.
  revert u. induction t as [|c t IH]; intros u; [now intros ->|].
  destruct t as [|c' t'].
  - intros (x & -> & Hx). apply char_eqb_eq in Hx. now subst.
  - intros (u1 & u2 & -> & (x & -> & Hx) & H2). apply char_eqb_eq in Hx. subst x.
    cbn. f_equal. now apply IH.
Qed.

Lemma matches_Lit_exact (w b : str) st :
  rest st = w ++ b ->
  matches false (Lit w) st (MState (rev w ++ seen st) b (caps st)).
Proof.
  revert st. induction w as [|c w IH]; intros [sn rs cp] E; cbn in E; subst rs.
  - cbn. constructor.
  - assert (Hc : matches false (Chr c) (MState sn (c :: w ++ b) cp)
                         (MState (c :: sn) (w ++ b) cp)).
    { eapply M_Chr; [reflexivity|]. now apply char_eqb_eq. }
    destruct w as [|c' w'].
    + exact Hc.
    + change (Lit (c :: c' :: w')) with (Cat (Chr c) (Lit (c' :: w'))).
      eapply M_Cat; [exact Hc|].
      specialize (IH (MState (c :: sn) ((c' :: w') ++ b) cp) eq_refl).
      cbn [seen caps] in IH |- *.
      replace (rev (c :: c' :: w') ++ sn) with (rev (c' :: w') ++ c :: sn); [exact IH|].
      cbn [rev]. now rewrite <- !app_assoc.
Qed.

Lemma boundary_before_word st w b :
  forallb is_word w = true -> w <> [] -> rest st = w ++ b ->
  (at_boundary st = true <-> word_ends_here (seen st)).
Proof.
  intros Hw Hne E. unfold at_boundary, word_ends_here. rewrite E.
  destruct w as [|c w]; [congruence|]. cbn in Hw. apply andb_true_iff in Hw as [Hc _].
  cbn. rewrite Hc. destruct (seen st) as [|x s]; cbn; [tauto|].
  destruct (is_word x); cbn; split; congruence.
Qed.

Lemma boundary_behind_word st w behind :
  forallb is_word w = true -> w <> [] -> seen st = rev w ++ behind ->
  (at_boundary st = true <-> word_ends_here (rest st)).
Proof.
  intros Hw Hne E. unfold at_boundary, word_ends_here. rewrite E.
  destruct (rev w) as [|c r] eqn:Er.
  { apply (f_equal (@rev char)) in Er. rewrite rev_involutive in Er. now subst. }
  assert (Hc : is_word c = true).
  { rewrite forallb_forall in Hw. apply Hw, in_rev. rewrite Er. now left. }
  cbn. rewrite Hc. destruct (rest st) as [|x s]; cbn; [tauto|].
  destruct (is_word x); cbn; split; congruence.
Qed.

Lemma matches_Bnd_inv ic st st' :
  matches ic Bnd st st' -> st' = st /\ at_boundary st = true.
Proof. inversion 1; subst; auto. Qed.

(** The search for a lexicon word between two [\b] finds it exactly when
    the word stands in the text as a whole word. *)
Lemma search_whole_word (w t : str) :
  forallb is_word w = true -> w <> [] ->
  (search (whole_word w) t <> None <-> occurs_whole w t).
Proof.
  intros Hw Hne. split.
  - destruct (search (whole_word w) t) as [m|] eqn:Hs; [intros _|congruence].
    apply search_is_leftmost in Hs as (before & after & -> & _ & Hm & _).
    cbn [whole_word re_ignorecase re_tree] in Hm.
    apply matches_Cat_inv in Hm as (s1 & [-> Hb1]%matches_Bnd_inv & Hm).
    apply matches_Cat_inv in Hm as (s2 & Hm & [_ Hb2]%matches_Bnd_inv).
    apply matches_span_lang in Hm as (u & [Hseen Hrest] & ->%lang_Lit_exact).
    cbn [start_state seen rest] in Hseen, Hrest.
    exists before, (rest s2). split_and!.
    + now rewrite Hrest.
    + eapply (boundary_before_word _ w (rest s2)) in Hb1; eauto.
    + eapply (boundary_behind_word _ w (rev before)) in Hb2; eauto.
  - intros (a & b & -> & Ha & Hb) Hs.
    pose proof (search_from_none _ _ _ Hs a (w ++ b) eq_refl) as Hn.
    rewrite app_nil_r in Hn.
    apply (match_at_complete _ _ _ (MState (rev w ++ rev a) b [])) in Hn.
    apply Hn. cbn [whole_word re_ignorecase re_tree start_state re_ngroups replicate].
    eapply M_Cat; [apply M_Bnd|eapply M_Cat; [|apply M_Bnd]].
    + eapply (boundary_before_word _ w b); eauto.
    + exact (matches_Lit_exact w b (MState (rev a) (w ++ b) []) eq_refl).
    + eapply (boundary_behind_word _ w (rev a)); eauto.
Qed.

Lemma header_multiplier_first (d : list (str * Decimal)) (t : str) (v : Decimal) :
  Forall (fun e => forallb is_word (fst e) = true /\ fst e <> []) d ->
  (header_multiplier d t = Some v <->
   exists d1 w d2,
     d = d1 ++ (w, v) :: d2 /\ occurs_whole w t
     /\ forall w' v', In (w', v') d1 -> ~ occurs_whole w' t).
Proof.
  induction 1 as [|[w0 v0] d [Hw Hne] Hd IH]; cbn [header_multiplier fst] in *.
  - split; [discriminate|]. intros (d1 & w & d2 & E & _). now destruct d1.
  - pose proof (search_whole_word w0 t Hw Hne) as Hs.
    destruct (search (whole_word w0) t) as [m|].
    + split.
      * intros [= <-]. exists [], w0, d. split_and!; [reflexivity| |intros ? ? []].
        apply Hs. discriminate.
      * intros (d1 & w & d2 & E & Hocc & Hnot). destruct d1 as [|[w1 v1] d1].
        -- now injection E as _ <- _.
        -- injection E as <- <- _. destruct (Hnot w0 v0); [now left|]. apply Hs. discriminate.
    + rewrite IH. split.
      * intros (d1 & w & d2 & -> & Hocc & Hnot).
        exists ((w0, v0) :: d1), w, d2. split_and!; [reflexivity|exact Hocc|].
        intros w' v' [[= <- <-]|Hin]; [|eapply Hnot; exact Hin].
        intros Ho. apply Hs in Ho. congruence.
      * intros (d1 & w & d2 & E & Hocc & Hnot). destruct d1 as [|[w1 v1] d1].
        -- injection E as <- <- _. apply Hs in Hocc. congruence.
        -- injection E as <- <- ->. exists d1, w, d2. split_and!; [reflexivity|exact Hocc|].
           intros w' v' Hin. apply (Hnot w' v'). now right.
Qed.

Lemma MULTIPLIERS_words :
  Forall (fun e : str * Decimal => forallb is_word (fst e) = true /\ fst e <> [])
         MULTIPLIERS.
Proof. unfold MULTIPLIERS. repeat constructor; cbn; discriminate. Qed.

(** X7.  A header cell asserts the multiplier of the first lexicon word,
    in the order of the lexicon, that stands in the lower-cased cell as a
    whole word (no word character right before or after it); the place
    of the word in the cell plays no part, and a cell in which no lexicon
    word stands whole asserts none. *)
Theorem X7_header_word_first_in_lexicon_order (header_text_lower : str) :
  (forall v,
      header_multiplier MULTIPLIERS header_text_lower = Some v <->
      exists d1 w d2,
        MULTIPLIERS = d1 ++ (w, v) :: d2 /\ occurs_whole w header_text_lower
        /\ forall w' v', In (w', v') d1 -> ~ occurs_whole w' header_text_lower)
  /\ (header_multiplier MULTIPLIERS header_text_lower = None <->
      forall w v, In (w, v) MULTIPLIERS -> ~ occurs_whole w header_text_lower).
Proof.
  split.
  - intros v. apply header_multiplier_first, MULTIPLIERS_words.
  - split.
    + intros Hn w v Hin Ho.
      apply in_split in Hin as (d1 & d2 & E).
      assert (Hex : exists v', header_multiplier MULTIPLIERS header_text_lower = Some v').
      { clear Hn. revert E Ho. generalize MULTIPLIERS_words.
        generalize MULTIPLIERS as d. intros d Hd. revert d1.
        induction Hd as [|[w0 v0] d [Hw Hne] Hd IH]; intros d1 E Ho.
        - now destruct d1.
        - cbn [header_multiplier].
          destruct (search (whole_word w0) header_text_lower) eqn:Hs; [eauto|].
          destruct d1 as [|e d1].
          + injection E as <- <- _. cbn [fst] in *.
            apply (search_whole_word w0 _ Hw Hne) in Ho. congruence.
          + injection E as _ E. eapply IH; eauto. }
      destruct Hex as (v' & Hv'). congruence.
    + intros Hnot. destruct (header_multiplier MULTIPLIERS header_text_lower) as [v|] eqn:E;
        [|reflexivity].
      apply (header_multiplier_first _ _ _ MULTIPLIERS_words) in E
        as (d1 & w & d2 & Ed & Ho & _).
      destruct (Hnot w v); [|exact Ho]. rewrite Ed. apply in_elt.
Qed.

Lemma starts_with_spec (p t : str) : starts_with p t = true <-> exists b, t = p ++ b.
Proof.
  revert t. induction p as [|x p IH]; intros t; cbn.
  - split; eauto.
  - destruct t as [|y t].
    + split; [discriminate|]. now intros (b & ?).
    + rewrite andb_true_iff, char_eqb_eq, IH. split.
      * intros [-> (b & ->)]. eauto.
      * intros (b & [= -> ->]). eauto.
Qed.

Lemma contains_spec (kw t : str) : contains kw t = true <-> substring kw t.
Proof.
  unfold substring. induction t as [|c t IH]; cbn [contains];
    rewrite orb_true_iff, starts_with_spec.
  - split.
    + intros [(b & E)|]; [|discriminate]. exists [], b. exact E.
    + intros (a & b & E). left. destruct a; [eauto|discriminate].
  - rewrite IH. split.
    + intros [(b & E)|(a & b & ->)]; [exists [], b; exact E|exists (c :: a), b; reflexivity].
    + intros (a & b & E). destruct a as [|x a]; [left; eauto|].
      injection E as -> ->. right. eauto.
Qed.

Lemma lower_app (a b : str) : lower (a ++ b) = lower a ++ lower b.
Proof. unfold lower. now rewrite map_app, concat_app. Qed.

(** X8.  A row is excluded exactly when one of the exclusion keywords
    occurs somewhere in its lower-cased first cell: the keyword need not
    be a word of its own, and its letter case in the cell plays no
    part. *)
Theorem X8_row_excluded_by_substring (first_cell : str) :
  (is_excluded first_cell = true <->
   exists kw, In kw ROW_EXCLUSION_KEYWORDS /\ substring kw (lower first_cell))
  /\ (forall a u b : str,
        first_cell = a ++ u ++ b -> In (lower u) ROW_EXCLUSION_KEYWORDS ->
        is_excluded first_cell = true).
Proof.
  assert (H : is_excluded first_cell = true <->
              exists kw, In kw ROW_EXCLUSION_KEYWORDS /\ substring kw (lower first_cell)).
  { unfold is_excluded. rewrite existsb_exists.
    split; intros (kw & Hin & Hc); exists kw; (split; [exact Hin|]); now apply contains_spec. }
  split; [exact H|]. intros a u b -> Hin. apply H. exists (lower u). split; [exact Hin|].
  exists (lower a), (lower b). now rewrite !lower_app.
Qed.

Lemma X8_witness : is_excluded (py "CORPORATE bonds") = true.
Proof.
  destruct (X8_row_excluded_by_substring (py "CORPORATE bonds")) as [_ H].
  apply (H (py "CORPO") (py "RATE") (py " bonds")); vm_compute; auto 10.
Defined.

(* ===================================================================== *)
(** ** The report of a scan                                               *)
(* ===================================================================== *)

(** *** Where the running maximum comes from *)

(** A loop whose turns either leave the state alone or establish [Q] of
    their element ends in the state it began with, or in one of which
    [Q] holds for some element. *)
Lemma for_each_origin {A S : Type} (Q : A -> S -> Prop)
    (body : S -> A -> result S) (xs : list A) :
  (forall st x st', In x xs -> body st x = Ok st' -> st' = st \/ Q x st') ->
  forall st st', for_each xs body st = Ok st' ->
    st' = st \/ exists x, In x xs /\ Q x st'.
Proof.
  induction xs as [|x xs IH]; intros Hb st st'; cbn [for_each].
  - intros [= <-]. now left.
  - destruct (body st x) as [st1|e] eqn:E; cbn; [|discriminate]. intros H.
    destruct (IH (fun s y s' Hy => Hb s y s' (or_intror Hy)) _ _ H)
      as [->|(y & Hy & HQ)].
    + destruct (Hb st x st1 (or_introl eq_refl) E) as [->|HQ]; [now left|].
      right. exists x. split; [now left|exact HQ].
    + right. exists y. split; [now right|exact HQ].
Qed.

(** A loop that meets an element on which the body raises whatever the
    state raises as well. *)
Lemma for_each_raises {A S : Type} (body : S -> A -> result S) (xs : list A) (x : A) :
  In x xs -> (forall st, exists e, body st x = Raise e) ->
  forall st, exists e, for_each xs body st = Raise e.
Proof.
  intros Hin Hx. induction xs as [|y xs IH]; [destruct Hin|]. intros st.
  cbn [for_each]. destruct Hin as [->|Hin].
  - destruct (Hx st) as (e & ->). eauto.
  - destruct (body st y) as [st1|e]; cbn; [apply IH, Hin|eauto].
Qed.

Lemma process_match_origin page_num resolve st m st' :
  process_match page_num resolve st m = Ok st' ->
  st' = st
  \/ exists lit mw v,
       groups m = [Some lit; mw] /\ resolve lit mw = Ok v /\ st' = ScanState v page_num.
Proof.
  unfold process_match.
  destruct (groups m) as [|[lit|] [|mw [|? ?]]]; try discriminate.
  destruct (resolve lit mw) as [v|e] eqn:E; cbn; [|discriminate].
  intros [[-> _]|[-> _]]%update_max_cases; [right|now left].
  exists lit, mw, v. auto.
Qed.

Lemma tokens_origin page_num fallback (t : str) st st' :
  for_each (finditer NUMBER_RE t)
    (process_match page_num (fun n w => parse_value n w fallback)) st = Ok st' ->
  st' = st \/ (max_page st' = page_num /\ token_value fallback t (max_value st')).
Proof.
  intros H.
  apply (for_each_origin
           (fun m s => exists lit mw v,
                groups m = [Some lit; mw] /\ parse_value lit mw fallback = Ok v
                /\ s = ScanState v page_num)) in H.
  - destruct H as [->|(m & Hm & lit & mw & v & Hg & Hv & ->)]; [now left|right].
    split; [reflexivity|]. exists m, lit, mw. auto.
  - intros s m s' _ Hs. now apply process_match_origin in Hs.
Qed.

Lemma tokens_cover page_num fallback (t : str) st st' v :
  for_each (finditer NUMBER_RE t)
    (process_match page_num (fun n w => parse_value n w fallback)) st = Ok st' ->
  token_value fallback t v -> dec_le v (max_value st').
Proof.
  intros H (m & lit & mw & Hm & Hg & Hv).
  destruct (matches_cover _ _ _ _ _ H m Hm) as (lit' & mw' & v' & Hg' & Hv' & Hle).
  rewrite Hg in Hg'. injection Hg' as <- <-. cbv beta in Hv'.
  rewrite Hv in Hv'. now injection Hv' as <-.
Qed.

Lemma token_value_nonempty fallback (t : str) v : token_value fallback t v -> t <> [].
Proof.
  intros (m & _ & _ & Hm & _) ->. now rewrite finditer_NUMBER_RE_nil in Hm.
Qed.

(** The loop over the tokens of a cell, as [process_cell] runs it. *)
Lemma process_cell_tokens page_num cm tcm excl st col (cell : str) :
  process_cell page_num cm tcm excl st (col, Some cell) =
  for_each (finditer NUMBER_RE cell)
    (process_match page_num
       (fun n w => parse_value n w (effective_fallback cm col tcm excl))) st.
Proof.
  unfold process_cell. destruct cell as [|c cell].
  - cbn [truthy]. now rewrite finditer_NUMBER_RE_nil.
  - cbn [truthy]. change (default [] (Some (c :: cell))) with (c :: cell).
    apply for_each_ext. intros s m. apply process_match_ext. intros n w.
    cbv zeta. now rewrite context_mult_of_spec.
Qed.

Lemma process_row_cells page_num cm tcm st (row : Row) :
  has_first_cell row ->
  process_row page_num cm tcm st row =
  for_each (enumerate row) (process_cell page_num cm tcm (row_excluded row)) st.
Proof. destruct row as [|[[|c first]|] cells]; now intros []. Qed.

Lemma process_row_skips page_num cm tcm st (row : Row) :
  ~ has_first_cell row -> process_row page_num cm tcm st row = Ok st.
Proof. destruct row as [|[[|c first]|] cells]; cbn; tauto. Qed.

Lemma has_first_cell_dec (row : Row) : has_first_cell row \/ ~ has_first_cell row.
Proof. destruct row as [|[[|c first]|] cells]; cbn; tauto. Qed.

Lemma process_row_origin page_num cm tcm st (row : Row) st' :
  process_row page_num cm tcm st row = Ok st' ->
  st' = st
  \/ (max_page st' = page_num /\ has_first_cell row
      /\ exists (col : nat) (cell : str),
           row !! col = Some (Some cell)
           /\ token_value (effective_fallback cm col tcm (row_excluded row)) cell
                          (max_value st')).
Proof.
  destruct (has_first_cell_dec row) as [Hf|Hf].
  - rewrite (process_row_cells _ _ _ _ _ Hf). intros H.
    apply (for_each_origin
             (fun (ic : nat * option str) s =>
                max_page s = page_num
                /\ exists cell : str,
                     snd ic = Some cell
                     /\ token_value (effective_fallback cm (fst ic) tcm (row_excluded row))
                                    cell (max_value s))) in H.
    + destruct H as [->|([col oc] & Hin & Hp & cell & Hc & Hv)]; [now left|right].
      cbn [fst snd] in *. subst oc. apply In_enumerate in Hin. eauto 6.
    + intros s [col [cell|]] s' _ Hs.
      * rewrite process_cell_tokens in Hs. apply tokens_origin in Hs as [->|[Hp Hv]];
          [now left|right]. cbn [fst snd]. eauto.
      * cbn in Hs. injection Hs as <-. now left.
  - rewrite (process_row_skips _ _ _ _ _ Hf). intros [= <-]. now left.
Qed.

Lemma process_row_cover page_num cm tcm st (row : Row) st' col (cell : str) v :
  process_row page_num cm tcm st row = Ok st' ->
  has_first_cell row -> row !! col = Some (Some cell) ->
  token_value (effective_fallback cm col tcm (row_excluded row)) cell v ->
  dec_le v (max_value st').
Proof.
  intros H Hf Hcol Hv. rewrite (process_row_cells _ _ _ _ _ Hf) in H.
  pose proof (for_each_covers advances
    (fun (ic : nat * option str) s =>
       forall (cell : str) v,
         snd ic = Some cell ->
         token_value (effective_fallback cm (fst ic) tcm (row_excluded row)) cell v ->
         dec_le v (max_value s))
    (process_cell page_num cm tcm (row_excluded row)) (enumerate row)) as Hcov.
  eapply (Hcov _ _ st st' H (col, Some cell)); [now apply In_enumerate|reflexivity|exact Hv].
  Unshelve.
  - intros s [c oc] s' _ Hs. split; [eapply process_cell_advances; exact Hs|].
    cbn [fst snd]. intros cl w -> Hw. rewrite process_cell_tokens in Hs.
    eapply tokens_cover; eassumption.
  - intros ic s s' HP Hadv cl w Hc Hw. eapply dec_le_advances; [|exact Hadv]. eauto.
Qed.

(** A table the scanner reads: its header row is not empty and a box was
    detected for it. *)
Lemma process_table_rows page page_num pcm st t_idx (header : Row) data_rows bbox :
  header <> [] -> find_tables page !! t_idx = Some bbox ->
  process_table page page_num pcm st (t_idx, header :: data_rows) =
  for_each data_rows
    (process_row page_num (column_multipliers_of header)
       (table_context_multiplier_of pcm bbox (extract_words page))) st.
Proof.
  intros Hh Hb. unfold process_table. destruct header as [|h header]; [easy|].
  now rewrite Hb.
Qed.

Lemma process_table_origin page page_num pcm st t_idx (table : Table) st' :
  process_table page page_num pcm st (t_idx, table) = Ok st' ->
  st' = st
  \/ (max_page st' = page_num
      /\ exists (header : Row) (data_rows : list Row) (bbox : BBox)
               (row : Row) (col : nat) (cell : str),
           table = header :: data_rows /\ header <> []
           /\ find_tables page !! t_idx = Some bbox
           /\ In row data_rows /\ has_first_cell row
           /\ row !! col = Some (Some cell)
           /\ token_value
                (effective_fallback (column_multipliers_of header) col
                   (table_context_multiplier_of pcm bbox (extract_words page))
                   (row_excluded row))
                cell (max_value st')).
Proof.
  destruct table as [|[|h header] data_rows]; try (intros [= <-]; now left).
  destruct (find_tables page !! t_idx) as [bbox|] eqn:Hb.
  2:{ unfold process_table. now rewrite Hb. }
  rewrite (process_table_rows _ _ _ _ _ _ _ bbox) by easy. intros H.
  apply (for_each_origin
           (fun (row : Row) s =>
              max_page s = page_num /\ has_first_cell row
              /\ exists (col : nat) (cell : str),
                   row !! col = Some (Some cell)
                   /\ token_value
                        (effective_fallback (column_multipliers_of (h :: header)) col
                           (table_context_multiplier_of pcm bbox (extract_words page))
                           (row_excluded row))
                        cell (max_value s))) in H.
  - destruct H as [->|(row & Hin & Hp & Hf & col & cell & Hc & Hv)]; [now left|right].
    split; [exact Hp|]. exists (h :: header), data_rows, bbox, row, col, cell.
    split_and!; try assumption; easy.
  - intros s row s' _ Hs. now apply process_row_origin in Hs.
Qed.

Lemma process_table_cover page page_num pcm st t_idx (header : Row) data_rows st'
    bbox (row : Row) col (cell : str) v :
  process_table page page_num pcm st (t_idx, header :: data_rows) = Ok st' ->
  header <> [] -> find_tables page !! t_idx = Some bbox ->
  In row data_rows -> has_first_cell row -> row !! col = Some (Some cell) ->
  token_value
    (effective_fallback (column_multipliers_of header) col
       (table_context_multiplier_of pcm bbox (extract_words page)) (row_excluded row))
    cell v ->
  dec_le v (max_value st').
Proof.
  intros H Hh Hb Hrow Hf Hcol Hv.
  rewrite (process_table_rows _ _ _ _ _ _ _ bbox Hh Hb) in H.
  pose proof (for_each_covers advances
    (fun (r : Row) s =>
       has_first_cell r ->
       forall col (cell : str) v,
         r !! col = Some (Some cell) ->
         token_value
           (effective_fallback (column_multipliers_of header) col
              (table_context_multiplier_of pcm bbox (extract_words page))
              (row_excluded r))
           cell v ->
         dec_le v (max_value s))
    (process_row page_num (column_multipliers_of header)
       (table_context_multiplier_of pcm bbox (extract_words page))) data_rows) as Hcov.
  eapply (Hcov _ _ st st' H row Hrow Hf col cell v Hcol Hv).
  Unshelve.
  - intros s r s' _ Hs. split; [eapply process_row_advances; exact Hs|].
    intros Hr c cl w Hc Hw. eapply process_row_cover; eassumption.
  - intros r s s' HP Hadv Hr c cl w Hc Hw. eapply dec_le_advances; [|exact Hadv]. eauto.
Qed.

Lemma process_page_origin st i page st' :
  process_page st (i, page) = Ok st' ->
  st' = st \/ (max_page st' = Z.of_nat i + 1 /\ page_value page (max_value st')).
Proof.
  unfold process_page.
  destruct (for_each (enumerate (extract_tables page)) _ st) as [st1|e] eqn:E; cbn;
    [|discriminate].
  intros Hfree.
  assert (Hfree' : st' = st1
                   \/ (max_page st' = Z.of_nat i + 1
                       /\ free_text_value page (max_value st'))).
  { unfold process_non_table in Hfree. unfold free_text_value.
    destruct (non_table_text page) as [|c t]; [injection Hfree as <-; now left|].
    now apply tokens_origin in Hfree. }
  destruct Hfree' as [->|[Hp Hv]]; [|right; split; [exact Hp|now right]].
  apply (for_each_origin
           (fun (it : nat * Table) s =>
              max_page s = Z.of_nat i + 1 /\ cell_value page (max_value s))) in E.
  - destruct E as [->|(it & _ & Hp & Hv)]; [now left|right]. split; [exact Hp|now left].
  - intros s [t_idx table] s' Hin Hs. apply In_enumerate in Hin.
    apply process_table_origin in Hs
      as [->|(Hp & header & rows & bbox & row & col & cell & -> & Hh & Hb & Hr & Hf & Hc & Hv)];
      [now left|right].
    split; [exact Hp|]. exists t_idx, header, rows, bbox, row, col, cell. auto 10.
Qed.

Lemma process_page_cover st i page st' v :
  process_page st (i, page) = Ok st' -> page_value page v -> dec_le v (max_value st').
Proof.
  unfold process_page.
  destruct (for_each (enumerate (extract_tables page)) _ st) as [st1|e] eqn:E; cbn;
    [|discriminate].
  intros Hfree [Hv|Hv].
  - eapply dec_le_advances; [|eapply process_non_table_advances; exact Hfree].
    destruct Hv as (t_idx & header & rows & bbox & row & col & cell
                    & Ht & Hh & Hb & Hr & Hf & Hc & Hv).
    pose proof (for_each_covers advances
      (fun (it : nat * Table) s =>
         forall header rows bbox (row : Row) col (cell : str) v,
           snd it = header :: rows -> header <> [] ->
           find_tables page !! fst it = Some bbox ->
           In row rows -> has_first_cell row -> row !! col = Some (Some cell) ->
           token_value
             (effective_fallback (column_multipliers_of header) col
                (table_context_multiplier_of (get_page_level_multiplier page) bbox
                                             (extract_words page))
                (row_excluded row))
             cell v ->
           dec_le v (max_value s))
      (process_table page (Z.of_nat i + 1) (get_page_level_multiplier page))
      (enumerate (extract_tables page))) as Hcov.
    eapply (Hcov _ _ st st1 E (t_idx, header :: rows));
      [now apply In_enumerate|reflexivity|exact Hh|exact Hb|exact Hr|exact Hf|exact Hc
      |exact Hv].
    Unshelve.
    + intros s [ti tb] s' _ Hs. split; [eapply process_table_advances; exact Hs|].
      cbn [fst snd]. intros hd rs bb r c cl w -> Hhd Hbb Hrs Hfr Hcl Hw.
      eapply process_table_cover; eassumption.
    + intros it s s' HP Hadv hd rs bb r c cl w Htb Hhd Hbb Hrs Hfr Hcl Hw.
      eapply dec_le_advances; [|exact Hadv]. eauto.
  - unfold free_text_value in Hv. unfold process_non_table in Hfree.
    pose proof (token_value_nonempty _ _ _ Hv) as Hne.
    destruct (non_table_text page) as [|c t]; [easy|].
    eapply tokens_cover; eassumption.
Qed.

(** The scan of a run of numbered pages from any running maximum. *)
Lemma pages_origin (l : list (nat * Page)) st st' :
  for_each l process_page st = Ok st' ->
  st' = st
  \/ exists i page,
       In (i, page) l /\ max_page st' = Z.of_nat i + 1
       /\ page_value page (max_value st').
Proof.
  intros H.
  apply (for_each_origin
           (fun (ip : nat * Page) s =>
              max_page s = Z.of_nat (fst ip) + 1 /\ page_value (snd ip) (max_value s)))
    in H.
  - destruct H as [->|([i page] & Hin & Hp & Hv)]; [now left|right]. eauto.
  - intros s [i page] s' _ Hs. now apply process_page_origin in Hs.
Qed.

Lemma pages_cover (l : list (nat * Page)) st st' i page v :
  for_each l process_page st = Ok st' ->
  In (i, page) l -> page_value page v -> dec_le v (max_value st').
Proof.
  intros H Hin Hv.
  pose proof (for_each_covers advances
    (fun (ip : nat * Page) s => forall v, page_value (snd ip) v -> dec_le v (max_value s))
    process_page l) as Hcov.
  eapply (Hcov _ _ st st' H (i, page) Hin v Hv).
  Unshelve.
  - intros s [j p] s' _ Hs. split; [eapply process_page_advances; exact Hs|].
    intros w Hw. eapply process_page_cover; eassumption.
  - intros ip s s' HP Hadv w Hw. eapply dec_le_advances; [|exact Hadv]. eauto.
Qed.

Lemma pages_advance (l : list (nat * Page)) st st' :
  for_each l process_page st = Ok st' -> advances st st'.
Proof.
  apply for_each_preserves; try typeclasses eauto.
  intros s ip s' _. apply process_page_advances.
Qed.

(** What a report of a value says about the scan. *)
Lemma report_some pages v p :
  find_highest_value_in_pdf pages = Ok (Some (v, p)) ->
  scan_pages pages = Ok (ScanState v p) /\ ScanState v p <> initial_state.
Proof.
  unfold find_highest_value_in_pdf.
  destruct (scan_pages pages) as [[mv mp]|e] eqn:E; [|discriminate]. cbn [max_value max_page].
  destruct (dec_eq mv NEG_INFINITY) as [[]|e] eqn:Hq; cbn; try discriminate.
  intros [= <- <-]. split; [reflexivity|]. intros [= -> ->]. discriminate Hq.
Qed.

Lemma token_value_sign fallback (t : str) v :
  In fallback SCALES -> token_value fallback t v -> exists c e, v = Finite false c e.
Proof.
  intros Hk (m & lit & mw & Hm & Hg & Hv).
  apply token_literal_parses in Hm as (lit' & mw' & c & e & Hg' & Hd).
  rewrite Hg in Hg'. injection Hg' as <- <-.
  assert (Hf : exists kc, default fallback (asserted_multiplier mw) = Finite false kc 0).
  { apply scale_finite. destruct (asserted_multiplier mw) eqn:E; cbn; [|exact Hk].
    eapply asserted_multiplier_scale; exact E. }
  destruct Hf as (kc & Hf). unfold parse_value in Hv.
  rewrite parse_value_try_factor, Hd, Hf in Hv. cbn [mbind result_bind dec_mul xorb] in Hv.
  destruct (fix_finite_cases false (c * kc) (e + 0)) as [(c' & e' & E)|E];
    rewrite E in Hv; [|discriminate]. injection Hv as <-. eauto.
Qed.

Lemma page_value_sign page v : page_value page v -> exists c e, v = Finite false c e.
Proof.
  intros [(t_idx & header & rows & bbox & row & col & cell & _ & _ & _ & _ & _ & _ & Hv)|Hv].
  - eapply token_value_sign; [|exact Hv]. rewrite <- context_mult_of_spec.
    apply context_mult_of_scale, table_context_multiplier_scale,
      get_page_level_multiplier_scale.
  - eapply token_value_sign; [|exact Hv]. now left.
Qed.

(** X9.  [find_highest_value_in_pdf] never raises, and a value it reports
    is a finite decimal that is not negative, with a page number between
    1 and the number of pages. *)
Theorem X9_report_is_well_formed (pages : list Page) :
  (exists r, find_highest_value_in_pdf pages = Ok r)
  /\ (forall v p,
        find_highest_value_in_pdf pages = Ok (Some (v, p)) ->
        (exists c e, v = Finite false c e) /\ 1 <= p <= Z.of_nat (length pages)).
Proof.
  split.
  - destruct (scan_pages pages) as [st|e] eqn:E.
    + destruct (completed_scan_report _ _ E) as [[_ ->]|(sg & c & e & _ & ->)]; eauto.
    + unfold find_highest_value_in_pdf. rewrite E. eauto.
  - intros v p [Hs Hne]%report_some. unfold scan_pages in Hs.
    apply pages_origin in Hs as [Hs|(i & page & Hin & Hp & Hv)]; [easy|].
    cbn [max_value max_page] in *. split; [eapply page_value_sign; exact Hv|].
    apply In_enumerate, lookup_lt_Some in Hin. lia.
Qed.

Lemma X9_witness :
  (exists c e, ZERO = Finite false c e) /\ 1 <= 1 <= Z.of_nat (length [page_zero]).
Proof.
  destruct (X9_report_is_well_formed [page_zero]) as [_ H]. apply H.
  vm_compute. reflexivity.
Defined.

(** X10.  A table with a non-empty header row for which no box was
    detected (its index is past the end of [find_tables]) stops the scan
    with an IndexError, which the function catches: the whole document is
    reported as not found, whatever its other pages hold. *)
Theorem X10_table_without_box_reports_nothing
    (pages : list Page) (i : nat) (page : Page) (t_idx : nat)
    (header : Row) (data_rows : list Row) :
  pages !! i = Some page ->
  extract_tables page !! t_idx = Some (header :: data_rows) ->
  header <> [] ->
  find_tables page !! t_idx = None ->
  find_highest_value_in_pdf pages = Ok None.
Proof.
  intros Hp Ht Hh Hb.
  assert (Hr : forall st, exists e, process_page st (i, page) = Raise e).
  { intros st. unfold process_page.
    destruct (for_each_raises (process_table page (Z.of_nat i + 1)
                                 (get_page_level_multiplier page))
                (enumerate (extract_tables page)) (t_idx, header :: data_rows))
      with (st := st) as (e & ->); [now apply In_enumerate| |cbn; eauto].
    intros s. unfold process_table. destruct header as [|h header]; [easy|].
    rewrite Hb. eauto. }
  destruct (for_each_raises process_page (enumerate pages) (i, page))
    with (st := initial_state) as (e & He); [now apply In_enumerate|exact Hr|].
  unfold find_highest_value_in_pdf, scan_pages. now rewrite He.
Qed.

Lemma X10_witness :
  find_highest_value_in_pdf [page_three_values; page_unboxed_table] = Ok None.
Proof.
  apply (X10_table_without_box_reports_nothing [page_three_values; page_unboxed_table]
           1 page_unboxed_table 0 (a_row ["Item"; "Amount"]%string)
           [a_row ["Fees"; "700000"]%string]).
  - reflexivity.
  - reflexivity.
  - discriminate.
  - reflexivity.
Defined.

Lemma In_lookup {A : Type} (x : A) (xs : list A) : In x xs -> exists i, xs !! i = Some x.
Proof. intros H. now apply list_elem_of_lookup_1, list_elem_of_In. Qed.

Lemma finite_above_initial c e : ~ dec_le (Finite false c e) NEG_INFINITY.
Proof. intros [H|H]; discriminate H. Qed.

(** X11.  A reported value is the largest value the document offers: it
    is the value of a number token of the reported page (of a scanned
    table cell, resolved with the multiplier of that cell, or of the free
    text, resolved with 1), and no token of any page has a greater
    value. *)
Theorem X11_reported_value_is_the_maximum (pages : list Page) (v : Decimal) (p : Z) :
  find_highest_value_in_pdf pages = Ok (Some (v, p)) ->
  (exists i page, pages !! i = Some page /\ p = Z.of_nat i + 1 /\ page_value page v)
  /\ (forall page v', In page pages -> page_value page v' -> dec_le v' v).
Proof.
  intros [Hs Hne]%report_some. unfold scan_pages in Hs. split.
  - apply pages_origin in Hs as [Hs|(i & page & Hin & Hp & Hv)]; [easy|].
    exists i, page. apply In_enumerate in Hin. auto.
  - intros page v' [i Hi]%In_lookup Hv.
    apply (pages_cover _ _ _ i page v' Hs); [now apply In_enumerate|exact Hv].
Qed.

Lemma X11_witness :
  (exists i page,
      [page_three_values] !! i = Some page /\ 1 = Z.of_nat i + 1
      /\ page_value page (Finite false 250000 0))
  /\ (forall page v', In page [page_three_values] -> page_value page v' ->
                      dec_le v' (Finite false 250000 0)).
Proof.
  apply (X11_reported_value_is_the_maximum [page_three_values] (Finite false 250000 0) 1).
  vm_compute. reflexivity.
Defined.

(** X12.  The reported page is the first page that offers the reported
    value: every token of an earlier page has a strictly smaller value. *)
Theorem X12_reported_page_is_the_earliest
    (pages : list Page) (v : Decimal) (p : Z) (i : nat) (page : Page) (v' : Decimal) :
  find_highest_value_in_pdf pages = Ok (Some (v, p)) ->
  pages !! i = Some page -> Z.of_nat i + 1 < p -> page_value page v' ->
  dec_compare v' v = Some Lt.
Proof.
  intros [Hs Hne]%report_some Hi Hlt Hv. unfold scan_pages, enumerate in Hs.
  rewrite <- (take_drop (S i) pages), imap_app, for_each_app in Hs.
  destruct (for_each (imap (fun i x => (i, x)) (take (S i) pages)) process_page initial_state)
    as [st1|e] eqn:E1; cbn [mbind result_bind] in Hs; [|discriminate].
  assert (Hle : dec_le v' (max_value st1)).
  { apply (pages_cover _ _ _ i page v' E1); [|exact Hv].
    apply (In_enumerate (take (S i) pages)). rewrite lookup_take_lt by lia. exact Hi. }
  apply pages_advance in Hs as [Hs|Hgt].
  - subst st1. apply pages_origin in E1 as [E1|(j & q & Hin & Hp & _)]; [easy|].
    apply (In_enumerate (take (S i) pages)), lookup_lt_Some in Hin.
    rewrite length_take in Hin. cbn [max_page] in Hp. lia.
  - cbn [max_value] in Hgt. eapply dec_le_lt_trans; eassumption.
Qed.

Lemma X12_witness : dec_compare ZERO (Finite false 500000000 0) = Some Lt.
Proof.
  apply (X12_reported_page_is_the_earliest [page_zero; page_free_text]
           (Finite false 500000000 0) 2 0 page_zero ZERO).
  - vm_compute. reflexivity.
  - reflexivity.
  - reflexivity.
  - right. exists first_zero_token, (py "0"), None.
    split_and!; [vm_compute; now left|reflexivity|vm_compute; reflexivity].
Defined.

(** X13.  A completed scan reports not found exactly when the document
    offers no value at all: no token in a scanned table cell and none in
    the free text of any page. *)
Theorem X13_not_found_iff_no_token (pages : list Page) (st : scan_state) :
  scan_pages pages = Ok st ->
  (find_highest_value_in_pdf pages = Ok None <->
   forall page v, In page pages -> ~ page_value page v).
Proof.
  intros Hs. split.
  - intros Hn page v [i Hi]%In_lookup Hv.
    destruct (completed_scan_report _ _ Hs) as [[-> _]|(sg & c & e & _ & E)];
      [|congruence].
    unfold scan_pages in Hs.
    pose proof (pages_cover _ _ _ i page v Hs) as Hle.
    destruct (page_value_sign _ _ Hv) as (c & e & ->).
    apply (finite_above_initial c e), Hle; [now apply In_enumerate|exact Hv].
  - intros Hnone. destruct (completed_scan_report _ _ Hs) as [[_ E]|(sg & c & e & Hf & E)];
      [exact E|].
    unfold scan_pages in Hs.
    apply pages_origin in Hs as [->|(i & page & Hin & _ & Hv)]; [discriminate Hf|].
    destruct (Hnone page (max_value st)); [|exact Hv].
    apply In_enumerate in Hin. apply list_elem_of_In. eapply list_elem_of_lookup_2; exact Hin.
Qed.

Lemma X13_witness :
  find_highest_value_in_pdf [page_blank] = Ok None <->
  forall page v, In page [page_blank] -> ~ page_value page v.
Proof.
  apply (X13_not_found_iff_no_token [page_blank] initial_state). vm_compute. reflexivity.
Defined.

(* ===================================================================== *)
(** ** Words and table boxes                                              *)
(* ===================================================================== *)

Lemma SFcompare_irrefl (x : spec_float) : SFcompare x x <> Some Lt.
Proof.
  destruct x as [s|s| |s m e]; cbn; try discriminate.
  - now destruct s.
  - rewrite Z.compare_refl.
    assert (H : PosDef.Pos.compare_cont Eq m m = Eq) by apply Pos.compare_cont_refl.
    rewrite H. now destruct s.
Qed.

Lemma ltb_irrefl (x : float) : PrimFloat.ltb x x = false.
Proof.
  rewrite ltb_spec. unfold SFltb.
  pose proof (SFcompare_irrefl (Prim2SF x)) as H.
  destruct (SFcompare (Prim2SF x) (Prim2SF x)) as [[]|]; congruence.
Qed.

(** X14.  The box test is strict on all four sides: a word that only
    touches a box along an edge is outside it; and on a page without
    detected table boxes every word belongs to the free text. *)
Theorem X14_touching_a_box_is_outside :
  (forall (word : Word) (b_x0 b_top b_x1 b_bottom : float),
      x0 word = b_x1 \/ x1 word = b_x0 \/ top word = b_bottom \/ bottom word = b_top ->
      is_within_bboxes word [(b_x0, b_top, b_x1, b_bottom)] = false)
  /\ (forall page,
        find_tables page = [] ->
        non_table_text page = join (py " ") (map text (extract_words page))).
Proof.
  split.
  - intros word b_x0 b_top b_x1 b_bottom H. unfold is_within_bboxes. cbn [existsb].
    rewrite orb_false_r.
    destruct H as [<-|[<-|[<-|<-]]]; rewrite ltb_irrefl;
      rewrite ?andb_false_r, ?andb_false_l; reflexivity.
  - intros page Hb. unfold non_table_text. rewrite Hb.
    assert (Hall : forall ws : list Word,
               filter (fun word => is_within_bboxes word [] = false) ws = ws).
    { induction ws as [|w ws IH]; [reflexivity|]. rewrite filter_cons.
      cbn [is_within_bboxes existsb]. destruct (decide (false = false)); [|easy].
      f_equal. exact IH. }
    now rewrite Hall.
Qed.

Lemma X14_witness :
  is_within_bboxes (a_word "Total" 50 120 90 130) [narrow_box] = false
  /\ non_table_text page_zero = join (py " ") (map text (extract_words page_zero)).
Proof.
  destruct X14_touching_a_box_is_outside as [Htouch Hfree]. split.
  - apply (Htouch (a_word "Total" 50 120 90 130) 0 100 50 200)%float. left. reflexivity.
  - apply Hfree. reflexivity.
Defined.

(* ===================================================================== *)
(** ** The order of the pages                                             *)
(* ===================================================================== *)

Lemma dec_le_antisym a b : dec_le a b -> dec_le b a -> dec_compare a b = Some Eq.
Proof.
  intros Hab Hba. destruct Hab as [Hab|Hab]; [exfalso|exact Hab].
  destruct a as [sa ca ea|[]|], b as [sb cb eb|[]|]; cbn in Hab;
    try discriminate Hab; destruct Hba as [Hba|Hba]; cbn in Hba; try discriminate Hba.
  - injection Hab as Hab. injection Hba as Hba.
    rewrite <- Qcompare_antisym, Hab in Hba. discriminate Hba.
  - injection Hab as Hab. injection Hba as Hba.
    rewrite <- Qcompare_antisym, Hab in Hba. discriminate Hba.
Qed.

(** X15.  The reported value does not depend on the order of the pages:
    two documents made of the same pages, both reported with a value,
    are reported with numerically equal values. *)
Theorem X15_value_independent_of_page_order
    (pages pages' : list Page) (v v' : Decimal) (p p' : Z) :
  (forall page, In page pages <-> In page pages') ->
  find_highest_value_in_pdf pages = Ok (Some (v, p)) ->
  find_highest_value_in_pdf pages' = Ok (Some (v', p')) ->
  dec_compare v v' = Some Eq.
Proof.
  intros Hsame [Hs Hne]%report_some [Hs' Hne']%report_some.
  unfold scan_pages in Hs, Hs'.
  assert (Hle : forall l l' w q w' q',
             (forall page, In page l -> In page l') ->
             for_each (enumerate l) process_page initial_state = Ok (ScanState w q) ->
             ScanState w q <> initial_state ->
             for_each (enumerate l') process_page initial_state = Ok (ScanState w' q') ->
             dec_le w w').
  { intros l l' w q w' q' Hin H Hn H'.
    apply pages_origin in H as [H|(i & page & Hi & _ & Hv)]; [easy|].
    apply In_enumerate in Hi.
    assert (Hpage : In page l').
    { apply Hin, list_elem_of_In. eapply list_elem_of_lookup_2; exact Hi. }
    apply In_lookup in Hpage as [j Hj].
    apply (pages_cover _ _ _ j page w H'); [now apply In_enumerate|exact Hv]. }
  apply dec_le_antisym.
  - eapply (Hle pages pages'); eauto. intros page. apply Hsame.
  - eapply (Hle pages' pages); eauto. intros page. apply Hsame.
Qed.

Lemma X15_witness :
  dec_compare (Finite false 500000000 0) (Finite false 500000000 0) = Some Eq.
Proof.
  apply (X15_value_independent_of_page_order
           [page_zero; page_free_text] [page_free_text; page_zero]
           (Finite false 500000000 0) (Finite false 500000000 0) 2 1).
  - intros page. cbn [In]. tauto.
  - vm_compute. reflexivity.
  - vm_compute. reflexivity.
Defined.

(* ===================================================================== *)
(** ** Where a literal ends                                               *)
(* ===================================================================== *)

Lemma digit_is_word (c : char) : is_digit c = true -> is_word c = true.
Proof. by_char c. Qed.

Lemma space_not_word (c : char) : is_space c = true -> is_word c = false.
Proof.
  intros H. destruct (is_word c) eqn:E; [|reflexivity].
  apply word_not_space in E. congruence.
Qed.

Lemma digits_last (u : str) :
  u <> [] -> forallb is_digit u = true ->
  exists pre d, u = pre ++ [d] /\ is_digit d = true.
Proof.
  intros Hne H. destruct (exists_last Hne) as (pre & d & ->). exists pre, d.
  split; [reflexivity|]. rewrite forallb_app in H. apply andb_true_iff in H as [_ H].
  cbn in H. now apply andb_true_iff in H as [H _].
Qed.

Lemma lang_digits_end u :
  lang true (Alt (Cat (Rep 1 (Some 3%nat) (Cls Digit))
                      (Star (Cat (Chr ",") (Rep 3 (Some 3%nat) (Cls Digit)))))
                 (Plus (Cls Digit))) u ->
  exists pre d, u = pre ++ [d] /\ is_digit d = true.
Proof.
  cbn [lang]. intros [(u1 & u2 & -> & H1 & H2)|H].
  - apply (lang_rep_cls true 1 (Some 3%nat) Digit) in H1 as (Hu1 & Hlen & _).
    cbn [in_class] in Hu1. destruct H2 as (us & -> & Hall & _).
    destruct us as [|x us] using rev_ind.
    + cbn. rewrite app_nil_r. apply digits_last; [|exact Hu1].
      intros ->. cbn in Hlen. lia.
    + apply Forall_app in Hall as [_ Hx]. apply Forall_inv in Hx.
      destruct Hx as (v1 & v2 & -> & _ & Hv2).
      apply (lang_rep_cls true 3 (Some 3%nat) Digit) in Hv2 as (Hv2 & Hl2 & _).
      cbn [in_class] in Hv2.
      destruct (digits_last v2) as (pre & d & -> & Hd); [|exact Hv2|].
      { intros ->. cbn in Hl2. lia. }
      exists (u1 ++ concat us ++ v1 ++ pre), d. split; [|exact Hd].
      rewrite concat_app. cbn [concat]. rewrite app_nil_r. now rewrite <- !app_assoc.
  - apply (lang_rep_cls true 1 None Digit) in H as (Hu & Hlen & _). cbn [in_class] in Hu.
    apply digits_last; [|exact Hu]. intros ->. cbn in Hlen. lia.
Qed.

Lemma literal_ends_with_digit lit :
  lang true NUMBER_LITERAL lit -> exists pre d, lit = pre ++ [d] /\ is_digit d = true.
Proof.
  unfold NUMBER_LITERAL.
  intros (d & x1 & -> & _ & sp & x2 & -> & _ & body & frac & -> & Hb & Hf).
  apply lang_fraction in Hf as [->|(fs & -> & Hne & Hfs)].
  - apply lang_digits_end in Hb as (pre & x & -> & Hx).
    exists (d ++ sp ++ pre), x. split; [|exact Hx]. now rewrite app_nil_r, <- !app_assoc.
  - destruct (digits_last fs Hne Hfs) as (pre & x & -> & Hx).
    exists (d ++ sp ++ body ++ Latin "." :: pre), x. split; [|exact Hx].
    now rewrite <- !app_assoc.
Qed.

(** X16.  A token without an inline scale word has its literal end at a
    word boundary: the literal is never followed directly by a letter, a
    digit or an underscore, so a number that runs into a word is not
    cut out of it. *)
Theorem X16_bare_literal_ends_at_a_boundary (t : str) (m : rmatch) (lit : str) :
  In m (finditer NUMBER_RE t) -> groups m = [Some lit; None] ->
  exists before after,
    t = before ++ lit ++ after /\ length before = m_start m /\ word_ends_here after.
Proof.
  intros (behind & ahead & <- & Hm)%finditer_match Hg.
  apply number_match_shape in Hm
    as (lit' & sp & word & tail & mw & -> & Hlit & Hsp & Hg' & Hw & Hstart & Hseen & Hrest & Hb).
  rewrite Hg in Hg'. injection Hg' as <- <-.
  destruct Hw as [[_ ->]|[[=] _]].
  exists (rev behind), (sp ++ tail). split_and!.
  - reflexivity.
  - now rewrite length_rev, Hstart.
  - destruct sp as [|c sp].
    + cbn [app]. rewrite <- Hrest.
      destruct (literal_ends_with_digit _ Hlit) as (pre & d & -> & Hd).
      apply (boundary_after_word _ pre [d] behind); [|easy| |exact Hb].
      * cbn. now rewrite (digit_is_word _ Hd).
      * rewrite Hseen. now rewrite !app_nil_r.
    + cbn in Hsp. apply andb_true_iff in Hsp as [Hc _]. cbn. now apply space_not_word.
Qed.

Lemma X16_witness :
  exists before after,
    py "0" = before ++ py "0" ++ after /\ length before = m_start first_zero_token
    /\ word_ends_here after.
Proof.
  apply (X16_bare_literal_ends_at_a_boundary (py "0") first_zero_token (py "0")).
  - vm_compute. left. reflexivity.
  - reflexivity.
Defined.

(* ===================================================================== *)
(** ** The tokens of a text                                               *)
(* ===================================================================== *)

Lemma number_match_extent behind ahead m :
  match_at NUMBER_RE behind ahead = Some m ->
  m_start m = length behind
  /\ (m_start m < m_end m)%nat
  /\ (m_end m + length (rest (m_final m)) = length behind + length ahead)%nat.
Proof.
  intros Hm. apply number_match_shape in Hm
    as (lit & sp & word & tail & mw & -> & Hlit & _ & _ & _ & Hstart & Hseen & Hrest & _).
  apply literal_nonempty in Hlit. unfold m_end. rewrite Hseen, Hrest, Hstart.
  rewrite !length_app, length_rev, !length_app.
  destruct lit; [easy|]. cbn [length]. lia.
Qed.

Lemma finditer_from_extent fuel behind ahead :
  (forall (i j : nat) m1 m2,
      (i < j)%nat ->
      finditer_from NUMBER_RE fuel behind ahead !! i = Some m1 ->
      finditer_from NUMBER_RE fuel behind ahead !! j = Some m2 ->
      (m_end m1 <= m_start m2)%nat)
  /\ Forall (fun m => (length behind <= m_start m)%nat /\ (m_start m < m_end m)%nat
                      /\ (m_end m <= length behind + length ahead)%nat)
            (finditer_from NUMBER_RE fuel behind ahead).
Proof.
  revert behind ahead. induction fuel as [|fuel IH]; intros behind ahead; cbn [finditer_from].
  - split; [intros i j m1 m2 _ H; discriminate H|constructor].
  - destruct (search_from NUMBER_RE behind ahead) as [m|] eqn:Hs;
      [|split; [intros i j m1 m2 _ H; discriminate H|constructor]].
    apply search_from_first in Hs as (skipped & ahead' & -> & Hm & _).
    apply number_match_extent in Hm as (Hstart & Hlt & Hend).
    rewrite length_app, length_rev in Hstart, Hend.
    destruct (IH (seen (m_final m)) (rest (m_final m))) as [Hsorted Hall].
    fold (m_end m) in Hall. rewrite length_app. split.
    + intros i j m1 m2 Hij H1 H2. destruct j as [|j]; [lia|]. cbn in H2.
      destruct i as [|i].
      * injection H1 as <-. rewrite Forall_forall in Hall.
        destruct (Hall m2) as (H & _); [|exact H]. eapply list_elem_of_lookup_2; exact H2.
      * cbn in H1. apply (Hsorted i j); [lia|exact H1|exact H2].
    + constructor; [lia|].
      eapply Forall_impl; [exact Hall|]. intros m' (H1 & H2 & H3). lia.
Qed.

(** X17.  The tokens of a text come in the order of the text and do not
    overlap: a later token begins where an earlier one ended or further
    on, and every token takes up at least one character of the text. *)
Theorem X17_tokens_in_order_without_overlap (t : str) :
  (forall (i j : nat) m1 m2,
      (i < j)%nat ->
      finditer NUMBER_RE t !! i = Some m1 -> finditer NUMBER_RE t !! j = Some m2 ->
      (m_end m1 <= m_start m2)%nat)
  /\ (forall m, In m (finditer NUMBER_RE t) ->
                (m_start m < m_end m)%nat /\ (m_end m <= length t)%nat).
Proof.
  unfold finditer. destruct (finditer_from_extent (S (length t)) [] t) as [Hs Hall].
  split; [exact Hs|]. intros m Hm. rewrite Forall_forall in Hall.
  destruct (Hall m) as (_ & H1 & H2); [now apply list_elem_of_In|]. cbn in H2. lia.
Qed.

Lemma X17_witness :
  (m_end first_number_token <= m_start second_number_token)%nat
  /\ (m_start first_number_token < m_end first_number_token)%nat.
Proof.
  destruct (X17_tokens_in_order_without_overlap two_numbers_text) as [Hord Hin]. split.
  - apply (Hord 0%nat 1%nat); [lia|vm_compute; reflexivity|vm_compute; reflexivity].
  - apply Hin. vm_compute. left. reflexivity.
Defined.

(* ===================================================================== *)
(** ** The header band                                                    *)
(* ===================================================================== *)

Lemma header_text_band page :
  header_text_of page =
  join (py " ")
       (map text (filter (fun w => in_header_band (height page) w = true)
                         (extract_words page))).
Proof. reflexivity. Qed.

Lemma page_multiplier_of_header_text page :
  get_page_level_multiplier page = context_multiplier (header_text_of page).
Proof.
  unfold get_page_level_multiplier. rewrite header_text_band.
  destruct (extract_words page); reflexivity.
Qed.

(** X18.  Only the words of the header band count for the page-level
    multiplier, and the band is strict: a word whose top is not less
    than 15% of the page height, one that lies exactly on that line
    included, can be taken off the page without changing the
    multiplier; tables and table boxes play no part either. *)
Theorem X18_page_multiplier_reads_the_header_band_only :
  (forall page page',
      height page = height page' ->
      filter (fun w => in_header_band (height page) w = true) (extract_words page)
      = filter (fun w => in_header_band (height page') w = true) (extract_words page') ->
      get_page_level_multiplier page = get_page_level_multiplier page')
  /\ (forall h ws1 w ws2 tables boxes,
        in_header_band h w = false ->
        get_page_level_multiplier (MkPage h (ws1 ++ w :: ws2) tables boxes)
        = get_page_level_multiplier (MkPage h (ws1 ++ ws2) tables boxes))
  /\ (forall h w, top w = header_band_line h -> in_header_band h w = false).
Proof.
  assert (H1 : forall page page',
             height page = height page' ->
             filter (fun w => in_header_band (height page) w = true) (extract_words page)
             = filter (fun w => in_header_band (height page') w = true)
                      (extract_words page') ->
             get_page_level_multiplier page = get_page_level_multiplier page').
  { intros page page' _ Hw.
    now rewrite !page_multiplier_of_header_text, !header_text_band, Hw. }
  split_and!.
  - exact H1.
  - intros h ws1 w ws2 tables boxes Hw. apply H1; [reflexivity|].
    cbn [height extract_words]. rewrite !filter_app, filter_cons.
    destruct (decide (in_header_band h w = true)) as [E|_]; [congruence|reflexivity].
  - intros h w E. unfold in_header_band. rewrite E. apply ltb_irrefl.
Qed.

Lemma X18_witness :
  get_page_level_multiplier
    (MkPage 1000 ([a_word "(in" 10 10 30 20] ++ a_word "millions)" 35 150 80 160 :: [])
            [] [])
  = get_page_level_multiplier (MkPage 1000 ([a_word "(in" 10 10 30 20] ++ []) [] []).
Proof.
  destruct X18_page_multiplier_reads_the_header_band_only as (_ & Hdrop & _).
  apply Hdrop. vm_compute. reflexivity.
Defined.

(* ===================================================================== *)
(** ** Why a scan stops                                                   *)
(* ===================================================================== *)

(** A loop that raises does so in one of its turns, entered in a state
    that every earlier turn has kept within the invariant. *)
Lemma for_each_raise_inv {A S : Type} (P : S -> Prop)
    (body : S -> A -> result S) (xs : list A) (e : exn) :
  (forall st x st', In x xs -> P st -> body st x = Ok st' -> P st') ->
  forall st, P st -> for_each xs body st = Raise e ->
    exists x st0, In x xs /\ P st0 /\ body st0 x = Raise e.
Proof.
  induction xs as [|x xs IH]; intros Hb st HP; cbn [for_each]; [discriminate|].
  destruct (body st x) as [st1|e'] eqn:E; cbn.
  - intros H. destruct (IH (fun s y s' Hy => Hb s y s' (or_intror Hy)) st1) as
        (y & st0 & Hy & HP0 & Hr); [eapply Hb; [now left|exact HP|exact E]|exact H|].
    exists y, st0. split_and!; [now right|exact HP0|exact Hr].
  - intros [= <-]. exists x, st. split_and!; [now left|exact HP|exact E].
Qed.

Lemma update_max_ok page_num st v :
  is_finite v = true -> settled st -> exists st', update_max page_num st v = Ok st'.
Proof.
  intros Hv Hst. destruct v as [sg c e| |]; try discriminate Hv.
  unfold update_max, dec_gt. destruct Hst as [->|Hst].
  - cbn. eauto.
  - destruct (max_value st) as [sg' c' e'| |]; try discriminate Hst. cbn.
    destruct (_ ?= _)%Q; cbn; eauto.
Qed.

Lemma parse_value_raises lit w k e : parse_value lit w k = Raise e -> e = Overflow.
Proof.
  unfold parse_value. destruct (parse_value_try lit w k) as [v|e'] eqn:E; [discriminate|].
  destruct (parse_value_try_raises _ _ _ _ E) as [-> | ->]; [discriminate|now intros [= <-]].
Qed.

Lemma tokens_raise page_num fallback (t : str) st e :
  is_finite fallback = true -> settled st ->
  for_each (finditer NUMBER_RE t)
    (process_match page_num (fun n w => parse_value n w fallback)) st = Raise e ->
  e = Overflow.
Proof.
  intros Hk Hst H.
  assert (Hstep : forall s m s',
             In m (finditer NUMBER_RE t) -> settled s ->
             process_match page_num (fun n w => parse_value n w fallback) s m = Ok s' ->
             settled s').
  { intros s m s' Hm Hs Hb.
    apply token_literal_parses in Hm as (lit & mw & c & x & Hg & Hd).
    unfold process_match in Hb. rewrite Hg in Hb.
    destruct (parse_value lit mw fallback) as [v|err] eqn:Hv; cbn in Hb; [|discriminate].
    eapply update_max_settled; [|exact Hb|exact Hs]. eapply parse_value_finite; eassumption. }
  apply (for_each_raise_inv settled _ _ _ Hstep _ Hst) in H as (m & s & Hm & Hs & Hr).
  apply token_literal_parses in Hm as (lit & mw & c & x & Hg & Hd).
  unfold process_match in Hr. rewrite Hg in Hr.
  destruct (parse_value lit mw fallback) as [v|err] eqn:Hv; cbn in Hr.
  - destruct (update_max_ok page_num s v) as (s' & E); [|exact Hs|congruence].
    eapply parse_value_finite; eassumption.
  - injection Hr as <-. eapply parse_value_raises; exact Hv.
Qed.

Lemma effective_fallback_finite (header : Row) col tcm excl :
  is_finite tcm = true ->
  is_finite (effective_fallback (column_multipliers_of header) col tcm excl) = true.
Proof. intros H. rewrite <- context_mult_of_spec. now apply context_mult_of_finite. Qed.

Lemma process_cell_settled page_num (header : Row) tcm excl st ic st' :
  is_finite tcm = true ->
  process_cell page_num (column_multipliers_of header) tcm excl st ic = Ok st' ->
  settled st -> settled st'.
Proof.
  intros Hk. destruct ic as [col [cell|]]; [|cbn; now intros [= <-]].
  rewrite process_cell_tokens. apply tokens_settled. now apply effective_fallback_finite.
Qed.

Lemma process_cell_raise page_num (header : Row) tcm excl st ic e :
  is_finite tcm = true -> settled st ->
  process_cell page_num (column_multipliers_of header) tcm excl st ic = Raise e ->
  e = Overflow.
Proof.
  intros Hk Hst. destruct ic as [col [cell|]]; [|cbn; discriminate].
  rewrite process_cell_tokens. apply tokens_raise; [|exact Hst].
  now apply effective_fallback_finite.
Qed.

Lemma process_row_settled page_num (header : Row) tcm st (row : Row) st' :
  is_finite tcm = true ->
  process_row page_num (column_multipliers_of header) tcm st row = Ok st' ->
  settled st -> settled st'.
Proof.
  intros Hk. destruct (has_first_cell_dec row) as [Hf|Hf].
  - rewrite (process_row_cells _ _ _ _ _ Hf). intros H Hst. revert H.
    apply for_each_inv; [|exact Hst].
    intros s ic s' _ Hs Hb. eapply process_cell_settled; eassumption.
  - rewrite (process_row_skips _ _ _ _ _ Hf). now intros [= <-].
Qed.

Lemma process_row_raise page_num (header : Row) tcm st (row : Row) e :
  is_finite tcm = true -> settled st ->
  process_row page_num (column_multipliers_of header) tcm st row = Raise e ->
  e = Overflow.
Proof.
  intros Hk Hst. destruct (has_first_cell_dec row) as [Hf|Hf].
  - rewrite (process_row_cells _ _ _ _ _ Hf). intros H.
    apply (for_each_raise_inv settled) in H as (ic & s & _ & Hs & Hr); [|
      intros s ic s' _ Hs Hb; eapply process_cell_settled; eassumption|exact Hst].
    eapply process_cell_raise; eassumption.
  - rewrite (process_row_skips _ _ _ _ _ Hf). discriminate.
Qed.

Lemma process_table_settled page page_num pcm st it st' :
  is_finite pcm = true ->
  process_table page page_num pcm st it = Ok st' -> settled st -> settled st'.
Proof.
  intros Hk. destruct it as [t_idx [|[|h header] rows]]; try (now intros [= <-]).
  destruct (find_tables page !! t_idx) as [bbox|] eqn:Hb.
  2:{ unfold process_table. now rewrite Hb. }
  rewrite (process_table_rows _ _ _ _ _ _ _ bbox) by easy. intros H Hst. revert H.
  apply for_each_inv; [|exact Hst].
  intros s row s' _ Hs Hr. eapply process_row_settled; [|exact Hr|exact Hs].
  now apply table_context_multiplier_finite.
Qed.

Lemma process_table_raise page page_num pcm st t_idx (table : Table) e :
  is_finite pcm = true -> settled st ->
  process_table page page_num pcm st (t_idx, table) = Raise e ->
  e = Overflow
  \/ (e = IndexError
      /\ exists header rows,
           table = header :: rows /\ header <> [] /\ find_tables page !! t_idx = None).
Proof.
  intros Hk Hst. destruct table as [|[|h header] rows]; try discriminate.
  destruct (find_tables page !! t_idx) as [bbox|] eqn:Hb.
  - rewrite (process_table_rows _ _ _ _ _ _ _ bbox) by easy. intros H. left.
    apply (for_each_raise_inv settled) in H as (row & s & _ & Hs & Hr); [| |exact Hst].
    + eapply process_row_raise; [|exact Hs|exact Hr].
      now apply table_context_multiplier_finite.
    + intros s row s' _ Hs Hr. eapply process_row_settled; [|exact Hr|exact Hs].
      now apply table_context_multiplier_finite.
  - unfold process_table. rewrite Hb. intros [= <-]. right. split; [reflexivity|].
    exists (h :: header), rows. easy.
Qed.

Lemma process_page_raise st i page e :
  settled st -> process_page st (i, page) = Raise e ->
  e = Overflow
  \/ (e = IndexError
      /\ exists t_idx header rows,
           extract_tables page !! t_idx = Some (header :: rows)
           /\ header <> [] /\ find_tables page !! t_idx = None).
Proof.
  intros Hst. unfold process_page.
  destruct (for_each (enumerate (extract_tables page)) _ st) as [st1|e'] eqn:E; cbn.
  - intros H. left. unfold process_non_table in H.
    destruct (non_table_text page) as [|c t]; [discriminate|].
    apply (tokens_raise _ ONE _ _ _ eq_refl) in H; [exact H|].
    revert E. apply for_each_inv; [|exact Hst].
    intros s it s' _ Hs Hb. eapply process_table_settled; [|exact Hb|exact Hs].
    apply get_page_level_multiplier_finite.
  - intros [= <-].
    apply (for_each_raise_inv settled) in E as ([t_idx table] & s & Hin & Hs & Hr);
      [| |exact Hst].
    + apply process_table_raise in Hr as [->|(-> & header & rows & -> & Hh & Hb)];
        [now left| |apply get_page_level_multiplier_finite|exact Hs].
      right. split; [reflexivity|]. apply In_enumerate in Hin. eauto 6.
    + intros s0 it s' _ Hs0 Hb. eapply process_table_settled; [|exact Hb|exact Hs0].
      apply get_page_level_multiplier_finite.
Qed.

(** X19.  A scan stops before its end for one of two reasons only: a
    value beyond the range of the decimal context (Overflow), or a table
    with a non-empty header row that has no detected box (IndexError).
    No other exception arises while the pages are read. *)
Theorem X19_scan_stops_for_two_reasons_only (pages : list Page) (e : exn) :
  scan_pages pages = Raise e ->
  e = Overflow
  \/ (e = IndexError
      /\ exists page t_idx header rows,
           In page pages
           /\ extract_tables page !! t_idx = Some (header :: rows)
           /\ header <> [] /\ find_tables page !! t_idx = None).
Proof.
  unfold scan_pages. intros H.
  apply (for_each_raise_inv settled) in H as ([i page] & s & Hin & Hs & Hr);
    [| |now left].
  - apply process_page_raise in Hr as [->|(-> & t_idx & header & rows & Ht & Hh & Hb)];
      [now left| |exact Hs].
    right. split; [reflexivity|]. exists page, t_idx, header, rows.
    split_and!; try assumption.
    apply In_enumerate in Hin. apply list_elem_of_In. eapply list_elem_of_lookup_2; exact Hin.
  - intros s ip s' _ Hs Hb. eapply process_page_settled; eassumption.
Qed.

Lemma X19_witness :
  IndexError = Overflow
  \/ (IndexError = IndexError
      /\ exists page t_idx header rows,
           In page [page_three_values; page_unboxed_table]
           /\ extract_tables page !! t_idx = Some (header :: rows)
           /\ header <> [] /\ find_tables page !! t_idx = None).
Proof.
  apply (X19_scan_stops_for_two_reasons_only [page_three_values; page_unboxed_table]).
  vm_compute. reflexivity.
Defined.
